(** * The backgammon engine of [BackgammonGame] (src/index.js)

    A shallow embedding of the rules engine of the React component
    [BackgammonGame]: the board, the legality helpers, the move generator
    [calculatePossibleMoves], the existence check [checkIfAnyPossibleMoves]
    and the event handlers ([rollDiceHandler], [handlePointClick],
    [performMove], [undoLastMove], [endTurn]) together with the effects that
    keep [mustReenterFromBar] and [possibleMovesInfo] up to date.

    JavaScript numbers are integers here and are modelled by [Z]; colour
    values are the JavaScript strings of the source; arrays are lists whose
    head is index 0, so [push] appends and [pop] removes the last element.
    State that only feeds rendering (the dice faces shown, the modal
    dialogs, the sound toggle) is left out. *)

From Stdlib Require Import ZArith Lia List Bool String.
From stdpp Require Import base list.
Import ListNotations.

Open Scope string_scope.
Open Scope list_scope.
Open Scope Z_scope.

(** ** Data model *)

(** A colour is a JavaScript string: ['white'], ['black'], and whatever else
    the code produces in a colour position. *)
Abbreviation Color := string (only parsing).

(** The objects [{ white: n, black: m }] used for [bar] and [home]. *)
Record Tally := mkTally { white : Z; black : Z }.

(** [t[k]]: reading a key other than ['white'] and ['black'] gives
    [undefined]. *)
Definition tally_get (t : Tally) (k : Color) : option Z :=
  if String.eqb k "white" then Some (white t)
  else if String.eqb k "black" then Some (black t)
  else None.

(** [t[k] > 0], which is false when [t[k]] is [undefined]. *)
Definition tally_pos (t : Tally) (k : Color) : bool :=
  match tally_get t k with
  | Some n => 0 <? n
  | None => false
  end.

(** [t[k]++] and [t[k]--] (as [tally_add k 1] and [tally_add k (-1)]).  For a
    key other than ['white'] and ['black'] JavaScript stores [NaN] under that
    new key; the two fields of the record are left as they are. *)
Definition tally_add (k : Color) (d : Z) (t : Tally) : Tally :=
  if String.eqb k "white" then mkTally (white t + d) (black t)
  else if String.eqb k "black" then mkTally (white t) (black t + d)
  else t.

(** [boardState]: each point is the array [checkers] of the colours stacked
    on it, bottom first. *)
Record Board := mkBoard {
  points : list (list Color);
  bar : Tally;
  home : Tally
}.

(** [arr[i]] for a JavaScript number [i]: [undefined] out of range. *)
Definition js_nth {A : Type} (l : list A) (i : Z) : option A :=
  if i <? 0 then None else l !! Z.to_nat i.

(** In-place update of [arr[i]], for an index that is in range. *)
Definition js_alter {A : Type} (f : A -> A) (i : Z) (l : list A) : list A :=
  if i <? 0 then l else alter f (Z.to_nat i) l.

(** [arr.indexOf(x)] on an array of numbers: the scan from index [k]
    upwards, [-1] when [x] is absent. *)
Fixpoint indexFrom (k : Z) (l : list Z) (x : Z) : Z :=
  match l with
  | [] => -1
  | y :: l' => if y =? x then k else indexFrom (k + 1) l' x
  end.
Definition indexOf (l : list Z) (x : Z) : Z := indexFrom 0 l x.

(** [currentBoardState.points[i].checkers] where the source reads it without
    a guard: only used at indices at which every board has a point (boards
    are built by [Array(24)] and copied), so the default is never taken on
    such a board. *)
Definition checkersAt (b : Board) (i : Z) : list Color :=
  default [] (js_nth (points b) i).

(** [checkers[0] === c] *)
Definition firstIs (cs : list Color) (c : Color) : bool :=
  match cs with
  | c0 :: _ => String.eqb c0 c
  | [] => false
  end.

(** [checkers.includes(c)] *)
Definition includes (cs : list Color) (c : Color) : bool :=
  existsb (fun x => String.eqb x c) cs.

(** [checkers.filter(c => c === playerColor).length] *)
Definition countColor (cs : list Color) (c : Color) : Z :=
  Z.of_nat (length (List.filter (fun x => String.eqb x c) cs)).

(** [checkers.pop()] and [checkers.push(c)] *)
Definition pop (cs : list Color) : list Color := removelast cs.
Definition push (c : Color) (cs : list Color) : list Color := cs ++ [c].

Definition popPoint (i : Z) (b : Board) : Board :=
  mkBoard (js_alter pop i (points b)) (bar b) (home b).
Definition pushPoint (i : Z) (c : Color) (b : Board) : Board :=
  mkBoard (js_alter (push c) i (points b)) (bar b) (home b).
Definition addBar (c : Color) (d : Z) (b : Board) : Board :=
  mkBoard (points b) (tally_add c d (bar b)) (home b).
Definition addHome (c : Color) (d : Z) (b : Board) : Board :=
  mkBoard (points b) (bar b) (tally_add c d (home b)).

(** The movement paths of the two colours. *)
Definition whitePath : list Z :=
  [12; 11; 10; 9; 8; 7; 6; 5; 4; 3; 2; 1; 24; 23; 22; 21; 20; 19; 18; 17; 16; 15; 14; 13].
Definition blackPath : list Z :=
  [13; 14; 15; 16; 17; 18; 19; 20; 21; 22; 23; 24; 1; 2; 3; 4; 5; 6; 7; 8; 9; 10; 11; 12].

Definition homePointsFor (isWhite : bool) : list Z :=
  if isWhite then [6; 5; 4; 3; 2; 1] else [19; 20; 21; 22; 23; 24].

Definition emptyPoints : list (list Color) := repeat [] 24.

(** The [useState] initial value of [boardState]. *)
Definition emptyBoard : Board := mkBoard emptyPoints (mkTally 0 0) (mkTally 0 0).

(** [newPoints[i].checkers = Array(n).fill(c)] *)
Definition fillPoint (i : Z) (n : nat) (c : Color) (pts : list (list Color)) :=
  js_alter (fun _ => repeat c n) i pts.

(** [initializeBoard]: the board it stores with [setBoardState]. *)
Definition initializeBoard : Board :=
  let newPoints :=
    fillPoint 12 2 "black" (fillPoint 23 5 "black" (fillPoint 4 3 "black"
    (fillPoint 6 5 "black"
    (fillPoint 17 5 "white" (fillPoint 0 5 "white" (fillPoint 19 3 "white"
    (fillPoint 11 2 "white" emptyPoints))))))) in
  mkBoard newPoints (mkTally 0 0) (mkTally 0 0).

(** ** Legality helpers *)

Definition getOpponentColor (playerColor : Color) : Color :=
  if String.eqb playerColor "white" then "black" else "opponent".

Definition isPointBlocked (pointIndex : Z) (playerColor : Color) (b : Board) : bool :=
  match js_nth (points b) pointIndex with
  | None => false
  | Some checkers =>
      if (Z.of_nat (length checkers) =? 0) then false
      else
        let opponentColor := getOpponentColor playerColor in
        firstIs checkers opponentColor && (2 <=? Z.of_nat (length checkers))
  end.

(** [homePointsForBearingOff.includes(gamePoint)] *)
Definition includesZ (l : list Z) (x : Z) : bool := existsb (Z.eqb x) l.

(** The loop of [areAllCheckersInHomeBoard] over the board indices in [idxs]:
    [None] when it returns false early, otherwise the running value of
    [checkersInHomeQuadrantOnBoard]. *)
Fixpoint homeLoop (playerColor : Color) (homePts : list Z) (b : Board)
    (idxs : list Z) (acc : Z) : option Z :=
  match idxs with
  | [] => Some acc
  | i :: rest =>
      let gamePoint := i + 1 in
      let checkersOnCurrentPoint := countColor (checkersAt b i) playerColor in
      if 0 <? checkersOnCurrentPoint then
        if negb (includesZ homePts gamePoint) then None
        else homeLoop playerColor homePts b rest (acc + checkersOnCurrentPoint)
      else homeLoop playerColor homePts b rest acc
  end.

(** The indices [0, 1, ..., 23] of the [for] loops over the board. *)
Definition boardIndices : list Z := map Z.of_nat (seq 0 24).

Definition areAllCheckersInHomeBoard (playerColor : Color) (b : Board) : bool :=
  let totalCheckers := 15 in
  let isWhite := String.eqb playerColor "white" in
  let homePointsForBearingOff := homePointsFor isWhite in
  if tally_pos (bar b) playerColor then false
  else
    match homeLoop playerColor homePointsForBearingOff b boardIndices 0 with
    | None => false
    | Some checkersInHomeQuadrantOnBoard =>
        match tally_get (home b) playerColor with
        | Some checkersBorneOff =>
            checkersBorneOff + checkersInHomeQuadrantOnBoard =? totalCheckers
        | None => false
        end
    end.

(** The check shared by [checkIfAnyPossibleMoves] and [checkSingleStepLogic]:
    no checker of the player on the home points listed before [fromPoint] in
    [homePoints]; false when [fromPoint] is not a home point. *)
Definition noCheckersFurtherAway (isWhite : bool) (fromPoint : Z)
    (playerColor : Color) (b : Board) : bool :=
  let homePoints := homePointsFor isWhite in
  let fromPointHomeIndex := indexOf homePoints fromPoint in
  if negb (fromPointHomeIndex =? -1) then
    forallb (fun furtherPoint => negb (includes (checkersAt b (furtherPoint - 1)) playerColor))
            (firstn (Z.to_nat fromPointHomeIndex) homePoints)
  else false.

(** The loop computing [isFurthestChecker] in [checkIfAnyPossibleMoves]. *)
Definition isFurthestChecker (isWhite : bool) (fromPoint : Z)
    (player : Color) (b : Board) : bool :=
  forallb (fun k =>
             if includes (checkersAt b k) player then
               negb ((isWhite && (fromPoint <? k + 1))
                     || (negb isWhite && (k + 1 <? fromPoint)))
             else true)
          boardIndices.

(** ** Dice arrays *)

(** [arr.sort((a, b) => a - b)]: ascending order. *)
Fixpoint insertAsc (x : Z) (l : list Z) : list Z :=
  match l with
  | [] => [x]
  | y :: l' => if x <=? y then x :: l else y :: insertAsc x l'
  end.
Definition sortAsc (l : list Z) : list Z := fold_right insertAsc [] l.

(** [arr.sort((a, b) => b - a)]: descending order. *)
Fixpoint insertDesc (x : Z) (l : list Z) : list Z :=
  match l with
  | [] => [x]
  | y :: l' => if y <=? x then x :: l else y :: insertDesc x l'
  end.
Definition sortDesc (l : list Z) : list Z := fold_right insertDesc [] l.

(** [arr.reduce((sum, d) => sum + d, 0)] *)
Definition sumDice (l : list Z) : Z := fold_left Z.add l 0.

(** [const index = arr.indexOf(die); if (index > -1) arr.splice(index, 1)] *)
Definition spliceDie (die : Z) (arr : list Z) : list Z :=
  let index := indexOf arr die in
  if -1 <? index then delete (Z.to_nat index) arr else arr.

(** [diceToConsume.forEach(die => ...)] over a copy of [availableDice]. *)
Definition consumeDice (diceToConsume availableDice : list Z) : list Z :=
  fold_left (fun newAvailableDice die => spliceDie die newAvailableDice)
            diceToConsume availableDice.

(** ** The move generator *)

(** A move source: the string ['bar'] or a point number. *)
Inductive Source := Bar | Pt (n : Z).

Definition isBar (s : Source) : bool :=
  match s with Bar => true | Pt _ => false end.

Record MoveOption := mkMove { targetPoint : Z; diceUsed : list Z }.

(** The object returned by [checkSingleStepLogic]; [targetGamePoint] is
    [None] for [null]. *)
Record StepResult := mkStep {
  targetGamePoint : option Z;
  isValid : bool;
  isBearingOff : bool
}.

Definition pathOf (isWhite : bool) : list Z :=
  if isWhite then whitePath else blackPath.

Definition pathLength (isWhite : bool) : Z := Z.of_nat (length (pathOf isWhite)).

(** The entry test shared by the bar branches: the target index is on the
    board and the point is not blocked. *)
Definition entryOpen (targetGamePoint : Z) (playerColor : Color) (b : Board) : bool :=
  let targetPointIndex := targetGamePoint - 1 in
  (0 <=? targetPointIndex) && (targetPointIndex <? 24)
  && negb (isPointBlocked targetPointIndex playerColor b).

Definition entryTarget (isWhite : bool) (die : Z) : Z :=
  if isWhite then die else 18 + die.

Definition checkSingleStepLogic (playerColor : Color) (startPoint : Source)
    (startPathIndex die : Z) (tempBoard : Board) (isInitialFromBar : bool)
    : StepResult :=
  let isWhite := String.eqb playerColor "white" in
  let playerPath := pathOf isWhite in
  if isInitialFromBar && isBar startPoint then
    let targetGamePoint := entryTarget isWhite die in
    mkStep (Some targetGamePoint) (entryOpen targetGamePoint playerColor tempBoard) false
  else
    let targetPathIndex := startPathIndex + die in
    if pathLength isWhite <=? targetPathIndex then
      (* potential bearing off *)
      if areAllCheckersInHomeBoard playerColor tempBoard then
        match startPoint with
        | Pt startPoint =>
            let noFurther := noCheckersFurtherAway isWhite startPoint playerColor tempBoard in
            if noFurther then
              let distanceToBearOff := if isWhite then startPoint else 25 - startPoint in
              if (die =? distanceToBearOff) || ((distanceToBearOff <? die) && noFurther)
              then mkStep (Some (if isWhite then 0 else 25)) true true
              else mkStep None false true
            else mkStep None false true
        | Bar => mkStep None false true
        end
      else mkStep None false true
    else
      (* regular move on board *)
      match js_nth playerPath targetPathIndex with
      | Some actualTargetGamePoint =>
          if (1 <=? actualTargetGamePoint) && (actualTargetGamePoint <=? 24) then
            if negb (isPointBlocked (actualTargetGamePoint - 1) playerColor tempBoard)
            then mkStep (Some actualTargetGamePoint) true false
            else mkStep None false false
          else mkStep None false false
      | None => mkStep None false false
      end.

(** The hypothetical removal of the moving checker at the start of a step of
    [findAllMoves]: [None] when [checkerSuccessfullyMovedInTemp] is false. *)
Definition takeChecker (playerColor : Color) (currentFromPoint : Source)
    (b : Board) : option Board :=
  match currentFromPoint with
  | Bar =>
      match tally_get (bar b) playerColor with
      | Some n => if n =? 0 then None else Some (addBar playerColor (-1) b)
      | None => Some (addBar playerColor (-1) b)
      end
  | Pt p =>
      match js_nth (points b) (p - 1) with
      | None => None
      | Some checkers =>
          if (Z.of_nat (length checkers) =? 0) || negb (firstIs checkers playerColor)
          then None
          else Some (popPoint (p - 1) b)
      end
  end.

(** The simulated hit of [findAllMoves] on the point [intermediatePoint]. *)
Definition simulateHit (playerColor : Color) (intermediatePoint : Z) (b : Board) : Board :=
  let cs := checkersAt b (intermediatePoint - 1) in
  if (Z.of_nat (length cs) =? 1) && firstIs cs (getOpponentColor playerColor)
  then addBar (getOpponentColor playerColor) 1 (popPoint (intermediatePoint - 1) b)
  else b.

(** [findAllMoves]: the moves it pushes on [moves], in the order of the
    pushes.  The recursion consumes one die per level; [fuel] bounds its
    depth and [calculatePossibleMoves] passes the number of dice. *)
Fixpoint findAllMoves (fuel : nat) (playerColor : Color)
    (currentFromPoint : Source) (currentFromPathIndex : Z)
    (remainingDice : list Z) (currentBoard : Board) (pathDice : list Z)
    : list MoveOption :=
  match fuel with
  | O => []
  | S fuel' =>
      let isWhite := String.eqb playerColor "white" in
      let playerPath := pathOf isWhite in
      if Z.of_nat (length remainingDice) =? 0 then []
      else
        let sortedRemainingDice := sortAsc remainingDice in
        flat_map
          (fun d1 =>
             let actualIdx := indexOf sortedRemainingDice d1 in
             if -1 <? actualIdx then
               let tempRemainingDice := delete (Z.to_nat actualIdx) sortedRemainingDice in
               match takeChecker playerColor currentFromPoint currentBoard with
               | None => []
               | Some tempBoardAfterD1 =>
                   let r := checkSingleStepLogic playerColor currentFromPoint
                              currentFromPathIndex d1 tempBoardAfterD1 false in
                   if isValid r then
                     match targetGamePoint r with
                     | None => []
                     | Some intermediatePoint =>
                         let landed :=
                           if negb (isBearingOff r) then
                             let hit := simulateHit playerColor intermediatePoint tempBoardAfterD1 in
                             if isPointBlocked (intermediatePoint - 1) playerColor hit
                             then None
                             else Some (pushPoint (intermediatePoint - 1) playerColor hit)
                           else Some tempBoardAfterD1 in
                         match landed with
                         | None => []
                         | Some tempBoardAfterD1 =>
                             let currentPathDice := sortAsc (pathDice ++ [d1]) in
                             let intermediatePointPathIndex :=
                               if isBearingOff r then pathLength isWhite
                               else indexOf playerPath intermediatePoint in
                             mkMove intermediatePoint currentPathDice
                             :: (if negb (intermediatePointPathIndex =? -1)
                                    && (0 <? Z.of_nat (length tempRemainingDice))
                                 then findAllMoves fuel' playerColor (Pt intermediatePoint)
                                        intermediatePointPathIndex tempRemainingDice
                                        tempBoardAfterD1 currentPathDice
                                 else [])
                         end
                     end
                   else []
               end
             else [])
          sortedRemainingDice
  end.

(** The [Map] [uniqueMovesMap], as the list of its entries in insertion
    order; [set] on a key that is present replaces the value in place. *)
Fixpoint mapGet (key : Z) (m : list (Z * MoveOption)) : option MoveOption :=
  match m with
  | [] => None
  | (k, v) :: m' => if k =? key then Some v else mapGet key m'
  end.

Fixpoint mapSet (key : Z) (v : MoveOption) (m : list (Z * MoveOption))
    : list (Z * MoveOption) :=
  match m with
  | [] => [(key, v)]
  | (k, v0) :: m' => if k =? key then (k, v) :: m' else (k, v0) :: mapSet key v m'
  end.

(** [a.join(',') !== b.join(',')] on arrays of integers. *)
Definition diceDiffer (a b : list Z) : bool :=
  negb (bool_decide (a = b)).

(** One iteration of [moves.forEach(move => ...)].  The source sorts
    [move.diceUsed] in place before comparing; the entries of the map went
    through this when they were inserted. *)
Definition uniqueStep (m : list (Z * MoveOption)) (move0 : MoveOption)
    : list (Z * MoveOption) :=
  let move := mkMove (targetPoint move0) (sortAsc (diceUsed move0)) in
  let key := targetPoint move in
  match mapGet key m with
  | None => mapSet key move m
  | Some existingMove =>
      if diceDiffer (diceUsed move) (sortAsc (diceUsed existingMove)) then
        if Z.of_nat (length (diceUsed move)) <? Z.of_nat (length (diceUsed existingMove))
        then mapSet key move m
        else if Z.of_nat (length (diceUsed move)) =? Z.of_nat (length (diceUsed existingMove))
        then
          let sumCurrent := sumDice (diceUsed move) in
          let sumExisting := sumDice (diceUsed existingMove) in
          if sumExisting <? sumCurrent then mapSet key move m else m
        else m
      else m
  end.

Definition uniqueMoves (moves : list MoveOption) : list MoveOption :=
  map snd (fold_left uniqueStep moves []).

(** [calculatePossibleMoves]; [mustReenterFromBar] is the state variable the
    callback closes over. *)
Definition calculatePossibleMoves (mustReenterFromBar : bool)
    (fromPoint : Source) (currentDice : list Z) (playerColor : Color)
    (board : Board) : list MoveOption :=
  let isWhite := String.eqb playerColor "white" in
  let playerPath := pathOf isWhite in
  if mustReenterFromBar && isBar fromPoint then
    flat_map
      (fun die =>
         let r := checkSingleStepLogic playerColor Bar (-1) die board true in
         match targetGamePoint r with
         | Some targetGamePoint =>
             if isValid r then [mkMove targetGamePoint [die]] else []
         | None => []
         end)
      currentDice
  else
    match fromPoint with
    | Bar => []
    | Pt p =>
        match js_nth (points board) (p - 1) with
        | None => []
        | Some checkers =>
            if negb (firstIs checkers playerColor) then []
            else
              let fromPointIndexInPath := indexOf playerPath p in
              if fromPointIndexInPath =? -1 then []
              else
                uniqueMoves
                  (findAllMoves (length currentDice) playerColor (Pt p)
                     fromPointIndexInPath currentDice board [])
        end
    end.

(** ** The existence check *)

(** The body of the loop over the dice for a checker on [fromPoint], at
    index [fromPointIndexInPath] of the path: true when the source returns
    true for [die]. *)
Definition dieGivesMove (player : Color) (b : Board) (fromPoint : Z)
    (fromPointIndexInPath : Z) (die : Z) : bool :=
  let isWhite := String.eqb player "white" in
  let playerPath := pathOf isWhite in
  let targetPathIndex := fromPointIndexInPath + die in
  if pathLength isWhite <=? targetPathIndex then
    if areAllCheckersInHomeBoard player b then
      let noCheckersEarlierInPath := noCheckersFurtherAway isWhite fromPoint player b in
      let dieCanOvershoot := (if isWhite then fromPoint else 25 - fromPoint) <=? die in
      if noCheckersEarlierInPath then
        if (isWhite && (fromPoint =? die)) || (negb isWhite && (25 - fromPoint =? die))
        then true
        else if dieCanOvershoot then isFurthestChecker isWhite fromPoint player b
        else false
      else false
    else false
  else
    match js_nth playerPath targetPathIndex with
    | Some targetGamePoint =>
        (1 <=? targetGamePoint) && (targetGamePoint <=? 24)
        && negb (isPointBlocked (targetGamePoint - 1) player b)
    | None => false
    end.

Definition checkIfAnyPossibleMoves (currentBoardState : Board) (player : Color)
    (currentDice : list Z) : bool :=
  let isWhite := String.eqb player "white" in
  let playerPath := pathOf isWhite in
  if tally_pos (bar currentBoardState) player then
    existsb (fun die => entryOpen (entryTarget isWhite die) player currentBoardState)
            currentDice
  else
    existsb
      (fun i =>
         let currentPointCheckers := checkersAt currentBoardState i in
         if (0 <? Z.of_nat (length currentPointCheckers))
            && firstIs currentPointCheckers player then
           let fromPoint := i + 1 in
           let fromPointIndexInPath := indexOf playerPath fromPoint in
           if fromPointIndexInPath =? -1 then false
           else existsb (dieGivesMove player currentBoardState fromPoint fromPointIndexInPath)
                        currentDice
         else false)
      boardIndices.

(** ** The state of the component *)

(** An entry of [moveHistory]. *)
Record MoveRecord := mkRecord {
  fromPoint : Source;
  toPoint : Z;
  checkerColor : Color;
  hitOpponentChecker : bool;
  hitCheckerColor : option Color;
  usedDice : list Z
}.

(** The texts stored with [setGameMessage], by template and arguments. *)
Inductive Message :=
| MsgClickStart
| MsgMatchStarted (firstTo : Z)
| MsgRolled (player : Color) (die1 die2 : Z)
| MsgBarNoMoves (player : Color)
| MsgNoPossibleMoves (player : Color)
| MsgNewGame (player : Color)
| MsgTurnEnded (next : Color)
| MsgErrorNoBarChecker
| MsgErrorNoSourceChecker
| MsgBorneOff (player : Color)
| MsgMoveMade
| MsgNoMovesToUndo
| MsgErrorUndoing
| MsgUndone
| MsgMustReenter (player : Color)
| MsgPleaseRoll
| MsgDeselected
| MsgReenterFirst
| MsgReenterClickHighlighted
| MsgCannotSelectBearOff
| MsgSelected (pointNumber : Z)
| MsgNotYourChecker.

(** What an [endTurn] callback closes over: the values of [isPlaying],
    [boardState.home] and [currentPlayer] of the render that created it. *)
Record EndTurnClosure := mkClosure {
  seenPlaying : bool;
  seenHome : Tally;
  seenPlayer : Color
}.

Record Game := mkGame {
  matchFormat : Z;
  playerScore : Z;
  opponentScore : Z;
  gameMessage : Message;
  isPlaying : bool;
  availableDice : list Z;
  currentPlayer : Color;
  selectedPoint : option Z;
  possibleMovesInfo : list MoveOption;
  mustReenterFromBar : bool;
  moveHistory : list MoveRecord;
  boardState : Board;
  (** the [endTurn] callbacks handed to [setTimeout] that have not run yet *)
  timers : list EndTurnClosure
}.

(** The state setters. *)
Definition setMatchFormat v (s : Game) : Game :=
  mkGame v (playerScore s) (opponentScore s) (gameMessage s) (isPlaying s)
    (availableDice s) (currentPlayer s) (selectedPoint s) (possibleMovesInfo s)
    (mustReenterFromBar s) (moveHistory s) (boardState s) (timers s).
Definition setPlayerScore v (s : Game) : Game :=
  mkGame (matchFormat s) v (opponentScore s) (gameMessage s) (isPlaying s)
    (availableDice s) (currentPlayer s) (selectedPoint s) (possibleMovesInfo s)
    (mustReenterFromBar s) (moveHistory s) (boardState s) (timers s).
Definition setOpponentScore v (s : Game) : Game :=
  mkGame (matchFormat s) (playerScore s) v (gameMessage s) (isPlaying s)
    (availableDice s) (currentPlayer s) (selectedPoint s) (possibleMovesInfo s)
    (mustReenterFromBar s) (moveHistory s) (boardState s) (timers s).
Definition setGameMessage v (s : Game) : Game :=
  mkGame (matchFormat s) (playerScore s) (opponentScore s) v (isPlaying s)
    (availableDice s) (currentPlayer s) (selectedPoint s) (possibleMovesInfo s)
    (mustReenterFromBar s) (moveHistory s) (boardState s) (timers s).
Definition setIsPlaying v (s : Game) : Game :=
  mkGame (matchFormat s) (playerScore s) (opponentScore s) (gameMessage s) v
    (availableDice s) (currentPlayer s) (selectedPoint s) (possibleMovesInfo s)
    (mustReenterFromBar s) (moveHistory s) (boardState s) (timers s).
Definition setAvailableDice v (s : Game) : Game :=
  mkGame (matchFormat s) (playerScore s) (opponentScore s) (gameMessage s) (isPlaying s)
    v (currentPlayer s) (selectedPoint s) (possibleMovesInfo s)
    (mustReenterFromBar s) (moveHistory s) (boardState s) (timers s).
Definition setCurrentPlayer v (s : Game) : Game :=
  mkGame (matchFormat s) (playerScore s) (opponentScore s) (gameMessage s) (isPlaying s)
    (availableDice s) v (selectedPoint s) (possibleMovesInfo s)
    (mustReenterFromBar s) (moveHistory s) (boardState s) (timers s).
Definition setSelectedPoint v (s : Game) : Game :=
  mkGame (matchFormat s) (playerScore s) (opponentScore s) (gameMessage s) (isPlaying s)
    (availableDice s) (currentPlayer s) v (possibleMovesInfo s)
    (mustReenterFromBar s) (moveHistory s) (boardState s) (timers s).
Definition setPossibleMovesInfo v (s : Game) : Game :=
  mkGame (matchFormat s) (playerScore s) (opponentScore s) (gameMessage s) (isPlaying s)
    (availableDice s) (currentPlayer s) (selectedPoint s) v
    (mustReenterFromBar s) (moveHistory s) (boardState s) (timers s).
Definition setMustReenterFromBar v (s : Game) : Game :=
  mkGame (matchFormat s) (playerScore s) (opponentScore s) (gameMessage s) (isPlaying s)
    (availableDice s) (currentPlayer s) (selectedPoint s) (possibleMovesInfo s)
    v (moveHistory s) (boardState s) (timers s).
Definition setMoveHistory v (s : Game) : Game :=
  mkGame (matchFormat s) (playerScore s) (opponentScore s) (gameMessage s) (isPlaying s)
    (availableDice s) (currentPlayer s) (selectedPoint s) (possibleMovesInfo s)
    (mustReenterFromBar s) v (boardState s) (timers s).
Definition setBoardState v (s : Game) : Game :=
  mkGame (matchFormat s) (playerScore s) (opponentScore s) (gameMessage s) (isPlaying s)
    (availableDice s) (currentPlayer s) (selectedPoint s) (possibleMovesInfo s)
    (mustReenterFromBar s) (moveHistory s) v (timers s).
Definition setTimers v (s : Game) : Game :=
  mkGame (matchFormat s) (playerScore s) (opponentScore s) (gameMessage s) (isPlaying s)
    (availableDice s) (currentPlayer s) (selectedPoint s) (possibleMovesInfo s)
    (mustReenterFromBar s) (moveHistory s) (boardState s) v.

(** The [endTurn] callback created by the render of state [s]. *)
Definition closureOf (s : Game) : EndTurnClosure :=
  mkClosure (isPlaying s) (home (boardState s)) (currentPlayer s).

(** [setTimeout(endTurn, ...)] called from a handler of the render of [s0]. *)
Definition scheduleEndTurn (s0 : Game) (s : Game) : Game :=
  setTimers (timers s ++ [closureOf s0]) s.

(** The [useState] initial values. *)
Definition initialGame : Game :=
  mkGame 7 0 0 MsgClickStart false [] "white" None [] false [] emptyBoard [].

(** The state after the effect that calls [initializeBoard] on mount. *)
Definition mountedGame : Game := setBoardState initializeBoard initialGame.

(** ** The handlers *)

(** The resets common to the three branches of [endTurn]. *)
Definition clearTurn (s : Game) : Game :=
  setMoveHistory [] (setMustReenterFromBar false (setPossibleMovesInfo []
    (setSelectedPoint None (setAvailableDice [] s)))).

(** [endTurn], run as the callback [c] on the current state [s]. *)
Definition endTurn (c : EndTurnClosure) (s : Game) : Game :=
  if negb (seenPlaying c) then s
  else if white (seenHome c) =? 15 then
    setGameMessage (MsgNewGame "white") (setCurrentPlayer "white" (clearTurn
      (setBoardState initializeBoard (setPlayerScore (playerScore s + 1) s))))
  else if black (seenHome c) =? 15 then
    setGameMessage (MsgNewGame "black") (setCurrentPlayer "black" (clearTurn
      (setBoardState initializeBoard (setOpponentScore (opponentScore s + 1) s))))
  else
    setGameMessage (MsgTurnEnded (getOpponentColor (seenPlayer c)))
      (clearTurn
         (setCurrentPlayer
            (if String.eqb (currentPlayer s) "white" then "black" else "white") s)).

(** The tail of both branches of [performMove]: schedule [endTurn] when no
    dice are left or no further move exists. *)
Definition endTurnIfStuck (s0 : Game) (newBoardState : Board)
    (newAvailableDice : list Z) (s : Game) : Game :=
  let hasMoreMoves :=
    checkIfAnyPossibleMoves newBoardState (currentPlayer s0) newAvailableDice in
  if (Z.of_nat (length newAvailableDice) =? 0) || negb hasMoreMoves
  then scheduleEndTurn s0 s else s.

(** The first part of [performMove], the removal of the moving checker:
    the early return with an error message, or the board without the
    checker together with [checkerToMove]; [None] stands for the
    [TypeError] of reading [checkers] of a point that does not exist. *)
Definition takeSource (s : Game) (fromPoint : Source) : option (Game + Board * Color) :=
  match fromPoint with
  | Bar =>
      if tally_pos (bar (boardState s)) (currentPlayer s)
      then Some (inr (addBar (currentPlayer s) (-1) (boardState s), currentPlayer s))
      else Some (inl (setGameMessage MsgErrorNoBarChecker s))
  | Pt p =>
      match js_nth (points (boardState s)) (p - 1) with
      | None => None
      | Some sourcePoint =>
          match last sourcePoint with
          | Some checkerToMove =>
              if negb (firstIs sourcePoint (currentPlayer s))
              then Some (inl (setGameMessage MsgErrorNoSourceChecker s))
              else Some (inr (popPoint (p - 1) (boardState s), checkerToMove))
          | None => Some (inl (setGameMessage MsgErrorNoSourceChecker s))
          end
      end
  end.

(** The bear-off branch of [performMove] ([toPoint] is 0 or 25), on the
    board [newBoardState] without the moving checker. *)
Definition bearOffChecker (s : Game) (fromPoint : Source) (toPoint : Z)
    (diceToConsume : list Z) (newBoardState : Board) : Game :=
  let newBoardState :=
    if toPoint =? 0 then addHome "white" 1 newBoardState
    else addHome "black" 1 newBoardState in
  let newAvailableDice := consumeDice diceToConsume (availableDice s) in
  let s1 :=
    setMoveHistory
      (moveHistory s ++ [mkRecord fromPoint toPoint (currentPlayer s) false None diceToConsume])
      (setPossibleMovesInfo [] (setAvailableDice newAvailableDice
         (setSelectedPoint None (setGameMessage (MsgBorneOff (currentPlayer s))
            (setBoardState newBoardState s))))) in
  if (white (home newBoardState) =? 15) || (black (home newBoardState) =? 15)
  then endTurn (closureOf s) s1
  else endTurnIfStuck s newBoardState newAvailableDice s1.

(** [hitOpponentChecker]: the target holds exactly one checker, of the
    colour [getOpponentColor(currentPlayer)]. *)
Definition hitsBlot (player : Color) (target : list Color) : bool :=
  (Z.of_nat (length target) =? 1) && firstIs target (getOpponentColor player).

(** The board after the landing on point [toPoint]: a hit checker goes to
    the bar before the moving checker is added. *)
Definition landOn (player : Color) (toPoint : Z) (checkerToMove : Color)
    (target : list Color) (newBoardState : Board) : Board :=
  pushPoint (toPoint - 1) checkerToMove
    (if hitsBlot player target
     then addBar (getOpponentColor player) 1 (popPoint (toPoint - 1) newBoardState)
     else newBoardState).

(** The history entry of a move to a point. *)
Definition recordOf (player : Color) (fromPoint : Source) (toPoint : Z)
    (target : list Color) (diceToConsume : list Z) : MoveRecord :=
  mkRecord fromPoint toPoint player (hitsBlot player target)
    (if hitsBlot player target then Some (getOpponentColor player) else None)
    diceToConsume.

(** The branch of [performMove] for a move to a point, whose checkers
    (after the removal of the moving checker) are [target]. *)
Definition landChecker (s : Game) (fromPoint : Source) (toPoint : Z)
    (diceToConsume : list Z) (newBoardState : Board) (checkerToMove : Color)
    (target : list Color) : Game :=
  let newBoardState := landOn (currentPlayer s) toPoint checkerToMove target newBoardState in
  let newAvailableDice := consumeDice diceToConsume (availableDice s) in
  let s1 :=
    setPossibleMovesInfo [] (setAvailableDice newAvailableDice
      (setMoveHistory
         (moveHistory s ++ [recordOf (currentPlayer s) fromPoint toPoint target diceToConsume])
         (setGameMessage MsgMoveMade (setSelectedPoint None
            (setBoardState newBoardState s))))) in
  endTurnIfStuck s newBoardState newAvailableDice s1.

(** [performMove]; [None] for a [TypeError]. *)
Definition performMove (s : Game) (fromPoint : Source) (toPoint : Z)
    (diceToConsume : list Z) : option Game :=
  match takeSource s fromPoint with
  | None => None
  | Some (inl s') => Some s'
  | Some (inr (newBoardState, checkerToMove)) =>
      let isBearingOff := (toPoint =? 0) || (toPoint =? 25) in
      if isBearingOff
      then Some (bearOffChecker s fromPoint toPoint diceToConsume newBoardState)
      else
        match js_nth (points newBoardState) (toPoint - 1) with
        | None => None
        | Some target =>
            Some (landChecker s fromPoint toPoint diceToConsume newBoardState
                    checkerToMove target)
        end
  end.

(** [rollDiceHandler].  The [Dice] component calls the callback it was
    given when the roll button was pressed, after the rolling animation; the
    callback closes over [isPlaying], [currentPlayer] and [boardState] of
    that render, [seen], and its setters act on the current state [s]. *)
Definition rollDiceHandler (seen : Game) (die1 die2 : Z) (s : Game) : Game :=
  if negb (isPlaying seen) then s
  else
    let newAvailableDice :=
      if die1 =? die2 then [die1; die1; die1; die1] else [die1; die2] in
    let s1 :=
      setMoveHistory [] (setPossibleMovesInfo [] (setSelectedPoint None
        (setGameMessage (MsgRolled (currentPlayer seen) die1 die2)
           (setAvailableDice newAvailableDice s)))) in
    let initialPossibleMoves :=
      checkIfAnyPossibleMoves (boardState seen) (currentPlayer seen) newAvailableDice in
    if tally_pos (bar (boardState seen)) (currentPlayer seen) && negb initialPossibleMoves
    then scheduleEndTurn seen (setGameMessage (MsgBarNoMoves (currentPlayer seen)) s1)
    else if negb initialPossibleMoves
    then scheduleEndTurn seen (setGameMessage (MsgNoPossibleMoves (currentPlayer seen)) s1)
    else s1.

(** [Math.ceil(matchFormat / 2)] for an integer [matchFormat]. *)
Definition gamesToWin (matchFormat : Z) : Z := (matchFormat + 1) / 2.

Definition startMatch (s : Game) : Game :=
  setMoveHistory [] (setMustReenterFromBar false (setPossibleMovesInfo []
    (setSelectedPoint None (setBoardState initializeBoard (setCurrentPlayer "white"
      (setAvailableDice [] (setIsPlaying true
        (setGameMessage (MsgMatchStarted (gamesToWin (matchFormat s)))
          (setOpponentScore 0 (setPlayerScore 0 s)))))))))).

(** The truth value of [lastMove.hitCheckerColor]: [null] and the empty
    string are falsy. *)
Definition truthyColor (c : option Color) : option Color :=
  match c with
  | Some EmptyString => None
  | other => other
  end.

(** Step 1 of [undoLastMove], "move checker back": the early return with
    an error message (on the state [s0], whose history has lost its last
    entry), the new board, or [None] for a [TypeError]. *)
Definition undoMoveBack (lastMove : MoveRecord) (s0 : Game) : option (Game + Board) :=
  let newBoardState := boardState s0 in
  let isBearingOffMove := (toPoint lastMove =? 0) || (toPoint lastMove =? 25) in
  if isBearingOffMove then
    let newBoardState :=
      if toPoint lastMove =? 0 then addHome "white" (-1) newBoardState
      else addHome "black" (-1) newBoardState in
    match fromPoint lastMove with
    | Pt p =>
        match js_nth (points newBoardState) (p - 1) with
        | Some _ => Some (inr (pushPoint (p - 1) (checkerColor lastMove) newBoardState))
        | None => None
        end
    | Bar => None
    end
  else
    match js_nth (points newBoardState) (toPoint lastMove - 1) with
    | None => Some (inl (setGameMessage MsgErrorUndoing s0))
    | Some target =>
        match last target with
        | None => Some (inl (setGameMessage MsgErrorUndoing s0))
        | Some top =>
            if negb (String.eqb top (checkerColor lastMove))
            then Some (inl (setGameMessage MsgErrorUndoing s0))
            else
              let newBoardState := popPoint (toPoint lastMove - 1) newBoardState in
              match fromPoint lastMove with
              | Bar => Some (inr (addBar (checkerColor lastMove) 1 newBoardState))
              | Pt p =>
                  match js_nth (points newBoardState) (p - 1) with
                  | Some _ =>
                      Some (inr (pushPoint (p - 1) (checkerColor lastMove) newBoardState))
                  | None => None
                  end
              end
        end
    end.

(** Step 2, "if a blot was hit, move opponent's checker back from the
    bar". *)
Definition undoHit (lastMove : MoveRecord) (newBoardState : Board) : Board :=
  match (if hitOpponentChecker lastMove
         then truthyColor (hitCheckerColor lastMove) else None) with
  | Some hitColor =>
      let newBoardState := addBar hitColor (-1) newBoardState in
      if negb (toPoint lastMove =? 0) && negb (toPoint lastMove =? 25)
      then pushPoint (toPoint lastMove - 1) hitColor newBoardState
      else newBoardState
  | None => newBoardState
  end.

(** Step 3, "refund the dice", the clearing of the selection and the
    re-evaluation of the re-entry from the bar; [s] is the state the handler
    was created in and [s0] that state without the last history entry. *)
Definition undoFinish (s s0 : Game) (lastMove : MoveRecord) (newBoardState : Board)
    : Game :=
  let s1 :=
    setGameMessage MsgUndone (setPossibleMovesInfo [] (setSelectedPoint None
      (setAvailableDice (sortDesc (availableDice s ++ usedDice lastMove))
         (setBoardState newBoardState s0)))) in
  if tally_pos (bar newBoardState) (currentPlayer s) then
    let updatedAvailableDice := availableDice s ++ usedDice lastMove in
    let availableEntryMoves :=
      calculatePossibleMoves (mustReenterFromBar s) Bar updatedAvailableDice
        (currentPlayer s) newBoardState in
    setPossibleMovesInfo availableEntryMoves (setMustReenterFromBar true s1)
  else setMustReenterFromBar false s1.

(** [undoLastMove]; [None] for a [TypeError]. *)
Definition undoLastMove (s : Game) : option Game :=
  match last (moveHistory s) with
  | None => Some (setGameMessage MsgNoMovesToUndo s)
  | Some lastMove =>
      let newMoveHistory := removelast (moveHistory s) in
      let s0 := setMoveHistory newMoveHistory s in
      match undoMoveBack lastMove s0 with
      | None => None
      | Some (inl s') => Some s'
      | Some (inr newBoardState) =>
          Some (undoFinish s s0 lastMove (undoHit lastMove newBoardState))
      end
  end.

(** [possibleMovesInfo.find(move => move.targetPoint === pointNumber)] *)
Definition findTarget (pointNumber : Z) (moves : list MoveOption) : option MoveOption :=
  find (fun move => targetPoint move =? pointNumber) moves.

(** [handlePointClick]; [None] for a [TypeError]. *)
Definition handlePointClick (s : Game) (pointNumber : Z) : option Game :=
  if negb (isPlaying s) || (Z.of_nat (length (availableDice s)) =? 0) then
    Some (setGameMessage MsgPleaseRoll s)
  else if bool_decide (selectedPoint s = Some pointNumber) then
    Some (setGameMessage MsgDeselected (setPossibleMovesInfo [] (setSelectedPoint None s)))
  else
    let isClickOnBearOffArea := (pointNumber =? 0) || (pointNumber =? 25) in
    let targetMoveInfo := findTarget pointNumber (possibleMovesInfo s) in
    if mustReenterFromBar s then
      if isClickOnBearOffArea then Some (setGameMessage MsgReenterFirst s)
      else
        match targetMoveInfo with
        | Some move => performMove s Bar pointNumber (diceUsed move)
        | None => Some (setGameMessage MsgReenterClickHighlighted s)
        end
    else
      match selectedPoint s, targetMoveInfo with
      | Some selected, Some move => performMove s (Pt selected) pointNumber (diceUsed move)
      | _, _ =>
          if isClickOnBearOffArea then
            Some (setPossibleMovesInfo [] (setSelectedPoint None
                    (setGameMessage MsgCannotSelectBearOff s)))
          else
            match js_nth (points (boardState s)) (pointNumber - 1) with
            | None => None
            | Some pointCheckers =>
                if (0 <? Z.of_nat (length pointCheckers))
                   && firstIs pointCheckers (currentPlayer s) then
                  let calculatedMoves :=
                    calculatePossibleMoves (mustReenterFromBar s) (Pt pointNumber)
                      (availableDice s) (currentPlayer s) (boardState s) in
                  Some (setGameMessage (MsgSelected pointNumber)
                          (setPossibleMovesInfo calculatedMoves
                             (setSelectedPoint (Some pointNumber) s)))
                else
                  Some (setPossibleMovesInfo [] (setSelectedPoint None
                          (setGameMessage MsgNotYourChecker s)))
            end
      end.

(** ** The effects *)

(** The effect that manages [mustReenterFromBar]. *)
Definition effectBar (s : Game) : Game :=
  if isPlaying s && tally_pos (bar (boardState s)) (currentPlayer s) then
    let s1 := setGameMessage (MsgMustReenter (currentPlayer s))
                (setMustReenterFromBar true s) in
    if 0 <? Z.of_nat (length (availableDice s)) then
      setPossibleMovesInfo
        (calculatePossibleMoves (mustReenterFromBar s) Bar (availableDice s)
           (currentPlayer s) (boardState s)) s1
    else s1
  else
    let s1 := setMustReenterFromBar false s in
    match selectedPoint s with
    | None =>
        if 0 <? Z.of_nat (length (possibleMovesInfo s))
        then setPossibleMovesInfo [] s1 else s1
    | Some _ => s1
    end.

(** The effect that recomputes the moves of the selected point. *)
Definition effectMoves (s : Game) : Game :=
  match selectedPoint s with
  | Some selected =>
      if 0 <? Z.of_nat (length (availableDice s)) then
        setPossibleMovesInfo
          (calculatePossibleMoves (mustReenterFromBar s) (Pt selected)
             (availableDice s) (currentPlayer s) (boardState s)) s
      else s
  | None =>
      if (0 <? Z.of_nat (length (possibleMovesInfo s))) && negb (mustReenterFromBar s)
      then setPossibleMovesInfo [] s else s
  end.

(** The effect that ends the match; of [endMatch] only the state change is
    kept (the persistence calls belong to the collaborators). *)
Definition effectMatchEnd (s : Game) : Game :=
  if isPlaying s then
    if gamesToWin (matchFormat s) <=? playerScore s then setIsPlaying false s
    else if gamesToWin (matchFormat s) <=? opponentScore s then setIsPlaying false s
    else s
  else s.

(** ** Reachable states *)

(** A pending [endTurn] callback runs: the timer [i] fires. *)
Definition fireTimer (i : nat) (s : Game) : option Game :=
  match timers s !! i with
  | Some c => Some (endTurn c (setTimers (delete i (timers s)) s))
  | None => None
  end.

(** The match formats offered by the selector. *)
Definition matchFormats : list Z := [7; 9; 11; 13; 15].

(** The states the component can be in: from the mounted component, by the
    user's actions (start of a match, choice of the format, a roll with faces
    1 to 6, a click on a point or on a bear-off area, undo), by a pending
    [endTurn] timer, and by the effects.  The effects run after a render; they
    are allowed at any time here, and a roll may deliver to the callback of
    any earlier render, so every state of a run of the component is
    reachable in this sense.  The two buttons that force a game result for
    testing the match score are not part of the engine and are left out. *)
Inductive reachable : Game -> Prop :=
| reach_mount : reachable mountedGame
| reach_start s :
    reachable s -> isPlaying s = false -> reachable (startMatch s)
| reach_format s n :
    reachable s -> isPlaying s = false -> In n matchFormats ->
    reachable (setMatchFormat n s)
| reach_roll seen s die1 die2 :
    reachable seen -> reachable s ->
    1 <= die1 <= 6 -> 1 <= die2 <= 6 ->
    reachable (rollDiceHandler seen die1 die2 s)
| reach_click s pointNumber s' :
    reachable s -> 0 <= pointNumber <= 25 ->
    handlePointClick s pointNumber = Some s' -> reachable s'
| reach_undo s s' :
    reachable s -> undoLastMove s = Some s' -> reachable s'
| reach_timer s i s' :
    reachable s -> fireTimer i s = Some s' -> reachable s'
| reach_effect_bar s : reachable s -> reachable (effectBar s)
| reach_effect_moves s : reachable s -> reachable (effectMoves s)
| reach_effect_match_end s : reachable s -> reachable (effectMatchEnd s).

(** The number of checkers of a colour on the 24 points. *)
Definition onBoard (c : Color) (b : Board) : Z :=
  fold_right (fun cs acc => countColor cs c + acc) 0 (points b).

(** The checkers of a colour in play, on the bar and borne off. *)
Definition totalCheckers (c : Color) (b : Board) : option Z :=
  match tally_get (bar b) c, tally_get (home b) c with
  | Some onBar, Some borneOff => Some (onBoard c b + onBar + borneOff)
  | _, _ => None
  end.

(** A user action or a scheduled step, for writing down runs. *)
Inductive Event :=
| EvStartMatch
| EvSelectFormat (n : Z)
| EvRoll (die1 die2 : Z)
| EvClick (pointNumber : Z)
| EvUndo
| EvTimer (i : nat)
| EvEffectBar
| EvEffectMoves
| EvEffectMatchEnd.

Definition isFace (d : Z) : bool := (1 <=? d) && (d <=? 6).

(** One step of a run in which a roll is delivered to the callback of the
    current render; [None] when the action is not available or throws. *)
Definition step (e : Event) (s : Game) : option Game :=
  match e with
  | EvStartMatch => if isPlaying s then None else Some (startMatch s)
  | EvSelectFormat n =>
      if negb (isPlaying s) && includesZ matchFormats n
      then Some (setMatchFormat n s) else None
  | EvRoll die1 die2 =>
      if isFace die1 && isFace die2 then Some (rollDiceHandler s die1 die2 s) else None
  | EvClick p =>
      if (0 <=? p) && (p <=? 25) then handlePointClick s p else None
  | EvUndo => undoLastMove s
  | EvTimer i => fireTimer i s
  | EvEffectBar => Some (effectBar s)
  | EvEffectMoves => Some (effectMoves s)
  | EvEffectMatchEnd => Some (effectMatchEnd s)
  end.

Fixpoint run (es : list Event) (s : Game) : option Game :=
  match es with
  | [] => Some s
  | e :: es' =>
      match step e s with
      | Some s' => run es' s'
      | None => None
      end
  end.

(** A point that holds checkers of both players. *)
Definition mixedPoint (cs : list Color) : bool :=
  includes cs "white" && includes cs "black".

(** ** Predicates used in the statements *)

(** A die face. *)
Definition face (d : Z) : Prop := 1 <= d <= 6.

(** A board with its 24 points. *)
Definition wfBoard (b : Board) : Prop := length (points b) = 24%nat.

(** A move option to a point of the board that uses die faces. *)
Definition boardMove (m : MoveOption) : Prop :=
  1 <= targetPoint m <= 24 /\ Forall face (diceUsed m).

Definition boardSource (src : Source) : Prop :=
  match src with
  | Bar => True
  | Pt p => 1 <= p <= 24
  end.

(** A history entry of a move between the bar or a point and a point. *)
Definition boardRecord (r : MoveRecord) : Prop :=
  boardSource (fromPoint r) /\ 1 <= toPoint r <= 24 /\ Forall face (usedDice r).

(** The checkers of a colour that are on the points, on the bar or borne
    off, for the two keys of the tallies. *)
Definition whiteTotal (b : Board) : Z :=
  onBoard "white" b + white (bar b) + white (home b).
Definition blackTotal (b : Board) : Z :=
  onBoard "black" b + black (bar b) + black (home b).

(** The facts that hold in every reachable state. *)
Record Inv (s : Game) : Prop := mkInv {
  inv_wf : wfBoard (boardState s);
  inv_white : whiteTotal (boardState s) = 15;
  inv_black : blackTotal (boardState s) = 15;
  inv_dice : Forall face (availableDice s);
  inv_moves : Forall boardMove (possibleMovesInfo s);
  inv_history : Forall boardRecord (moveHistory s);
  inv_selected : forall p, selectedPoint s = Some p -> 1 <= p <= 24
}.

(** ** Positions and runs used in the examples *)

(** A run with the effects executed after every action, as React does after
    the render that follows it. *)
Definition withEffects (es : list Event) : list Event :=
  flat_map (fun e => [e; EvEffectBar; EvEffectMoves; EvEffectMatchEnd]) es.

(** White opens with a roll of 1 and 2 and plays 12 to 11 and 12 to 10; the
    timer set by the second move then ends the turn. *)
Definition whiteOpening : list Event :=
  [EvStartMatch; EvRoll 1 2; EvClick 12; EvClick 11; EvClick 12; EvClick 10;
   EvTimer 0].

(** Black answers with a roll of 3 and 5 and plays 7 to 10, where a single
    White checker stands. *)
Definition blackLandsOnBlot : list Event :=
  whiteOpening ++ [EvRoll 3 5; EvClick 7; EvClick 10].

(** Black plays the 5 from 13 to 18, the turn ends, White rolls 1 and 2 and
    selects point 10. *)
Definition whiteSelectsPoint10 : list Event :=
  blackLandsOnBlot ++ [EvClick 13; EvClick 18; EvTimer 0; EvRoll 1 2; EvClick 10].

(** White has borne off 14 checkers and has one checker left, on point 3;
    the Black checkers stand on point 12. *)
Definition loneCheckerOnThree : Board :=
  mkBoard (fillPoint 11 15 "black" (fillPoint 2 1 "white" emptyPoints))
          (mkTally 0 0) (mkTally 14 0).

(** The starting layout without the two Black checkers of point 13. *)
Definition startWithoutPoint13 : Board :=
  mkBoard (fillPoint 12 0 "black" (points initializeBoard))
          (bar initializeBoard) (home initializeBoard).

(** The state a finished run leads to (the mounted component when the run
    is not possible). *)
Definition stateAfter (es : list Event) : Game :=
  default mountedGame (run (withEffects es) mountedGame).

(** White opens with 18 to 17 and 18 to 16; Black rolls 4 and 1 and plays 7
    to 11 and 7 to 8; White rolls 1 and 2 and selects point 12.  A single
    Black checker stands on point 11, between point 12 and point 9. *)
Definition whiteFacesBlotOn11 : list Event :=
  [EvStartMatch; EvRoll 1 2; EvClick 18; EvClick 17; EvClick 18; EvClick 16;
   EvTimer 0;
   EvRoll 4 1; EvClick 7; EvClick 11; EvClick 7; EvClick 8; EvTimer 0;
   EvRoll 1 2; EvClick 12].

(** The state reached by [whiteFacesBlotOn11]. *)
Definition chainState : Game := stateAfter whiteFacesBlotOn11.

(** The clicks that [handlePointClick] answers with an advisory message
    and no move or selection: any click while no match is played or no dice
    are available; with checkers on the bar, a bear-off area or a point that
    is no target of a listed move; otherwise, when the click does not
    complete a listed move, a bear-off area or a point whose bottom checker
    is not the current player's. *)
Definition clickRejected (s : Game) (pointNumber : Z) : bool :=
  if negb (isPlaying s) || (Z.of_nat (length (availableDice s)) =? 0) then true
  else if bool_decide (selectedPoint s = Some pointNumber) then false
  else
    let isClickOnBearOffArea := (pointNumber =? 0) || (pointNumber =? 25) in
    let targetMoveInfo := findTarget pointNumber (possibleMovesInfo s) in
    if mustReenterFromBar s then
      isClickOnBearOffArea
      || match targetMoveInfo with Some _ => false | None => true end
    else
      match selectedPoint s, targetMoveInfo with
      | Some _, Some _ => false
      | _, _ =>
          isClickOnBearOffArea
          || negb ((0 <? Z.of_nat (length (checkersAt (boardState s) (pointNumber - 1))))
                   && firstIs (checkersAt (boardState s) (pointNumber - 1)) (currentPlayer s))
      end.

(** [setSelectedPoint(null); setPossibleMovesInfo([])] *)
Definition clearSelection (s : Game) : Game :=
  setPossibleMovesInfo [] (setSelectedPoint None s).

(** The rejected clicks that [handlePointClick] reads as the choice of a
    source: a match is played, dice are available, no re-entry from the bar
    is due, and the click is on a bear-off area or on a point whose bottom
    checker is not the current player's.  These are the two branches that
    call [setSelectedPoint(null)] and [setPossibleMovesInfo([])]. *)
Definition rejectedAsSource (s : Game) (pointNumber : Z) : bool :=
  negb (negb (isPlaying s) || (Z.of_nat (length (availableDice s)) =? 0))
  && negb (mustReenterFromBar s)
  && ((pointNumber =? 0) || (pointNumber =? 25)
      || negb ((0 <? Z.of_nat (length (checkersAt (boardState s) (pointNumber - 1))))
               && firstIs (checkersAt (boardState s) (pointNumber - 1)) (currentPlayer s))).

(** White has rolled 1 and 2 at the start of the match and has selected
    point 12. *)
Definition whiteSelects12 : list Event :=
  [EvStartMatch; EvRoll 1 2; EvClick 12].
Definition selected12State : Game := stateAfter whiteSelects12.

(** ** The existence check as the specification words it *)






(** The facts about a path used below, for the point [i + 1] and the die
    [d]: the point is on the path; when the die leads beyond the end of the
    path the point is no home point; otherwise the die leads to a point of
    the board other than [i + 1]. *)
Definition pathFact (isWhite : bool) (i d : Z) : bool :=
  let p := i + 1 in
  let idx := indexOf (pathOf isWhite) p in
  (0 <=? idx) && (idx <? 24)
  && (if pathLength isWhite <=? idx + d
      then indexOf (homePointsFor isWhite) p =? -1
      else match js_nth (pathOf isWhite) (idx + d) with
           | Some t => (1 <=? t) && (t <=? 24) && negb (t =? p)
           | None => false
           end).

Definition faces : list Z := [1; 2; 3; 4; 5; 6].

(** The result of the regular branch of [checkSingleStepLogic]. *)
Definition regularStep (player : Color) (targetPathIndex : Z) (b : Board) : StepResult :=
  match js_nth (pathOf (String.eqb player "white")) targetPathIndex with
  | Some t =>
      if (1 <=? t) && (t <=? 24) then
        if negb (isPointBlocked (t - 1) player b)
        then mkStep (Some t) true false
        else mkStep None false false
      else mkStep None false false
  | None => mkStep None false false
  end.

(** [t[c]] with 0 for a missing key, and the checkers of a colour on the
    points, on the bar and borne off. *)
Definition tallyOf (t : Tally) (c : Color) : Z := default 0 (tally_get t c).
Definition inPlay (c : Color) (b : Board) : Z :=
  onBoard c b + tallyOf (bar b) c + tallyOf (home b) c.

(** The two keys of the tallies. *)
Definition isKey (c : Color) : Prop := c = "white" \/ c = "black".

(** The two ways [performMove] takes the moving checker off the board. *)
Inductive Taken (s : Game) : Source -> Board -> Color -> Prop :=
| taken_bar :
    tally_pos (bar (boardState s)) (currentPlayer s) = true ->
    Taken s Bar (addBar (currentPlayer s) (-1) (boardState s)) (currentPlayer s)
| taken_point p src moved :
    js_nth (points (boardState s)) (p - 1) = Some src ->
    last src = Some moved ->
    firstIs src (currentPlayer s) = true ->
    Taken s (Pt p) (popPoint (p - 1) (boardState s)) moved.

(** Every die of [used] is found, one after the other, in [avail]: [used] is
    a sub-multiset of [avail]. *)
Fixpoint diceAvailable (used avail : list Z) : bool :=
  match used with
  | [] => true
  | d :: used' => (-1 <? indexOf avail d) && diceAvailable used' (spliceDie d avail)
  end.

(** ** Predicates on move options *)

(** The option is paid with dice of the roll: [diceUsed] is not empty and is
    a sub-multiset of [dice]. *)
Definition paidFrom (dice : list Z) (m : MoveOption) : Prop :=
  diceUsed m <> [] /\ submseteq (diceUsed m) dice.

(** The point [n] steps after point [p] on the path of a colour. *)
Definition pointAhead (isWhite : bool) (p n : Z) : option Z :=
  js_nth (pathOf isWhite) (indexOf (pathOf isWhite) p + n).

(** The board after one step of [findAllMoves] that lands on point [t]:
    nothing more happens for a bear-off, otherwise a single opposing checker is
    taken off and the player's checker is put on the point. *)
Definition landStep (playerColor : Color) (t : Z) (bearsOff : bool) (temp : Board) : Board :=
  if bearsOff then temp
  else pushPoint (t - 1) playerColor (simulateHit playerColor t temp).

(** Two boards hold the same checkers on every point that lies beyond index
    [idx] on the path of a colour. *)
Definition sameAhead (isWhite : bool) (idx : Z) (b1 b2 : Board) : Prop :=
  forall q, idx < indexOf (pathOf isWhite) q ->
    js_nth (points b1) (q - 1) = js_nth (points b2) (q - 1).

(** What holds of an option for a checker on point [p] of board [b]: its
    target is the point that lies the sum of its dice ahead of [p], and the
    player is not blocked there. *)
Definition landsAhead (player : Color) (p : Z) (b : Board) (m : MoveOption) : Prop :=
  pointAhead (String.eqb player "white") p (sumDice (diceUsed m)) = Some (targetPoint m)
  /\ isPointBlocked (targetPoint m - 1) player b = false.

(** The number of dice spent on the moves of the history. *)
Definition spentDice (h : list MoveRecord) : nat :=
  length (flat_map usedDice h).

(** What play leaves as it is at the start of a match: no checker is borne
    off, no game is won, no pending [endTurn] has seen a checker borne off,
    the format is one of the selector, the options shown are paid from the
    available dice, and the dice available and spent are at most four. *)
Record Steady (s : Game) : Prop := mkSteady {
  st_home : home (boardState s) = mkTally 0 0;
  st_player : playerScore s = 0;
  st_opponent : opponentScore s = 0;
  st_timers : Forall (fun c => seenHome c = mkTally 0 0) (timers s);
  st_format : In (matchFormat s) matchFormats;
  st_paid : Forall (paidFrom (availableDice s)) (possibleMovesInfo s);
  st_dice : (length (availableDice s) + spentDice (moveHistory s) <= 4)%nat
}.

(** ** More positions used in the examples *)

(** White has played 12 to 11 with the 1 of a roll of 1 and 2 and has
    selected point 12 again: one die, the 2, is left. *)
Definition whiteHasOneDieLeft : list Event :=
  [EvStartMatch; EvRoll 1 2; EvClick 12; EvClick 11; EvClick 12].
Definition oneDieLeftState : Game := stateAfter whiteHasOneDieLeft.

(** White has a checker on the bar and Black holds the six points on which
    White enters; it is White's turn in a match that was just started. *)
Definition shutOutBoard : Board :=
  mkBoard
    (fillPoint 12 14 "white" (fillPoint 6 2 "black"
       (fillPoint 5 2 "black" (fillPoint 4 2 "black" (fillPoint 3 2 "black"
       (fillPoint 2 2 "black" (fillPoint 1 2 "black" (fillPoint 0 3 "black"
          emptyPoints))))))))
    (mkTally 1 0) (mkTally 0 0).
Definition shutOutState : Game := setBoardState shutOutBoard (startMatch mountedGame).

(** The player whose turn comes next. *)
Definition nextPlayer (c : Color) : Color :=
  if String.eqb c "white" then "black" else "white".

(** A point that holds checkers of one player only, and a board of such
    points. *)
Definition plainPoint (cs : list Color) : Prop :=
  Forall (eq "white") cs \/ Forall (eq "black") cs.
Definition plainBoard (b : Board) : Prop := Forall plainPoint (points b).

(** ** The buttons that simulate the end of a game *)

(** [newBoardState.home.white = 15] (or [.black]) on a copy of the board. *)
Definition forceHome (isWhite : bool) (b : Board) : Board :=
  mkBoard (points b) (bar b)
    (if isWhite then mkTally 15 (black (home b)) else mkTally (white (home b)) 15).

(** The action that the button "Simulate White Win Game" (or Black) hands to
    the confirmation dialog, run when the user confirms.  The button was
    pressed in the render of state [seen]: the action stores the board of that
    render with the home count forced to 15 and calls the [endTurn] of that
    render; its setters act on the current state [s]. *)
Definition simulateWin (isWhite : bool) (seen s : Game) : Game :=
  endTurn (closureOf seen) (setBoardState (forceHome isWhite (boardState seen)) s).

(** ** The colours in play *)

(** A history entry as [performMove] writes it on a board of White and Black
    checkers: the mover is White or Black, only Black moves from the bar, and
    the checker hit, if any, is Black. *)
Definition plainRecord (r : MoveRecord) : Prop :=
  isKey (checkerColor r)
  /\ (fromPoint r = Bar -> checkerColor r = "black")
  /\ hitCheckerColor r = (if hitOpponentChecker r then Some "black" else None).

(** The colours of a state: the current player and every checker on the
    points are White or Black, no White checker is on the bar, and the history
    holds plain entries. *)
Record Colours (s : Game) : Prop := mkColours {
  col_player : isKey (currentPlayer s);
  col_points : Forall (Forall isKey) (points (boardState s));
  col_bar : white (bar (boardState s)) = 0;
  col_history : Forall plainRecord (moveHistory s)
}.

(** ** Positions with a checker on the bar and with pending timers *)

(** From [chainState] White plays 12 to 11, where the single Black checker
    goes to the bar, and 12 to 10; the turn ends and Black rolls 3 and 5. *)
Definition whiteHitsBlotOn11 : list Event :=
  whiteFacesBlotOn11 ++ [EvClick 11; EvClick 12; EvClick 10; EvTimer 0; EvRoll 3 5].
Definition blackOnBarState : Game := stateAfter whiteHitsBlotOn11.

(** Black has entered on point 21 with the 3, and the state after the undo
    of that entry. *)
Definition blackHasEntered : list Event := whiteHitsBlotOn11 ++ [EvClick 21].
Definition enteredState : Game := stateAfter blackHasEntered.
Definition undoneEntryState : Game := default mountedGame (undoLastMove enteredState).

(** White plays both dice of the opening roll, undoes the second move and
    plays it again before a timer has fired: two [endTurn] are pending. *)
Definition whiteMovesUndoesAndMovesAgain : list Event :=
  [EvStartMatch; EvRoll 1 2; EvClick 12; EvClick 11; EvClick 12; EvClick 10;
   EvUndo; EvClick 12; EvClick 10].
Definition twoTimersState : Game := stateAfter whiteMovesUndoesAndMovesAgain.

(** From point 10, which holds a White checker below a Black one, White has
    played the 1 to point 9: the checker that moved is the Black one. *)
Definition mixedMove : list Event := whiteSelectsPoint10 ++ [EvClick 9].
Definition mixedMoveState : Game := stateAfter mixedMove.

(** ** Basic facts about arrays and boards *)

Lemma js_nth_Some_range {A} (l : list A) i x :
  js_nth l i = Some x -> 0 <= i < Z.of_nat (length l).
Proof.
  unfold js_nth. destruct (Z.ltb_spec i 0); [discriminate|].
  intros H1. apply lookup_lt_Some in H1. lia.
Qed.

Lemma js_nth_in_range {A} (l : list A) i :
  0 <= i < Z.of_nat (length l) -> exists x, js_nth l i = Some x.
Proof.
  intros Hi. unfold js_nth. destruct (Z.ltb_spec i 0); [lia|].
  destruct (lookup_lt_is_Some_2 l (Z.to_nat i)) as [x Hx]; [lia|]. eauto.
Qed.

Lemma js_nth_alter_eq {A} (f : A -> A) i l x :
  js_nth l i = Some x -> js_nth (js_alter f i l) i = Some (f x).
Proof.
  unfold js_nth, js_alter. destruct (i <? 0); [discriminate|].
  intros H. rewrite list_lookup_alter_eq, H. reflexivity.
Qed.

Lemma js_nth_alter_ne {A} (f : A -> A) i j l :
  i <> j -> js_nth (js_alter f i l) j = js_nth l j.
Proof.
  unfold js_nth, js_alter. intros Hne.
  destruct (Z.ltb_spec i 0); [reflexivity|].
  destruct (Z.ltb_spec j 0); [reflexivity|].
  apply list_lookup_alter_ne. lia.
Qed.

Lemma js_alter_length {A} (f : A -> A) i l :
  length (js_alter f i l) = length l.
Proof. unfold js_alter. destruct (i <? 0); [reflexivity|]. apply length_alter. Qed.

Lemma countColor_app cs1 cs2 c :
  countColor (cs1 ++ cs2) c = countColor cs1 c + countColor cs2 c.
Proof. unfold countColor. rewrite List.filter_app, length_app. lia. Qed.

Lemma countColor_single x c :
  countColor [x] c = if String.eqb x c then 1 else 0.
Proof. unfold countColor. simpl. destruct (String.eqb x c); reflexivity. Qed.

Lemma countColor_push x cs c :
  countColor (push x cs) c = countColor cs c + (if String.eqb x c then 1 else 0).
Proof. unfold push. rewrite countColor_app, countColor_single. reflexivity. Qed.

Lemma last_pop cs x : last cs = Some x -> cs = pop cs ++ [x].
Proof.
  intros H. apply last_Some in H as [l' ->]. unfold pop.
  rewrite removelast_last. reflexivity.
Qed.

Lemma countColor_pop x cs c :
  last cs = Some x ->
  countColor (pop cs) c = countColor cs c - (if String.eqb x c then 1 else 0).
Proof.
  intros H. rewrite (last_pop cs x H) at 2.
  rewrite countColor_app, countColor_single. lia.
Qed.

Lemma onBoard_alter c f i b cs :
  js_nth (points b) i = Some cs ->
  fold_right (fun cs acc => countColor cs c + acc) 0 (js_alter f i (points b))
  = onBoard c b - countColor cs c + countColor (f cs) c.
Proof.
  unfold onBoard, js_nth, js_alter. destruct (i <? 0); [discriminate|].
  generalize (Z.to_nat i) as n. generalize (points b) as pts.
  induction pts as [|p pts IH]; intros [|n] H; try discriminate.
  - injection H as ->. cbn. lia.
  - cbn in H. cbn. rewrite (IH n H). lia.
Qed.

Lemma onBoard_popPoint c i b cs x :
  js_nth (points b) i = Some cs -> last cs = Some x ->
  onBoard c (popPoint i b) = onBoard c b - (if String.eqb x c then 1 else 0).
Proof.
  intros Hn Hl. unfold popPoint, onBoard at 1. simpl.
  rewrite (onBoard_alter c pop i b cs Hn), (countColor_pop x cs c Hl). lia.
Qed.

Lemma onBoard_pushPoint c i b cs x :
  js_nth (points b) i = Some cs ->
  onBoard c (pushPoint i x b) = onBoard c b + (if String.eqb x c then 1 else 0).
Proof.
  intros Hn. unfold pushPoint, onBoard at 1. simpl.
  rewrite (onBoard_alter c (push x) i b cs Hn), countColor_push. lia.
Qed.


Lemma firstIs_length cs c : firstIs cs c = true -> (Z.of_nat (length cs) =? 0) = false.
Proof. destruct cs; simpl; [discriminate|]. intros _. reflexivity. Qed.

Lemma firstIs_single cs c :
  Z.of_nat (length cs) = 1 -> firstIs cs c = true -> cs = [c].
Proof.
  destruct cs as [|x [|y cs]]; simpl; try lia; try discriminate.
  intros _ H. apply String.eqb_eq in H. subst. reflexivity.
Qed.

Lemma wfBoard_popPoint i b : wfBoard b -> wfBoard (popPoint i b).
Proof. unfold wfBoard, popPoint. cbn [points]. rewrite js_alter_length. auto. Qed.

Lemma wfBoard_pushPoint i x b : wfBoard b -> wfBoard (pushPoint i x b).
Proof. unfold wfBoard, pushPoint. cbn [points]. rewrite js_alter_length. auto. Qed.

Lemma wfBoard_addBar k d b : wfBoard b -> wfBoard (addBar k d b).
Proof. auto. Qed.

Create HintDb board.
#[local] Hint Resolve wfBoard_popPoint wfBoard_pushPoint wfBoard_addBar : board.

Lemma wfBoard_point b t : wfBoard b -> 1 <= t <= 24 ->
  exists cs, js_nth (points b) (t - 1) = Some cs.
Proof. intros Hwf Ht. apply js_nth_in_range. rewrite Hwf. lia. Qed.

Lemma initializeBoard_wf : wfBoard initializeBoard.
Proof. reflexivity. Qed.

(** ** Lists and dice arrays *)



Lemma flat_map_ext_in {A B} (f g : A -> list B) l :
  (forall x, In x l -> f x = g x) -> flat_map f l = flat_map g l.
Proof.
  induction l as [|x l IH]; simpl; intros H; [reflexivity|].
  rewrite (H x) by auto. rewrite IH by auto. reflexivity.
Qed.

Lemma Forall_flat_map_intro {A B} (P : B -> Prop) (f : A -> list B) l :
  (forall x, In x l -> Forall P (f x)) -> Forall P (flat_map f l).
Proof.
  induction l as [|x l IH]; simpl; intros H; [constructor|].
  apply Forall_app. split; [apply H; auto|apply IH; auto].
Qed.




Lemma Forall_removelast {A} (P : A -> Prop) l : Forall P l -> Forall P (removelast l).
Proof.
  induction 1 as [|x l Hx Hl IH]; simpl; [constructor|].
  destruct l; [constructor|]. constructor; auto.
Qed.

Lemma Forall_last {A} (P : A -> Prop) l x : Forall P l -> last l = Some x -> P x.
Proof.
  intros H Hl. apply last_Some in Hl as [l' ->].
  apply Forall_app in H as [_ H]. inversion H; auto.
Qed.



Lemma In_insertAsc x y l : In y (insertAsc x l) <-> y = x \/ In y l.
Proof.
  induction l as [|z l IH]; simpl; [intuition|].
  destruct (x <=? z); simpl; [intuition|]. rewrite IH. intuition.
Qed.

Lemma In_sortAsc y l : In y (sortAsc l) <-> In y l.
Proof.
  induction l as [|x l IH]; simpl; [reflexivity|].
  rewrite In_insertAsc, IH. intuition.
Qed.

Lemma In_insertDesc x y l : In y (insertDesc x l) <-> y = x \/ In y l.
Proof.
  induction l as [|z l IH]; simpl; [intuition|].
  destruct (z <=? x); simpl; [intuition|]. rewrite IH. intuition.
Qed.

Lemma In_sortDesc y l : In y (sortDesc l) <-> In y l.
Proof.
  induction l as [|x l IH]; simpl; [reflexivity|].
  rewrite In_insertDesc, IH. intuition.
Qed.

Lemma Forall_sortAsc (P : Z -> Prop) l : Forall P l -> Forall P (sortAsc l).
Proof.
  rewrite !List.Forall_forall. intros H x Hx. apply H, In_sortAsc, Hx.
Qed.

Lemma Forall_sortDesc (P : Z -> Prop) l : Forall P l -> Forall P (sortDesc l).
Proof.
  rewrite !List.Forall_forall. intros H x Hx. apply H, In_sortDesc, Hx.
Qed.

Lemma length_insertAsc x l : length (insertAsc x l) = S (length l).
Proof.
  induction l as [|y l IH]; simpl; [reflexivity|].
  destruct (x <=? y); simpl; [reflexivity|]. rewrite IH. reflexivity.
Qed.

Lemma length_sortAsc l : length (sortAsc l) = length l.
Proof.
  induction l as [|x l IH]; simpl; [reflexivity|].
  rewrite length_insertAsc, IH. reflexivity.
Qed.

Lemma In_delete {A} (x : A) n l : In x (delete n l) -> In x l.
Proof.
  revert n. induction l as [|y l IH]; intros [|n]; simpl; auto.
  intros [->|H]; eauto.
Qed.

Lemma Forall_delete_nat {A} (P : A -> Prop) n l :
  Forall P l -> Forall P (delete n l).
Proof.
  rewrite !List.Forall_forall. intros H x Hx. eapply H, In_delete, Hx.
Qed.

Lemma Forall_spliceDie (P : Z -> Prop) die l :
  Forall P l -> Forall P (spliceDie die l).
Proof.
  intros H. unfold spliceDie. destruct (-1 <? indexOf l die); [|exact H].
  apply Forall_delete_nat, H.
Qed.

Lemma Forall_consumeDice (P : Z -> Prop) used l :
  Forall P l -> Forall P (consumeDice used l).
Proof.
  unfold consumeDice. revert l.
  induction used as [|d used IH]; simpl; intros l H; [exact H|].
  apply IH, Forall_spliceDie, H.
Qed.

Lemma indexFrom_range k l x :
  indexFrom k l x = -1 \/ k <= indexFrom k l x < k + Z.of_nat (length l).
Proof.
  revert k. induction l as [|y l IH]; intros k; simpl; [auto|].
  destruct (y =? x); [right; lia|].
  destruct (IH (k + 1)) as [H|H]; [auto|right; lia].
Qed.

Lemma indexOf_range l x : -1 <= indexOf l x < Z.of_nat (length l).
Proof. unfold indexOf. destruct (indexFrom_range 0 l x); lia. Qed.

Lemma indexFrom_In k l x : 0 <= k -> In x l -> -1 < indexFrom k l x.
Proof.
  revert k. induction l as [|y l IH]; intros k Hk; simpl; [tauto|].
  intros H. destruct (Z.eqb_spec y x); [lia|].
  destruct H as [H|H]; [contradiction|]. apply IH; [lia|exact H].
Qed.

Lemma indexOf_In l x : In x l -> -1 < indexOf l x.
Proof. apply indexFrom_In. lia. Qed.

Lemma indexFrom_found k l x : indexFrom k l x <> -1 -> In x l.
Proof.
  revert k. induction l as [|y l IH]; intros k; simpl; [tauto|].
  destruct (Z.eqb_spec y x); [auto|]. intros H. right. eapply IH, H.
Qed.

Lemma indexOf_found l x : indexOf l x <> -1 -> In x l.
Proof. apply indexFrom_found. Qed.

Lemma length_delete_found (l : list Z) d :
  -1 < indexOf l d -> length (delete (Z.to_nat (indexOf l d)) l) = (length l - 1)%nat.
Proof.
  intros H. apply length_delete, lookup_lt_is_Some.
  pose proof (indexOf_range l d). lia.
Qed.

(** ** The opponent colour and the blocking test *)

(** C4: the opponent lookup sends ['white'] to ['black'], but it sends
    ['black'] (as every other input) to the literal ['opponent'] and not to
    ['white']. *)
Theorem getOpponentColor_black_is_placeholder :
  getOpponentColor "white" = "black" /\
  getOpponentColor "black" = "opponent" /\
  getOpponentColor "black" <> "white".
Proof. repeat split; try reflexivity. discriminate. Qed.

(** For White the test is the one of the rule as long as the point holds
    one colour: blocked exactly when the bottom checker is Black and the
    point holds two checkers or more. *)
Lemma isPointBlocked_white i b :
  isPointBlocked i "white" b = true <->
  exists cs, js_nth (points b) i = Some cs /\ firstIs cs "black" = true
             /\ (2 <= length cs)%nat.
Proof.
  unfold isPointBlocked. destruct (js_nth (points b) i) as [cs|]; simpl.
  - destruct (Z.eqb_spec (Z.of_nat (length cs)) 0) as [H0|H0].
    + split; [discriminate|]. intros (cs' & [= <-] & _ & Hl). lia.
    + rewrite andb_true_iff, Z.leb_le. split.
      * intros [H1 H2]. exists cs. repeat split; auto. lia.
      * intros (cs' & [= <-] & H1 & H2). split; auto. lia.
  - split; [discriminate|]. intros (cs & H & _). discriminate.
Qed.

(** For Black the opposing colour is the placeholder, which no checker
    carries: a point whose checkers are White or Black is never blocked. *)
Lemma isPointBlocked_black_false i b :
  (forall cs, js_nth (points b) i = Some cs -> firstIs cs "opponent" = false) ->
  isPointBlocked i "black" b = false.
Proof.
  intros H. unfold isPointBlocked.
  destruct (js_nth (points b) i) as [cs|]; [|reflexivity].
  change (getOpponentColor "black") with "opponent".
  rewrite (H cs eq_refl). destruct (_ =? 0); reflexivity.
Qed.

(** C3: on the starting layout point 18 (index 17) holds five White
    checkers, yet [isPointBlocked] answers false for Black; for White the
    two Black checkers of point 13 do block. *)
Theorem isPointBlocked_misses_black :
  countColor (checkersAt initializeBoard 17) "white" = 5 /\
  isPointBlocked 17 "black" initializeBoard = false /\
  isPointBlocked 12 "white" initializeBoard = true.
Proof. repeat split; vm_compute; reflexivity. Qed.

Lemma isPointBlocked_popPoint_other i j c b :
  i <> j -> isPointBlocked i c (popPoint j b) = isPointBlocked i c b.
Proof.
  intros H. unfold isPointBlocked, popPoint. cbn [points].
  rewrite js_nth_alter_ne by auto. reflexivity.
Qed.

Lemma isPointBlocked_simulateHit c t b :
  isPointBlocked (t - 1) c b = false ->
  isPointBlocked (t - 1) c (simulateHit c t b) = false.
Proof.
  intros H. unfold simulateHit.
  destruct ((Z.of_nat (length (checkersAt b (t - 1))) =? 1)
            && firstIs (checkersAt b (t - 1)) (getOpponentColor c)) eqn:Hhit;
    [|exact H].
  apply andb_true_iff in Hhit as [Hlen _]. apply Z.eqb_eq in Hlen.
  unfold isPointBlocked, addBar, popPoint. cbn [points].
  unfold checkersAt in Hlen.
  destruct (js_nth (points b) (t - 1)) as [cs|] eqn:Hcs; [|simpl in Hlen; lia].
  rewrite (js_nth_alter_eq pop _ _ cs Hcs).
  cbn [default from_option id] in Hlen.
  destruct cs as [|x [|y cs]]; simpl in Hlen; try lia. reflexivity.
Qed.

(** ** The paths and the home points *)

Lemma face_In d : face d -> In d faces.
Proof.
  unfold face, faces. intros H.
  assert (d = 1 \/ d = 2 \/ d = 3 \/ d = 4 \/ d = 5 \/ d = 6) as Hd by lia.
  simpl. intuition.
Qed.

Lemma pathFact_all :
  forallb (fun w => forallb (fun i => forallb (pathFact w i) faces) boardIndices)
          [true; false] = true.
Proof. vm_compute. reflexivity. Qed.

Lemma pathFact_holds w i d :
  In i boardIndices -> face d -> pathFact w i d = true.
Proof.
  intros Hi Hd.
  assert (Hw : In w [true; false]) by (destruct w; simpl; auto).
  pose proof (proj1 (forallb_forall
                (fun w => forallb (fun i => forallb (pathFact w i) faces) boardIndices)
                [true; false]) pathFact_all w Hw) as H1.
  pose proof (proj1 (forallb_forall (fun i => forallb (pathFact w i) faces)
                boardIndices) H1 i Hi) as H2.
  exact (proj1 (forallb_forall (pathFact w i) faces) H2 d (face_In d Hd)).
Qed.

Lemma boardIndices_range i : In i boardIndices <-> 0 <= i < 24.
Proof.
  unfold boardIndices. rewrite in_map_iff. split.
  - intros (n & <- & Hn). apply in_seq in Hn. lia.
  - intros H. exists (Z.to_nat i). split; [lia|]. apply in_seq. lia.
Qed.

Lemma homePoint_index w p :
  In p (homePointsFor w) -> 6 <= indexOf (pathOf w) p <= 11.
Proof.
  destruct w; cbn [homePointsFor In]; intros H;
    repeat (destruct H as [<-|H]; [vm_compute; split; discriminate|]);
    destruct H.
Qed.

Lemma noCheckersFurtherAway_home w p c b :
  noCheckersFurtherAway w p c b = true -> In p (homePointsFor w).
Proof.
  unfold noCheckersFurtherAway.
  destruct (Z.eqb_spec (indexOf (homePointsFor w) p) (-1)) as [E|E];
    cbn [negb]; [discriminate|].
  intros _. apply indexOf_found, E.
Qed.

Lemma pathLength_24 w : pathLength w = 24.
Proof. destruct w; reflexivity. Qed.

(** With a die face, a checker on a home point never reaches the end of its
    path: the branch of the source that bears off is not taken. *)
Lemma bearOff_unreachable w p d :
  In p (homePointsFor w) -> face d ->
  (pathLength w <=? indexOf (pathOf w) p + d) = false.
Proof.
  intros Hp Hd. apply homePoint_index in Hp. rewrite pathLength_24.
  unfold face in Hd. apply Z.leb_gt. lia.
Qed.

(** ** The move generator *)

(** The recursion of [findAllMoves] uses one die per level, so its depth is
    at most the number of dice: with that much fuel or more the result does
    not depend on the fuel. *)
Lemma findAllMoves_fuel player n :
  forall m from idx dice b pathDice,
    (length dice <= n)%nat -> (length dice <= m)%nat ->
    findAllMoves n player from idx dice b pathDice
    = findAllMoves m player from idx dice b pathDice.
Proof.
  induction n as [|n IH]; intros [|m] from idx dice b pathDice Hn Hm;
    cbn [findAllMoves]; try reflexivity.
  - destruct dice; [reflexivity|simpl in Hn; lia].
  - destruct dice; [reflexivity|simpl in Hm; lia].
  - destruct (Z.of_nat (length dice) =? 0); [reflexivity|].
    apply flat_map_ext_in. intros d Hd.
    destruct (Z.ltb_spec (-1) (indexOf (sortAsc dice) d)) as [Hidx|]; [|reflexivity].
    destruct (takeChecker player from b); [|reflexivity].
    destruct (isValid _); [|reflexivity].
    destruct (targetGamePoint _); [|reflexivity].
    match goal with
    | |- match ?x with _ => _ end = _ => destruct x; [|reflexivity]
    end.
    f_equal.
    destruct (_ && _); [|reflexivity].
    pose proof (length_delete_found (sortAsc dice) d Hidx) as Hlen.
    rewrite length_sortAsc in Hlen.
    apply IH; lia.
Qed.

Lemma findAllMoves_enough_fuel player n from idx dice b pathDice :
  (length dice <= n)%nat ->
  findAllMoves n player from idx dice b pathDice
  = findAllMoves (length dice) player from idx dice b pathDice.
Proof. intros H. apply findAllMoves_fuel; [exact H|lia]. Qed.

Lemma checkSingleStepLogic_face player p d b :
  face d ->
  let w := String.eqb player "white" in
  let idx := indexOf (pathOf w) p in
  checkSingleStepLogic player (Pt p) idx d b false
  = if pathLength w <=? idx + d then mkStep None false true
    else regularStep player (idx + d) b.
Proof.
  intros Hd w idx. unfold checkSingleStepLogic. cbn [andb]. fold w. fold idx.
  destruct (pathLength w <=? idx + d) eqn:Hlen; [|reflexivity].
  destruct (areAllCheckersInHomeBoard player b); [|reflexivity].
  destruct (noCheckersFurtherAway w p player b) eqn:Hn; [|reflexivity].
  apply noCheckersFurtherAway_home in Hn. unfold idx in Hlen.
  rewrite (bearOff_unreachable w p d Hn Hd) in Hlen. discriminate.
Qed.

(** A valid step that does not start on the bar lands on a point of the
    board, and is no bear-off, when the index passed is the one of the
    starting point. *)
Lemma checkSingleStepLogic_valid player from idx d b :
  face d ->
  (forall p, from = Pt p -> idx = indexOf (pathOf (String.eqb player "white")) p) ->
  isValid (checkSingleStepLogic player from idx d b false) = true ->
  exists t,
    checkSingleStepLogic player from idx d b false = mkStep (Some t) true false
    /\ 1 <= t <= 24.
Proof.
  intros Hd Hidx. unfold checkSingleStepLogic. cbn [andb].
  set (w := String.eqb player "white") in *.
  destruct (pathLength w <=? idx + d) eqn:Hlen.
  - destruct (areAllCheckersInHomeBoard player b); [|discriminate].
    destruct from as [|p]; [discriminate|].
    destruct (noCheckersFurtherAway w p player b) eqn:Hn; [|discriminate].
    apply noCheckersFurtherAway_home in Hn.
    rewrite (Hidx p eq_refl), (bearOff_unreachable w p d Hn Hd) in Hlen.
    discriminate.
  - destruct (js_nth (pathOf w) (idx + d)) as [t|]; [|discriminate].
    destruct ((1 <=? t) && (t <=? 24)) eqn:Hr; [|discriminate].
    destruct (negb (isPointBlocked (t - 1) player b)); [|discriminate].
    intros _. exists t. split; [reflexivity|].
    apply andb_true_iff in Hr as [H1 H2]. apply Z.leb_le in H1, H2. lia.
Qed.

Lemma findAllMoves_boardMove player fuel :
  forall from idx dice b pathDice,
    Forall face dice -> Forall face pathDice ->
    (forall p, from = Pt p -> idx = indexOf (pathOf (String.eqb player "white")) p) ->
    Forall boardMove (findAllMoves fuel player from idx dice b pathDice).
Proof.
  induction fuel as [|fuel IH]; intros from idx dice b pathDice Hdice Hpath Hidx;
    cbn [findAllMoves]; [constructor|].
  destruct (Z.of_nat (length dice) =? 0); [constructor|].
  apply Forall_flat_map_intro. intros d Hd.
  assert (Hface : face d).
  { rewrite List.Forall_forall in Hdice. apply Hdice, In_sortAsc, Hd. }
  destruct (-1 <? indexOf (sortAsc dice) d); [|constructor].
  destruct (takeChecker player from b) as [temp|]; [|constructor].
  destruct (isValid (checkSingleStepLogic player from idx d temp false)) eqn:Hv;
    [|constructor].
  destruct (checkSingleStepLogic_valid player from idx d temp Hface Hidx Hv)
    as (t & -> & Ht).
  cbn [targetGamePoint isBearingOff negb].
  destruct (isPointBlocked (t - 1) player (simulateHit player t temp));
    [constructor|].
  assert (Hpd : Forall face (sortAsc (pathDice ++ [d]))).
  { apply Forall_sortAsc, Forall_app. split; [exact Hpath|].
    constructor; [exact Hface|constructor]. }
  constructor.
  - split; [exact Ht|exact Hpd].
  - destruct (negb (indexOf (pathOf (String.eqb player "white")) t =? -1)
              && (0 <? Z.of_nat (length (delete (Z.to_nat (indexOf (sortAsc dice) d))
                                           (sortAsc dice)))));
      [|constructor].
    apply IH; auto.
    + apply Forall_delete_nat, Forall_sortAsc, Hdice.
    + intros p [= <-]. reflexivity.
Qed.

Lemma Forall_mapSet (Q : Z * MoveOption -> Prop) key v m :
  Forall Q m -> Q (key, v) -> Forall Q (mapSet key v m).
Proof.
  intros Hm Hq. induction Hm as [|[k v0] m Hx Hm IH]; simpl.
  - repeat constructor. exact Hq.
  - destruct (Z.eqb_spec k key) as [->|]; constructor; auto.
Qed.

Lemma uniqueMoves_Forall (P : MoveOption -> Prop) l :
  (forall m, P m -> P (mkMove (targetPoint m) (sortAsc (diceUsed m)))) ->
  Forall P l -> Forall P (uniqueMoves l).
Proof.
  intros Hnorm Hl. unfold uniqueMoves.
  assert (H : forall m, Forall (fun kv => P (snd kv)) m ->
                        Forall (fun kv => P (snd kv)) (fold_left uniqueStep l m)).
  { induction Hl as [|mv l Hmv Hl IH]; simpl; intros m Hm; [exact Hm|].
    apply IH. unfold uniqueStep. cbn [targetPoint diceUsed].
    assert (Hset : Forall (fun kv => P (snd kv))
                     (mapSet (targetPoint mv)
                        (mkMove (targetPoint mv) (sortAsc (diceUsed mv))) m)).
    { apply Forall_mapSet; [exact Hm|]. cbn [snd]. apply Hnorm, Hmv. }
    destruct (mapGet (targetPoint mv) m); [|exact Hset].
    repeat match goal with
           | |- context [if ?c then _ else _] => destruct c
           end; auto. }
  specialize (H [] ltac:(constructor)).
  rewrite List.Forall_forall in *. intros m Hm.
  apply in_map_iff in Hm as (kv & <- & Hkv). apply H, Hkv.
Qed.

Lemma boardMove_sorted m :
  boardMove m -> boardMove (mkMove (targetPoint m) (sortAsc (diceUsed m))).
Proof. intros [H1 H2]. split; [exact H1|apply Forall_sortAsc, H2]. Qed.

(** With die faces [calculatePossibleMoves] returns moves to the points 1
    to 24 only: no bear-off is ever offered. *)
Lemma calculatePossibleMoves_boardMove flag src dice player b :
  Forall face dice ->
  Forall boardMove (calculatePossibleMoves flag src dice player b).
Proof.
  intros Hdice. unfold calculatePossibleMoves.
  destruct (flag && isBar src).
  - apply Forall_flat_map_intro. intros die Hdie.
    unfold checkSingleStepLogic. cbn [andb isBar targetGamePoint isValid].
    destruct (entryOpen _ player b) eqn:Ho; [|constructor].
    constructor; [|constructor]. split; [|constructor; [|constructor]].
    + unfold entryOpen in Ho. cbn [targetPoint].
      apply andb_true_iff in Ho as [Ho _]. apply andb_true_iff in Ho as [H1 H2].
      apply Z.leb_le in H1. apply Z.ltb_lt in H2. lia.
    + rewrite List.Forall_forall in Hdice. apply Hdice, Hdie.
  - destruct src as [|p]; [constructor|].
    destruct (js_nth (points b) (p - 1)); [|constructor].
    destruct (negb (firstIs l player)); [constructor|].
    destruct (_ =? -1); [constructor|].
    apply uniqueMoves_Forall; [exact boardMove_sorted|].
    apply findAllMoves_boardMove; auto. intros p0 [= <-]. reflexivity.
Qed.

(** The starting layout, and the options of White's point 12 with a roll
    of 1 and 2: the two single steps and the chain to point 9. *)
Example initializeBoard_points :
  points initializeBoard =
  [ ["white"; "white"; "white"; "white"; "white"]; []; []; [];
    ["black"; "black"; "black"]; [];
    ["black"; "black"; "black"; "black"; "black"]; []; []; []; [];
    ["white"; "white"]; ["black"; "black"]; []; []; []; [];
    ["white"; "white"; "white"; "white"; "white"]; [];
    ["white"; "white"; "white"]; []; []; [];
    ["black"; "black"; "black"; "black"; "black"] ].
Proof. reflexivity. Qed.

Example calculatePossibleMoves_opening :
  calculatePossibleMoves false (Pt 12) [1; 2] "white" initializeBoard
  = [mkMove 11 [1]; mkMove 9 [1; 2]; mkMove 10 [2]].
Proof. vm_compute. reflexivity. Qed.

(** C7: White has all checkers home, one of them left on point 3.  With a
    die of 5 (an overshoot) and with a die of 3 (the exact distance) the
    generator offers a move along the path, to points 22 and 24, and no
    bear-off (target 0). *)
Theorem bearOff_from_three_not_offered :
  areAllCheckersInHomeBoard "white" loneCheckerOnThree = true /\
  whiteTotal loneCheckerOnThree = 15 /\
  calculatePossibleMoves false (Pt 3) [5] "white" loneCheckerOnThree
    = [mkMove 22 [5]] /\
  calculatePossibleMoves false (Pt 3) [3] "white" loneCheckerOnThree
    = [mkMove 24 [3]].
Proof. repeat split; vm_compute; reflexivity. Qed.

(** C8 as stated fails: no option to point 13 with two sixes is returned
    for point 1. *)
Lemma double_six_no_chain_to_13 :
  ~ (exists m,
        In m (calculatePossibleMoves false (Pt 1) [6; 6; 6; 6] "white" initializeBoard)
        /\ targetPoint m = 13 /\ diceUsed m = [6; 6]).
Proof.
  intros (m & Hin & Ht & _).
  assert (E : calculatePossibleMoves false (Pt 1) [6; 6; 6; 6] "white" initializeBoard
              = [mkMove 19 [6]]) by (vm_compute; reflexivity).
  rewrite E in Hin. clear E. destruct Hin as [<-|[]].
  cbn in Ht. discriminate Ht.
Qed.

(** C8, amended: from the starting layout with four sixes the generator
    returns for point 1 the single option to point 19 with one six; point
    13 holds two Black checkers and is blocked for White.  On the same
    layout without those two checkers the chained option to point 13 with
    two sixes is returned. *)
Theorem double_six_from_point_1 :
  (forall flag,
     calculatePossibleMoves flag (Pt 1) [6; 6; 6; 6] "white" initializeBoard
     = [mkMove 19 [6]]) /\
  checkersAt initializeBoard 12 = ["black"; "black"] /\
  isPointBlocked 12 "white" initializeBoard = true /\
  (forall flag,
     In (mkMove 13 [6; 6])
        (calculatePossibleMoves flag (Pt 1) [6; 6; 6; 6] "white" startWithoutPoint13)).
Proof.
  repeat split; try (intros []; vm_compute; reflexivity).
  all: intros []; vm_compute; auto.
Qed.

(** ** The existence check and the generator agree *)











(** ** Runs stay within the reachable states *)

Lemma step_reachable e s s' : reachable s -> step e s = Some s' -> reachable s'.
Proof.
  intros Hr. destruct e; cbn [step].
  - destruct (isPlaying s) eqn:Hp; [discriminate|].
    intros [= <-]. apply reach_start; assumption.
  - destruct (isPlaying s) eqn:Hp; cbn [negb andb]; [discriminate|].
    destruct (includesZ matchFormats n) eqn:Hn; [|discriminate].
    intros [= <-]. apply reach_format; try assumption.
    unfold includesZ in Hn. apply existsb_exists in Hn as (x & Hx & Heq).
    apply Z.eqb_eq in Heq. subst. assumption.
  - unfold isFace.
    destruct (Z.leb_spec 1 die1), (Z.leb_spec die1 6), (Z.leb_spec 1 die2),
      (Z.leb_spec die2 6); simpl; try discriminate.
    intros [= <-]. apply reach_roll; auto.
  - destruct (Z.leb_spec 0 pointNumber), (Z.leb_spec pointNumber 25); simpl;
      try discriminate.
    intros H1. eapply reach_click; eauto.
  - intros H1. eapply reach_undo; eauto.
  - intros H1. eapply reach_timer; eauto.
  - intros [= <-]. apply reach_effect_bar; assumption.
  - intros [= <-]. apply reach_effect_moves; assumption.
  - intros [= <-]. apply reach_effect_match_end; assumption.
Qed.

Lemma run_reachable es : forall s s',
  reachable s -> run es s = Some s' -> reachable s'.
Proof.
  induction es as [|e es IH]; simpl; intros s s' Hr H.
  - injection H as <-. assumption.
  - destruct (step e s) as [s1|] eqn:Hs; [|discriminate].
    eapply IH; [|exact H]. eapply step_reachable; eauto.
Qed.

(** The position of the chain example. *)
Lemma chainState_run :
  run (withEffects whiteFacesBlotOn11) mountedGame = Some chainState.
Proof. vm_compute. reflexivity. Qed.

Lemma chainState_reachable : reachable chainState.
Proof.
  apply (run_reachable (withEffects whiteFacesBlotOn11) mountedGame).
  - apply reach_mount.
  - apply chainState_run.
Qed.

Lemma chainState_facts :
  js_nth (points (boardState chainState)) (12 - 1) = Some ["white"; "white"] /\
  firstIs ["white"; "white"] (currentPlayer chainState) = true /\
  js_nth (points (boardState chainState)) (9 - 1) = Some [] /\
  js_nth (points (boardState chainState)) 10 = Some ["black"] /\
  bar (boardState chainState) = mkTally 0 0 /\
  In (mkMove 9 [1; 2]) (possibleMovesInfo chainState).
Proof.
  refine (conj _ (conj _ (conj _ (conj _ (conj _ _))))); vm_compute; auto.
Qed.


(** ** What a move changes *)

Ltac proj_simpl :=
  cbn [boardState availableDice possibleMovesInfo moveHistory selectedPoint
       currentPlayer mustReenterFromBar isPlaying timers gameMessage
       matchFormat playerScore opponentScore
       setTimers setMoveHistory setPossibleMovesInfo setAvailableDice
       setSelectedPoint setGameMessage setBoardState setMustReenterFromBar
       setCurrentPlayer setIsPlaying setPlayerScore setOpponentScore
       setMatchFormat clearTurn scheduleEndTurn clearSelection] in *.

Lemma boardState_endTurnIfStuck s0 nb nd s :
  boardState (endTurnIfStuck s0 nb nd s) = boardState s.
Proof. unfold endTurnIfStuck. destruct (_ || _); reflexivity. Qed.

Lemma availableDice_endTurnIfStuck s0 nb nd s :
  availableDice (endTurnIfStuck s0 nb nd s) = availableDice s.
Proof. unfold endTurnIfStuck. destruct (_ || _); reflexivity. Qed.

Lemma moveHistory_endTurnIfStuck s0 nb nd s :
  moveHistory (endTurnIfStuck s0 nb nd s) = moveHistory s.
Proof. unfold endTurnIfStuck. destruct (_ || _); reflexivity. Qed.

Lemma possibleMovesInfo_endTurnIfStuck s0 nb nd s :
  possibleMovesInfo (endTurnIfStuck s0 nb nd s) = possibleMovesInfo s.
Proof. unfold endTurnIfStuck. destruct (_ || _); reflexivity. Qed.

Lemma selectedPoint_endTurnIfStuck s0 nb nd s :
  selectedPoint (endTurnIfStuck s0 nb nd s) = selectedPoint s.
Proof. unfold endTurnIfStuck. destruct (_ || _); reflexivity. Qed.

Lemma boardState_landChecker s from t dice nb moved tgt :
  boardState (landChecker s from t dice nb moved tgt)
  = landOn (currentPlayer s) t moved tgt nb.
Proof. unfold landChecker. rewrite boardState_endTurnIfStuck. reflexivity. Qed.

Lemma availableDice_landChecker s from t dice nb moved tgt :
  availableDice (landChecker s from t dice nb moved tgt)
  = consumeDice dice (availableDice s).
Proof. unfold landChecker. rewrite availableDice_endTurnIfStuck. reflexivity. Qed.

Lemma moveHistory_landChecker s from t dice nb moved tgt :
  moveHistory (landChecker s from t dice nb moved tgt)
  = moveHistory s ++ [recordOf (currentPlayer s) from t tgt dice].
Proof. unfold landChecker. rewrite moveHistory_endTurnIfStuck. reflexivity. Qed.

Lemma possibleMovesInfo_landChecker s from t dice nb moved tgt :
  possibleMovesInfo (landChecker s from t dice nb moved tgt) = [].
Proof. unfold landChecker. rewrite possibleMovesInfo_endTurnIfStuck. reflexivity. Qed.

Lemma selectedPoint_landChecker s from t dice nb moved tgt :
  selectedPoint (landChecker s from t dice nb moved tgt) = None.
Proof. unfold landChecker. rewrite selectedPoint_endTurnIfStuck. reflexivity. Qed.

Lemma currentPlayer_landChecker s from t dice nb moved tgt :
  currentPlayer (landChecker s from t dice nb moved tgt) = currentPlayer s.
Proof.
  unfold landChecker, endTurnIfStuck. destruct (_ || _); reflexivity.
Qed.

Lemma not_bearOff_target t : 1 <= t <= 24 -> (t =? 0) || (t =? 25) = false.
Proof. intros H. apply orb_false_iff. split; apply Z.eqb_neq; lia. Qed.

Lemma takeSource_Taken s from nb moved :
  takeSource s from = Some (inr (nb, moved)) <-> Taken s from nb moved.
Proof.
  unfold takeSource. split.
  - destruct from as [|p].
    + destruct (tally_pos (bar (boardState s)) (currentPlayer s)) eqn:Hpos;
        [|discriminate].
      intros [= <- <-]. constructor. exact Hpos.
    + destruct (js_nth (points (boardState s)) (p - 1)) as [src|] eqn:Hsrc;
        [|discriminate].
      destruct (last src) as [mv|] eqn:Hlast; [|discriminate].
      destruct (firstIs src (currentPlayer s)) eqn:Hfirst; cbn [negb];
        [|discriminate].
      intros [= <- <-]. econstructor; eauto.
  - intros [Hpos|p src mv Hsrc Hlast Hfirst].
    + rewrite Hpos. reflexivity.
    + rewrite Hsrc, Hlast, Hfirst. reflexivity.
Qed.

Lemma takeSource_message s from s' :
  takeSource s from = Some (inl s') -> exists msg, s' = setGameMessage msg s.
Proof.
  unfold takeSource. destruct from as [|p].
  - destruct (tally_pos _ _); [discriminate|]. intros [= <-]. eauto.
  - destruct (js_nth (points (boardState s)) (p - 1)) as [src|]; [|discriminate].
    destruct (last src); [destruct (negb _)|]; try discriminate;
      intros [= <-]; eauto.
Qed.

(** A call of [performMove] with a point of the board as target returns
    with an error message only, or takes a checker and lands it. *)
Lemma performMove_cases s from t dice s' :
  1 <= t <= 24 ->
  performMove s from t dice = Some s' ->
  (exists msg, s' = setGameMessage msg s) \/
  (exists nb moved tgt,
      Taken s from nb moved /\
      js_nth (points nb) (t - 1) = Some tgt /\
      s' = landChecker s from t dice nb moved tgt).
Proof.
  intros Ht. unfold performMove. rewrite (not_bearOff_target t Ht).
  destruct (takeSource s from) as [[s1|[nb moved]]|] eqn:Htake; [| |discriminate].
  - intros [= <-]. left. eapply takeSource_message, Htake.
  - apply takeSource_Taken in Htake.
    destruct (js_nth (points nb) (t - 1)) as [tgt|] eqn:Htgt; [|discriminate].
    intros [= <-]. right. exists nb, moved, tgt. auto.
Qed.

(** A move between two points of the board from a point whose bottom
    checker is the player's. *)
Lemma performMove_lands s f t dice src tgt moved :
  js_nth (points (boardState s)) (f - 1) = Some src ->
  firstIs src (currentPlayer s) = true ->
  last src = Some moved ->
  js_nth (points (boardState s)) (t - 1) = Some tgt ->
  f <> t -> t <> 0 -> t <> 25 ->
  performMove s (Pt f) t dice
  = Some (landChecker s (Pt f) t dice (popPoint (f - 1) (boardState s)) moved tgt).
Proof.
  intros Hsrc Hfirst Hlast Htgt Hft H0 H25.
  unfold performMove.
  rewrite (proj2 (takeSource_Taken s (Pt f) _ moved)
             (taken_point s f src moved Hsrc Hlast Hfirst)).
  destruct (Z.eqb_spec t 0); [contradiction|].
  destruct (Z.eqb_spec t 25); [contradiction|]. cbn [orb].
  unfold popPoint at 1. cbn [points]. rewrite js_nth_alter_ne by lia.
  rewrite Htgt. reflexivity.
Qed.

(** C10: a move between two distinct points of the board, chained or not,
    changes the board in one step.  The source loses its top checker, the
    target receives it, a single opposing checker on the target (and no
    other checker) goes to the bar, the home counts stay, and every other
    point, the landing points of a chain among them, is left as it was. *)
Theorem performMove_only_source_and_target s f t dice src tgt moved :
  js_nth (points (boardState s)) (f - 1) = Some src ->
  firstIs src (currentPlayer s) = true ->
  last src = Some moved ->
  js_nth (points (boardState s)) (t - 1) = Some tgt ->
  f <> t -> t <> 0 -> t <> 25 ->
  exists s',
    performMove s (Pt f) t dice = Some s' /\
    (forall i, i <> f - 1 -> i <> t - 1 ->
       js_nth (points (boardState s')) i = js_nth (points (boardState s)) i) /\
    js_nth (points (boardState s')) (f - 1) = Some (pop src) /\
    js_nth (points (boardState s')) (t - 1)
      = Some (if hitsBlot (currentPlayer s) tgt then [moved] else tgt ++ [moved]) /\
    bar (boardState s')
      = (if hitsBlot (currentPlayer s) tgt
         then tally_add (getOpponentColor (currentPlayer s)) 1 (bar (boardState s))
         else bar (boardState s)) /\
    home (boardState s') = home (boardState s).
Proof.
  intros Hsrc Hfirst Hlast Htgt Hft H0 H25.
  eexists. split; [apply (performMove_lands s f t dice src tgt moved); auto|].
  rewrite boardState_landChecker. unfold landOn.
  destruct (hitsBlot (currentPlayer s) tgt) eqn:Hlone;
    unfold pushPoint, addBar, popPoint; cbn [points bar home].
  - apply andb_true_iff in Hlone as [Hlen _]. apply Z.eqb_eq in Hlen.
    assert (Hpop : pop tgt = []).
    { destruct tgt as [|x [|y tgt]]; simpl in Hlen; try lia. reflexivity. }
    repeat split.
    + intros i Hif Hit. rewrite !js_nth_alter_ne by lia. reflexivity.
    + rewrite !js_nth_alter_ne by lia. apply js_nth_alter_eq. exact Hsrc.
    + erewrite js_nth_alter_eq;
        [|apply js_nth_alter_eq; rewrite js_nth_alter_ne by lia; exact Htgt].
      rewrite Hpop. reflexivity.
  - repeat split.
    + intros i Hif Hit. rewrite !js_nth_alter_ne by lia. reflexivity.
    + rewrite js_nth_alter_ne by lia. apply js_nth_alter_eq. exact Hsrc.
    + erewrite js_nth_alter_eq; [|rewrite js_nth_alter_ne by lia; exact Htgt].
      reflexivity.
Qed.

(** The theorem at work on a chain: White, on point 12, is offered point 9
    with the dice 1 and 2 (by way of point 11 or point 10); the move leaves
    the single Black checker of point 11 where it is and the bar empty. *)
Lemma performMove_only_source_and_target_witness :
  In (mkMove 9 [1; 2]) (possibleMovesInfo chainState) /\
  js_nth (points (boardState chainState)) 10 = Some ["black"] /\
  exists s',
    performMove chainState (Pt 12) 9 [1; 2] = Some s' /\
    js_nth (points (boardState s')) 10 = Some ["black"] /\
    js_nth (points (boardState s')) (9 - 1) = Some ["white"] /\
    bar (boardState s') = mkTally 0 0.
Proof.
  destruct chainState_facts as (Hsrc & Hfirst & Htgt & Hblot & Hbar0 & Hin).
  split; [exact Hin|]. split; [exact Hblot|].
  destruct (performMove_only_source_and_target chainState 12 9 [1; 2]
              ["white"; "white"] [] "white" Hsrc Hfirst eq_refl Htgt)
    as (s' & Hp & Hframe & _ & Ht & Hbar & _); try lia.
  exists s'. split; [exact Hp|]. split; [|split].
  - rewrite (Hframe 10) by lia. exact Hblot.
  - exact Ht.
  - rewrite Hbar. exact Hbar0.
Defined.

(** ** Counting the checkers of a colour *)

Lemma whiteTotal_inPlay b : whiteTotal b = inPlay "white" b.
Proof. reflexivity. Qed.

Lemma blackTotal_inPlay b : blackTotal b = inPlay "black" b.
Proof. reflexivity. Qed.

Lemma totalCheckers_white b : totalCheckers "white" b = Some (whiteTotal b).
Proof. reflexivity. Qed.

Lemma totalCheckers_black b : totalCheckers "black" b = Some (blackTotal b).
Proof. reflexivity. Qed.

Lemma isKey_white : isKey "white".
Proof. left. reflexivity. Qed.

Lemma isKey_black : isKey "black".
Proof. right. reflexivity. Qed.

Section Counting.

(** The colour counted: one of the two keys of the tallies. *)
Variable c : Color.
Hypothesis Hc : isKey c.

Lemma tallyOf_add k d t :
  tallyOf (tally_add k d t) c = tallyOf t c + (if String.eqb k c then d else 0).
Proof.
  destruct Hc as [-> | ->]; unfold tallyOf, tally_add, tally_get;
    destruct (String.eqb k "white") eqn:Hw;
    destruct (String.eqb k "black") eqn:Hb;
    cbn; try lia;
    apply String.eqb_eq in Hw, Hb; subst; discriminate.
Qed.

Lemma inPlay_addBar k d b :
  inPlay c (addBar k d b) = inPlay c b + (if String.eqb k c then d else 0).
Proof.
  unfold inPlay, addBar. cbn [bar home].
  rewrite tallyOf_add. unfold onBoard. cbn [points]. lia.
Qed.

Lemma inPlay_addHome k d b :
  inPlay c (addHome k d b) = inPlay c b + (if String.eqb k c then d else 0).
Proof.
  unfold inPlay, addHome. cbn [bar home].
  rewrite tallyOf_add. unfold onBoard. cbn [points]. lia.
Qed.

Lemma inPlay_popPoint i b cs x :
  js_nth (points b) i = Some cs -> last cs = Some x ->
  inPlay c (popPoint i b) = inPlay c b - (if String.eqb x c then 1 else 0).
Proof.
  intros Hn Hl. unfold inPlay. rewrite (onBoard_popPoint c i b cs x Hn Hl).
  unfold popPoint. cbn [bar home]. lia.
Qed.

Lemma inPlay_pushPoint i b cs x :
  js_nth (points b) i = Some cs ->
  inPlay c (pushPoint i x b) = inPlay c b + (if String.eqb x c then 1 else 0).
Proof.
  intros Hn. unfold inPlay. rewrite (onBoard_pushPoint c i b cs x Hn).
  unfold pushPoint. cbn [bar home]. lia.
Qed.

(** Landing a checker of colour [moved] on a point adds one checker of
    that colour to the count and leaves the other colour's count, whether
    or not a single opposing checker is sent to the bar. *)
Lemma inPlay_landOn player t moved tgt nb :
  wfBoard nb -> 1 <= t <= 24 ->
  js_nth (points nb) (t - 1) = Some tgt ->
  inPlay c (landOn player t moved tgt nb)
  = inPlay c nb + (if String.eqb moved c then 1 else 0).
Proof.
  intros Hwf Ht Htgt. unfold landOn.
  destruct (hitsBlot player tgt) eqn:Hhit.
  - apply andb_true_iff in Hhit as [Hlen Hfirst]. apply Z.eqb_eq in Hlen.
    pose proof (firstIs_single _ _ Hlen Hfirst) as ->.
    destruct (wfBoard_point (addBar (getOpponentColor player) 1 (popPoint (t - 1) nb)) t)
      as [cs Hcs]; [auto with board|exact Ht|].
    rewrite (inPlay_pushPoint _ _ cs moved Hcs), inPlay_addBar.
    rewrite (inPlay_popPoint _ _ _ (getOpponentColor player) Htgt eq_refl).
    destruct (String.eqb (getOpponentColor player) c); lia.
  - rewrite (inPlay_pushPoint _ _ tgt moved Htgt). reflexivity.
Qed.

Lemma Taken_inPlay s from nb moved :
  Taken s from nb moved ->
  inPlay c nb = inPlay c (boardState s) - (if String.eqb moved c then 1 else 0).
Proof.
  intros [Hpos|p src mv Hsrc Hlast Hfirst].
  - rewrite inPlay_addBar. destruct (String.eqb _ c); lia.
  - apply (inPlay_popPoint _ _ src mv Hsrc Hlast).
Qed.

End Counting.

Lemma wfBoard_landOn player t moved tgt nb :
  wfBoard nb -> wfBoard (landOn player t moved tgt nb).
Proof.
  intros H. unfold landOn. destruct (hitsBlot player tgt); auto with board.
Qed.

Lemma initializeBoard_white : whiteTotal initializeBoard = 15.
Proof. vm_compute. reflexivity. Qed.

Lemma initializeBoard_black : blackTotal initializeBoard = 15.
Proof. vm_compute. reflexivity. Qed.

Lemma Taken_wf s from nb moved :
  wfBoard (boardState s) -> Taken s from nb moved -> wfBoard nb.
Proof. intros Hwf [Hpos|p src mv _ _ _]; auto with board. Qed.

(** ** The handlers keep the invariant *)

(** A state that agrees with a state satisfying the invariant on the fields
    the invariant reads. *)
Lemma Inv_same s s' :
  boardState s' = boardState s ->
  availableDice s' = availableDice s ->
  possibleMovesInfo s' = possibleMovesInfo s ->
  moveHistory s' = moveHistory s ->
  selectedPoint s' = selectedPoint s ->
  Inv s -> Inv s'.
Proof.
  intros Hb Hd Hm Hh Hs [H1 H2 H3 H4 H5 H6 H7].
  constructor; rewrite ?Hb, ?Hd, ?Hm, ?Hh, ?Hs; auto.
Qed.

Lemma Inv_build s s' :
  Inv s ->
  wfBoard (boardState s') ->
  (forall c, isKey c -> inPlay c (boardState s') = inPlay c (boardState s)) ->
  Forall face (availableDice s') ->
  Forall boardMove (possibleMovesInfo s') ->
  Forall boardRecord (moveHistory s') ->
  (forall p, selectedPoint s' = Some p -> 1 <= p <= 24) ->
  Inv s'.
Proof.
  intros [Hwf Hw Hbl _ _ _ _] Hwf' Hc Hd Hm Hh Hs. constructor; auto.
  - rewrite whiteTotal_inPlay, (Hc _ isKey_white). exact Hw.
  - rewrite blackTotal_inPlay, (Hc _ isKey_black). exact Hbl.
Qed.

Lemma Inv_setGameMessage msg s : Inv s -> Inv (setGameMessage msg s).
Proof. apply Inv_same; reflexivity. Qed.

Lemma Inv_setTimers v s : Inv s -> Inv (setTimers v s).
Proof. apply Inv_same; reflexivity. Qed.

Lemma performMove_Inv s from t dice s' :
  Inv s -> boardSource from -> 1 <= t <= 24 -> Forall face dice ->
  performMove s from t dice = Some s' -> Inv s'.
Proof.
  intros HI Hfrom Ht Hdice Hp.
  destruct (performMove_cases s from t dice s' Ht Hp)
    as [[msg ->]|(nb & moved & tgt & Htk & Htgt & ->)].
  { apply Inv_setGameMessage, HI. }
  pose proof (Taken_wf _ _ _ _ (inv_wf s HI) Htk) as Hwfnb.
  apply (Inv_build s); [exact HI|..].
  - rewrite boardState_landChecker. apply wfBoard_landOn, Hwfnb.
  - intros c Hc. rewrite boardState_landChecker.
    rewrite (inPlay_landOn c Hc _ t moved tgt nb Hwfnb Ht Htgt).
    rewrite (Taken_inPlay c Hc s from nb moved Htk). lia.
  - rewrite availableDice_landChecker. apply Forall_consumeDice, HI.
  - rewrite possibleMovesInfo_landChecker. constructor.
  - rewrite moveHistory_landChecker. apply Forall_app. split; [apply HI|].
    constructor; [|constructor]. repeat split; cbn; auto; lia.
  - rewrite selectedPoint_landChecker. discriminate.
Qed.

Lemma undoMoveBack_board r s0 nb :
  wfBoard (boardState s0) -> boardRecord r ->
  undoMoveBack r s0 = Some (inr nb) ->
  wfBoard nb /\ forall c, isKey c -> inPlay c nb = inPlay c (boardState s0).
Proof.
  intros Hwf (Hfrom & Ht & _). unfold undoMoveBack.
  assert (Hbo : (toPoint r =? 0) || (toPoint r =? 25) = false).
  { apply orb_false_iff. split; apply Z.eqb_neq; lia. }
  rewrite Hbo.
  destruct (js_nth (points (boardState s0)) (toPoint r - 1)) as [tgt|] eqn:Htgt;
    [|discriminate].
  destruct (last tgt) as [top|] eqn:Htop; [|discriminate].
  destruct (String.eqb_spec top (checkerColor r)) as [->|]; cbn [negb];
    [|discriminate].
  pose proof (fun c => inPlay_popPoint c _ _ _ _ Htgt Htop) as Hpop.
  destruct (fromPoint r) as [|p].
  - intros [= <-]. split; [apply wfBoard_addBar, wfBoard_popPoint, Hwf|].
    intros c Hc. rewrite inPlay_addBar by exact Hc. rewrite Hpop.
    destruct (String.eqb (checkerColor r) c); lia.
  - destruct (js_nth (points (popPoint (toPoint r - 1) (boardState s0))) (p - 1))
      as [src|] eqn:Hsrc; [|discriminate].
    intros [= <-]. split; [apply wfBoard_pushPoint, wfBoard_popPoint, Hwf|].
    intros c Hc. rewrite (inPlay_pushPoint c _ _ src _ Hsrc), Hpop. lia.
Qed.

Lemma undoMoveBack_message r s0 s' :
  undoMoveBack r s0 = Some (inl s') -> s' = setGameMessage MsgErrorUndoing s0.
Proof.
  unfold undoMoveBack.
  repeat match goal with
         | |- context [match ?x with _ => _ end] => destruct x
         end; intros [= <-]; reflexivity.
Qed.

Lemma undoHit_board r nb :
  wfBoard nb -> boardRecord r ->
  wfBoard (undoHit r nb) /\
  forall c, isKey c -> inPlay c (undoHit r nb) = inPlay c nb.
Proof.
  intros Hwf (_ & Ht & _). unfold undoHit.
  destruct (if hitOpponentChecker r then truthyColor (hitCheckerColor r) else None)
    as [h|]; [|auto].
  assert (Hbo : negb (toPoint r =? 0) && negb (toPoint r =? 25) = true).
  { apply andb_true_iff. split; apply negb_true_iff, Z.eqb_neq; lia. }
  rewrite Hbo. split; [apply wfBoard_pushPoint, wfBoard_addBar, Hwf|].
  intros c Hc.
  destruct (wfBoard_point (addBar h (-1) nb) (toPoint r)) as [cs Hcs];
    [apply wfBoard_addBar, Hwf|exact Ht|].
  rewrite (inPlay_pushPoint c _ _ cs h Hcs), inPlay_addBar by exact Hc.
  destruct (String.eqb h c); lia.
Qed.

Lemma undoLastMove_Inv s s' : Inv s -> undoLastMove s = Some s' -> Inv s'.
Proof.
  intros HI. unfold undoLastMove.
  destruct (last (moveHistory s)) as [r|] eqn:Hl;
    [|intros [= <-]; apply Inv_setGameMessage, HI].
  pose proof (Forall_last _ _ _ (inv_history s HI) Hl) as Hr.
  assert (HI0 : Inv (setMoveHistory (removelast (moveHistory s)) s)).
  { apply (Inv_build s); try apply HI; auto.
    apply Forall_removelast, HI. }
  destruct (undoMoveBack r (setMoveHistory (removelast (moveHistory s)) s))
    as [[s1|nb]|] eqn:Hback; [| |discriminate].
  { apply undoMoveBack_message in Hback. intros [= <-]. subst s1.
    apply Inv_setGameMessage, HI0. }
  intros [= <-].
  destruct (undoMoveBack_board _ _ _ (inv_wf _ HI0) Hr Hback) as [Hwf1 Hc1].
  destruct (undoHit_board r nb Hwf1 Hr) as [Hwf2 Hc2].
  assert (Hdice : Forall face (availableDice s ++ usedDice r)).
  { apply Forall_app. split; [apply HI|apply Hr]. }
  unfold undoFinish.
  destruct (tally_pos (bar (undoHit r nb)) (currentPlayer s));
    apply (Inv_build s); try exact HI; proj_simpl; auto.
  all: try (intros c Hc; rewrite Hc2, Hc1 by exact Hc; reflexivity).
  all: try (apply Forall_sortDesc, Hdice).
  all: try (apply Forall_removelast, HI).
  all: try discriminate.
  - apply calculatePossibleMoves_boardMove, Hdice.
Qed.

Lemma findTarget_Some p moves mv :
  findTarget p moves = Some mv -> In mv moves /\ targetPoint mv = p.
Proof.
  unfold findTarget. intros H. apply find_some in H as [H1 H2].
  apply Z.eqb_eq in H2. auto.
Qed.

Lemma handlePointClick_Inv s p s' :
  Inv s -> 0 <= p <= 25 -> handlePointClick s p = Some s' -> Inv s'.
Proof.
  intros HI Hp. unfold handlePointClick.
  destruct (negb (isPlaying s) || (Z.of_nat (length (availableDice s)) =? 0)).
  { intros [= <-]. apply Inv_setGameMessage, HI. }
  destruct (bool_decide (selectedPoint s = Some p)).
  { intros [= <-]. apply (Inv_build s); try apply HI; proj_simpl; auto.
    discriminate. }
  cbn zeta.
  assert (Hmove : forall mv, findTarget p (possibleMovesInfo s) = Some mv ->
                    1 <= p <= 24 /\ Forall face (diceUsed mv)).
  { intros mv Hmv. apply findTarget_Some in Hmv as [Hin <-].
    pose proof (inv_moves s HI) as Hall. rewrite List.Forall_forall in Hall.
    apply Hall, Hin. }
  destruct (mustReenterFromBar s).
  { destruct ((p =? 0) || (p =? 25)); [intros [= <-]; apply Inv_setGameMessage, HI|].
    destruct (findTarget p (possibleMovesInfo s)) as [mv|] eqn:Hmv;
      [|intros [= <-]; apply Inv_setGameMessage, HI].
    destruct (Hmove mv eq_refl) as [Hr Hd].
    apply performMove_Inv; simpl; auto. }
  assert (Hrest :
    (if (p =? 0) || (p =? 25)
     then Some (setPossibleMovesInfo [] (setSelectedPoint None
                  (setGameMessage MsgCannotSelectBearOff s)))
     else
       match js_nth (points (boardState s)) (p - 1) with
       | None => None
       | Some pointCheckers =>
           if (0 <? Z.of_nat (length pointCheckers))
              && firstIs pointCheckers (currentPlayer s)
           then Some (setGameMessage (MsgSelected p)
                  (setPossibleMovesInfo
                     (calculatePossibleMoves false (Pt p)
                        (availableDice s) (currentPlayer s) (boardState s))
                     (setSelectedPoint (Some p) s)))
           else Some (setPossibleMovesInfo [] (setSelectedPoint None
                        (setGameMessage MsgNotYourChecker s)))
       end) = Some s' -> Inv s').
  { destruct (Z.eqb_spec p 0) as [H0|H0]; cbn [orb].
    { intros [= <-]. apply (Inv_build s); try apply HI; proj_simpl; auto.
      discriminate. }
    destruct (Z.eqb_spec p 25) as [H25|H25]; cbn [orb].
    { intros [= <-]. apply (Inv_build s); try apply HI; proj_simpl; auto.
      discriminate. }
    destruct (js_nth (points (boardState s)) (p - 1)) as [cs|]; [|discriminate].
    destruct ((0 <? Z.of_nat (length cs)) && firstIs cs (currentPlayer s));
      intros [= <-]; apply (Inv_build s); try apply HI; proj_simpl; auto.
    - apply calculatePossibleMoves_boardMove, HI.
    - intros q [= <-]. lia.
    - discriminate. }
  destruct (selectedPoint s) as [sel|] eqn:Hsel; [|exact Hrest].
  destruct (findTarget p (possibleMovesInfo s)) as [mv|] eqn:Hmv; [|exact Hrest].
  destruct (Hmove mv eq_refl) as [Hr Hd].
  apply performMove_Inv; simpl; auto. apply (inv_selected s HI), Hsel.
Qed.

Lemma endTurn_Inv c s : Inv s -> Inv (endTurn c s).
Proof.
  intros HI. unfold endTurn.
  destruct (negb (seenPlaying c)); [exact HI|].
  assert (Hinit : forall k, isKey k -> inPlay k initializeBoard = inPlay k (boardState s)).
  { intros k [-> | ->].
    - rewrite <- !whiteTotal_inPlay, initializeBoard_white. symmetry. apply HI.
    - rewrite <- !blackTotal_inPlay, initializeBoard_black. symmetry. apply HI. }
  destruct (white (seenHome c) =? 15); [|destruct (black (seenHome c) =? 15)];
    apply (Inv_build s); try exact HI; proj_simpl; auto;
    try apply initializeBoard_wf; try apply HI; try discriminate.
Qed.

Lemma startMatch_Inv s : Inv s -> Inv (startMatch s).
Proof.
  intros HI. unfold startMatch.
  apply (Inv_build s); try exact HI; proj_simpl; auto;
    try apply initializeBoard_wf; try discriminate.
  intros k [-> | ->].
  - rewrite <- !whiteTotal_inPlay, initializeBoard_white. symmetry. apply HI.
  - rewrite <- !blackTotal_inPlay, initializeBoard_black. symmetry. apply HI.
Qed.

Lemma rollDiceHandler_Inv seen die1 die2 s :
  face die1 -> face die2 -> Inv s -> Inv (rollDiceHandler seen die1 die2 s).
Proof.
  intros H1 H2 HI. unfold rollDiceHandler.
  destruct (negb (isPlaying seen)); [exact HI|].
  assert (Hd : Forall face (if die1 =? die2 then [die1; die1; die1; die1]
                            else [die1; die2])).
  { destruct (die1 =? die2); repeat (constructor; [assumption|]); constructor. }
  cbn zeta.
  repeat match goal with
         | |- context [if ?c then _ else _] =>
             match c with
             | die1 =? die2 => fail 1
             | _ => destruct c
             end
         end;
    apply (Inv_build s); try exact HI; proj_simpl; auto; try apply HI;
    try discriminate.
Qed.

Lemma fireTimer_Inv i s s' : Inv s -> fireTimer i s = Some s' -> Inv s'.
Proof.
  intros HI. unfold fireTimer. destruct (timers s !! i); [|discriminate].
  intros [= <-]. apply endTurn_Inv, Inv_setTimers, HI.
Qed.

Lemma effectBar_Inv s : Inv s -> Inv (effectBar s).
Proof.
  intros HI. unfold effectBar.
  destruct (isPlaying s && tally_pos (bar (boardState s)) (currentPlayer s)).
  - destruct (0 <? Z.of_nat (length (availableDice s)));
      apply (Inv_build s); try exact HI; proj_simpl; auto; try apply HI.
    apply calculatePossibleMoves_boardMove, HI.
  - destruct (selectedPoint s) eqn:Hs;
      [|destruct (0 <? Z.of_nat (length (possibleMovesInfo s)))];
      apply (Inv_build s); try exact HI; proj_simpl; auto; try apply HI.
    all: rewrite Hs; discriminate.
Qed.

Lemma effectMoves_Inv s : Inv s -> Inv (effectMoves s).
Proof.
  intros HI. unfold effectMoves.
  destruct (selectedPoint s) eqn:Hs.
  - destruct (0 <? Z.of_nat (length (availableDice s))); [|exact HI].
    apply (Inv_build s); try exact HI; proj_simpl; auto; try apply HI.
    + apply calculatePossibleMoves_boardMove, HI.
  - destruct ((0 <? Z.of_nat (length (possibleMovesInfo s)))
              && negb (mustReenterFromBar s)); [|exact HI].
    apply (Inv_build s); try exact HI; proj_simpl; auto; try apply HI.
Qed.

Lemma effectMatchEnd_Inv s : Inv s -> Inv (effectMatchEnd s).
Proof.
  intros HI. unfold effectMatchEnd.
  repeat match goal with
         | |- context [if ?c then _ else _] => destruct c
         end; try exact HI; apply (Inv_same s); auto.
Qed.

Lemma mountedGame_Inv : Inv mountedGame.
Proof.
  constructor.
  - reflexivity.
  - vm_compute. reflexivity.
  - vm_compute. reflexivity.
  - constructor.
  - constructor.
  - constructor.
  - discriminate.
Qed.

(** Every reachable state satisfies the invariant. *)
Lemma reachable_Inv s : reachable s -> Inv s.
Proof.
  induction 1.
  - apply mountedGame_Inv.
  - apply startMatch_Inv; assumption.
  - apply (Inv_same s); auto.
  - apply rollDiceHandler_Inv; assumption.
  - eapply handlePointClick_Inv; eauto.
  - eapply undoLastMove_Inv; eauto.
  - eapply fireTimer_Inv; eauto.
  - apply effectBar_Inv; assumption.
  - apply effectMoves_Inv; assumption.
  - apply effectMatchEnd_Inv; assumption.
Qed.

(** C1: in every reachable state each colour has 15 checkers in all: the
    checkers of that colour on the 24 points, on the bar and borne off. *)
Theorem fifteen_checkers_per_color s :
  reachable s ->
  totalCheckers "white" (boardState s) = Some 15 /\
  totalCheckers "black" (boardState s) = Some 15.
Proof.
  intros Hr. apply reachable_Inv in Hr.
  rewrite totalCheckers_white, totalCheckers_black.
  rewrite (inv_white s Hr), (inv_black s Hr). auto.
Qed.

(** The theorem in the position of the chain example, in the middle of a
    game. *)
Lemma fifteen_checkers_per_color_witness :
  totalCheckers "white" (boardState chainState) = Some 15 /\
  totalCheckers "black" (boardState chainState) = Some 15.
Proof. apply (fifteen_checkers_per_color chainState chainState_reachable). Defined.

(** ** No handler throws in a reachable state *)

Lemma performMove_returns s from t dice :
  wfBoard (boardState s) -> boardSource from -> 1 <= t <= 24 ->
  exists s', performMove s from t dice = Some s'.
Proof.
  intros Hwf Hfrom Ht. unfold performMove, takeSource.
  rewrite (not_bearOff_target t Ht).
  destruct from as [|p].
  - destruct (tally_pos (bar (boardState s)) (currentPlayer s)); [|eauto].
    destruct (wfBoard_point (addBar (currentPlayer s) (-1) (boardState s)) t)
      as [tgt ->]; [exact Hwf|exact Ht|eauto].
  - destruct (wfBoard_point (boardState s) p Hwf Hfrom) as [src ->].
    destruct (last src); [|eauto].
    destruct (negb (firstIs src (currentPlayer s))); [eauto|].
    destruct (wfBoard_point (popPoint (p - 1) (boardState s)) t)
      as [tgt ->]; [apply wfBoard_popPoint, Hwf|exact Ht|eauto].
Qed.

Lemma undoMoveBack_returns r s0 :
  wfBoard (boardState s0) -> boardRecord r ->
  exists res, undoMoveBack r s0 = Some res.
Proof.
  intros Hwf (Hfrom & Ht & _). unfold undoMoveBack.
  assert (Hbo : (toPoint r =? 0) || (toPoint r =? 25) = false).
  { apply orb_false_iff. split; apply Z.eqb_neq; lia. }
  rewrite Hbo.
  destruct (js_nth (points (boardState s0)) (toPoint r - 1)) as [tgt|]; [|eauto].
  destruct (last tgt) as [top|]; [|eauto].
  destruct (negb (String.eqb top (checkerColor r))); [eauto|].
  destruct (fromPoint r) as [|p]; [eauto|].
  destruct (wfBoard_point (popPoint (toPoint r - 1) (boardState s0)) p)
    as [src ->]; [apply wfBoard_popPoint, Hwf|exact Hfrom|eauto].
Qed.

(** In a reachable state a click on a point or on a bear-off area and an
    undo run to completion: the reads of [checkers] that would throw on a
    missing point are never reached. *)
Lemma reachable_handlers_return s :
  reachable s ->
  (forall p, 0 <= p <= 25 -> exists s', handlePointClick s p = Some s') /\
  (exists s', undoLastMove s = Some s').
Proof.
  intros Hr. apply reachable_Inv in Hr as HI. split.
  - intros p Hp. unfold handlePointClick.
    destruct (negb (isPlaying s) || (Z.of_nat (length (availableDice s)) =? 0));
      [eauto|].
    destruct (bool_decide (selectedPoint s = Some p)); [eauto|].
    cbn zeta.
    assert (Hmove : forall mv, findTarget p (possibleMovesInfo s) = Some mv ->
                      1 <= p <= 24).
    { intros mv Hmv. apply findTarget_Some in Hmv as [Hin <-].
      pose proof (inv_moves s HI) as Hall. rewrite List.Forall_forall in Hall.
      apply Hall, Hin. }
    destruct (mustReenterFromBar s).
    { destruct ((p =? 0) || (p =? 25)); [eauto|].
      destruct (findTarget p (possibleMovesInfo s)) as [mv|] eqn:Hmv; [|eauto].
      apply performMove_returns; simpl; eauto. apply HI. }
    assert (Hrest : forall X Y Z0 : Game,
      exists s',
        (if (p =? 0) || (p =? 25) then Some X
         else match js_nth (points (boardState s)) (p - 1) with
              | None => None
              | Some pointCheckers =>
                  if (0 <? Z.of_nat (length pointCheckers))
                     && firstIs pointCheckers (currentPlayer s)
                  then Some Y else Some Z0
              end) = Some s').
    { intros X Y Z0.
      destruct (Z.eqb_spec p 0); cbn [orb]; [eauto|].
      destruct (Z.eqb_spec p 25); cbn [orb]; [eauto|].
      destruct (wfBoard_point (boardState s) p (inv_wf s HI)) as [cs ->]; [lia|].
      destruct (_ && _); eauto. }
    destruct (selectedPoint s) as [sel|] eqn:Hsel; [|apply Hrest].
    destruct (findTarget p (possibleMovesInfo s)) as [mv|] eqn:Hmv; [|apply Hrest].
    apply performMove_returns; simpl; eauto; [apply HI|].
    apply (inv_selected s HI), Hsel.
  - unfold undoLastMove.
    destruct (last (moveHistory s)) as [r|] eqn:Hl; [|eauto].
    pose proof (Forall_last _ _ _ (inv_history s HI) Hl) as Hrec.
    destruct (undoMoveBack_returns r
                (setMoveHistory (removelast (moveHistory s)) s))
      as [[s1|nb] ->]; [apply HI|exact Hrec| |]; eauto.
Qed.

(** ** Advisory rejections *)

Lemma undoLastMove_empty s :
  moveHistory s = [] -> undoLastMove s = Some (setGameMessage MsgNoMovesToUndo s).
Proof. intros H. unfold undoLastMove. rewrite H. reflexivity. Qed.

Lemma handlePointClick_rejected s p :
  wfBoard (boardState s) -> 0 <= p <= 25 -> clickRejected s p = true ->
  exists msg,
    handlePointClick s p
    = Some (setGameMessage msg
              (if rejectedAsSource s p then clearSelection s else s)).
Proof.
  intros Hwf Hp.
  unfold clickRejected, handlePointClick, rejectedAsSource, clearSelection.
  destruct (negb (isPlaying s) || (Z.of_nat (length (availableDice s)) =? 0)).
  { intros _. eexists. reflexivity. }
  destruct (bool_decide (selectedPoint s = Some p)); [discriminate|].
  cbn zeta. cbn [negb andb].
  destruct (mustReenterFromBar s); cbn [negb andb].
  { destruct ((p =? 0) || (p =? 25)).
    - intros _. eexists. reflexivity.
    - destruct (findTarget p (possibleMovesInfo s)); [discriminate|].
      intros _. eexists. reflexivity. }
  assert (Hcs : (p =? 0) || (p =? 25) = false ->
                exists cs, js_nth (points (boardState s)) (p - 1) = Some cs).
  { intros Hb. apply orb_false_iff in Hb as [H0 H25].
    apply Z.eqb_neq in H0, H25. apply js_nth_in_range.
    unfold wfBoard in Hwf. rewrite Hwf. lia. }
  destruct (selectedPoint s) as [sel|];
    [destruct (findTarget p (possibleMovesInfo s)); [discriminate|]|].
  all: destruct ((p =? 0) || (p =? 25));
    [intros _; eexists; reflexivity|].
  all: destruct (Hcs eq_refl) as [cs Hnth]; unfold checkersAt; rewrite Hnth;
    cbn [orb default from_option id];
    destruct ((0 <? Z.of_nat (length cs)) && firstIs cs (currentPlayer s));
    cbn [negb]; [intros Hf; discriminate Hf|];
    intros _; eexists; reflexivity.
Qed.

(** C9 as stated fails: White has selected point 12; a click on point 7,
    which holds Black checkers and is no target, is rejected, and with the
    message the selection changes. *)
Lemma rejected_click_clears_selection :
  ~ (forall s p,
       wfBoard (boardState s) -> 0 <= p <= 25 -> clickRejected s p = true ->
       exists msg, handlePointClick s p = Some (setGameMessage msg s)).
Proof.
  intros H.
  destruct (H selected12State 7) as [msg Hm];
    [vm_compute; reflexivity | lia | vm_compute; reflexivity |].
  apply (f_equal (option_map selectedPoint)) in Hm.
  vm_compute in Hm. discriminate Hm.
Qed.

(** C9, amended: an undo with an empty history changes the message and
    nothing else.  A rejected click on a point or a bear-off area (0 to 25)
    does not throw.  When it is rejected as a source ([rejectedAsSource]: a
    match is played, dice are available, no re-entry is due, and the click is
    on a bear-off area or on a point without the player's checker at its
    bottom) it changes the message and clears the selection ([selectedPoint]
    and [possibleMovesInfo]); every other rejected click changes the message
    and nothing else.  The board, the bar, the home counts, the dice and the
    history are as they were. *)
Theorem advisory_rejections_keep_the_position :
  (forall s, moveHistory s = [] ->
     undoLastMove s = Some (setGameMessage MsgNoMovesToUndo s)) /\
  (forall s p,
     wfBoard (boardState s) -> 0 <= p <= 25 -> clickRejected s p = true ->
     exists msg s',
       handlePointClick s p = Some s' /\
       s' = setGameMessage msg (if rejectedAsSource s p then clearSelection s else s) /\
       boardState s' = boardState s /\
       availableDice s' = availableDice s /\
       moveHistory s' = moveHistory s).
Proof.
  split; [exact undoLastMove_empty|].
  intros s p Hwf Hp Hrej.
  destruct (handlePointClick_rejected s p Hwf Hp Hrej) as [msg H].
  exists msg. eexists. split; [exact H|]. split; [reflexivity|].
  destruct (rejectedAsSource s p); repeat split.
Qed.

(** The theorem at the rejected click of the example, a click on a point of
    Black while White has selected point 12: the click is rejected as a
    source, the selection of point 12 is cleared, the position stays. *)
Lemma advisory_rejections_keep_the_position_witness :
  reachable selected12State /\
  selectedPoint selected12State = Some 12 /\
  rejectedAsSource selected12State 7 = true /\
  exists msg s',
    handlePointClick selected12State 7 = Some s' /\
    s' = setGameMessage msg
           (if rejectedAsSource selected12State 7
            then clearSelection selected12State else selected12State) /\
    boardState s' = boardState selected12State /\
    availableDice s' = availableDice selected12State /\
    moveHistory s' = moveHistory selected12State.
Proof.
  split.
  { apply (run_reachable (withEffects whiteSelects12) mountedGame);
      [apply reach_mount|vm_compute; reflexivity]. }
  split; [vm_compute; reflexivity|].
  split; [vm_compute; reflexivity|].
  apply (proj2 advisory_rejections_keep_the_position selected12State 7).
  - vm_compute. reflexivity.
  - lia.
  - vm_compute. reflexivity.
Defined.

(** ** A move and its undo *)

Lemma js_nth_alter {A} (f : A -> A) i j l :
  js_nth (js_alter f i l) j = if i =? j then f <$> js_nth l j else js_nth l j.
Proof.
  destruct (Z.eqb_spec i j) as [->|Hne]; [|apply js_nth_alter_ne, Hne].
  unfold js_nth, js_alter. destruct (j <? 0); [reflexivity|].
  apply list_lookup_alter_eq.
Qed.

Lemma js_nth_ext {A} (l1 l2 : list A) :
  (forall i, js_nth l1 i = js_nth l2 i) -> l1 = l2.
Proof.
  intros H. apply list_eq. intros n. specialize (H (Z.of_nat n)).
  unfold js_nth in H. destruct (Z.ltb_spec (Z.of_nat n) 0); [lia|].
  rewrite Nat2Z.id in H. exact H.
Qed.

Lemma white_tally_add k d t :
  white (tally_add k d t) = white t + (if String.eqb k "white" then d else 0).
Proof.
  unfold tally_add. destruct (String.eqb k "white"); cbn; [reflexivity|].
  destruct (String.eqb k "black"); cbn; lia.
Qed.

Lemma black_tally_add k d t :
  black (tally_add k d t) = black t + (if String.eqb k "black" then d else 0).
Proof.
  unfold tally_add. destruct (String.eqb k "white") eqn:Hw; cbn.
  - apply String.eqb_eq in Hw. subst. cbn. lia.
  - destruct (String.eqb k "black"); cbn; lia.
Qed.

Lemma board_ext b1 b2 :
  (forall i, js_nth (points b1) i = js_nth (points b2) i) ->
  white (bar b1) = white (bar b2) -> black (bar b1) = black (bar b2) ->
  home b1 = home b2 -> b1 = b2.
Proof.
  destruct b1 as [p1 [w1 k1] h1], b2 as [p2 [w2 k2] h2]. cbn.
  intros Hp -> -> ->. rewrite (js_nth_ext p1 p2 Hp). reflexivity.
Qed.

Lemma pop_push c cs : pop (push c cs) = cs.
Proof. unfold pop, push. apply removelast_last. Qed.

Lemma push_pop c cs : last cs = Some c -> push c (pop cs) = cs.
Proof. intros H. symmetry. apply last_pop, H. Qed.

Lemma last_push c cs : last (push c cs) = Some c.
Proof. unfold push. apply last_snoc. Qed.

Lemma truthyColor_opponent c :
  truthyColor (Some (getOpponentColor c)) = Some (getOpponentColor c).
Proof. unfold getOpponentColor. destruct (String.eqb c "white"); reflexivity. Qed.

(** The board two steps of undo rebuild from the board [landOn] left, when
    the checker that was moved has the colour recorded in the history. *)
Lemma undo_restores_board s from t tgt nb :
  Taken s from nb (currentPlayer s) ->
  js_nth (points nb) (t - 1) = Some tgt ->
  from <> Pt t ->
  let player := currentPlayer s in
  let landed := popPoint (t - 1) (landOn player t player tgt nb) in
  let back :=
    match from with
    | Bar => addBar player 1 landed
    | Pt p => pushPoint (p - 1) player landed
    end in
  (if hitsBlot player tgt
   then pushPoint (t - 1) (getOpponentColor player)
          (addBar (getOpponentColor player) (-1) back)
   else back) = boardState s.
Proof.
  intros Htk Htgt Hne player landed back.
  assert (Hsingle : hitsBlot player tgt = true -> tgt = [getOpponentColor player]).
  { unfold hitsBlot. intros H. apply andb_true_iff in H as [H1 H2].
    apply Z.eqb_eq in H1. apply firstIs_single; assumption. }
  subst back landed. unfold landOn.
  inversion Htk as [Hpos Hfrom Hnb Hmv|p src mv Hsrc Hlast Hfirst Hfrom Hnb Hmv];
    subst from nb; try subst mv.
  - (* from the bar *)
    apply board_ext;
      destruct (hitsBlot player tgt) eqn:Hhit;
      unfold pushPoint, popPoint, addBar; cbn [points bar home];
      rewrite ?white_tally_add, ?black_tally_add; try reflexivity;
      try (unfold player;
           repeat match goal with
                  | |- context [if ?c then _ else _] => destruct c
                  end; lia).
    + intros i. rewrite !js_nth_alter.
      destruct (Z.eqb_spec (t - 1) i) as [<-|]; [|reflexivity].
      unfold addBar in Htgt. cbn [points] in Htgt. rewrite Htgt.
      rewrite (Hsingle eq_refl). cbn. reflexivity.
    + intros i. rewrite !js_nth_alter.
      destruct (Z.eqb_spec (t - 1) i) as [<-|]; [|reflexivity].
      unfold addBar in Htgt. cbn [points] in Htgt. rewrite Htgt.
      cbn [fmap option_fmap option_map]. rewrite pop_push. reflexivity.
  - (* from a point *)
    assert (Hpt : p - 1 <> t - 1) by (intros E; apply Hne; f_equal; lia).
    unfold popPoint in Htgt. cbn [points] in Htgt.
    rewrite js_nth_alter_ne in Htgt by exact Hpt.
    apply board_ext;
      destruct (hitsBlot player tgt) eqn:Hhit;
      unfold pushPoint, popPoint, addBar; cbn [points bar home];
      rewrite ?white_tally_add, ?black_tally_add; try reflexivity;
      try (unfold player;
           repeat match goal with
                  | |- context [if ?c then _ else _] => destruct c
                  end; lia).
    + intros i. rewrite !js_nth_alter.
      destruct (Z.eqb_spec (t - 1) i) as [<-|Hti].
      * destruct (Z.eqb_spec (p - 1) (t - 1)); [contradiction|].
        rewrite Htgt, (Hsingle eq_refl). cbn. reflexivity.
      * destruct (Z.eqb_spec (p - 1) i) as [<-|]; [|reflexivity].
        rewrite Hsrc. cbn [fmap option_fmap option_map].
        unfold player. rewrite (push_pop _ _ Hlast). reflexivity.
    + intros i. rewrite !js_nth_alter.
      destruct (Z.eqb_spec (t - 1) i) as [<-|Hti].
      * destruct (Z.eqb_spec (p - 1) (t - 1)); [contradiction|].
        rewrite Htgt. cbn [fmap option_fmap option_map]. rewrite pop_push.
        reflexivity.
      * destruct (Z.eqb_spec (p - 1) i) as [<-|]; [|reflexivity].
        rewrite Hsrc. cbn [fmap option_fmap option_map].
        unfold player. rewrite (push_pop _ _ Hlast). reflexivity.
Qed.

Lemma undoFinish_fields s s0 r nb :
  boardState (undoFinish s s0 r nb) = nb /\
  availableDice (undoFinish s s0 r nb) = sortDesc (availableDice s ++ usedDice r) /\
  moveHistory (undoFinish s s0 r nb) = moveHistory s0.
Proof.
  unfold undoFinish. destruct (tally_pos (bar nb) (currentPlayer s)); auto.
Qed.

(** A move to a point followed at once by an undo restores the board and
    the history, and returns the dice used (the dice are kept in descending
    order), whenever the checker taken from the source, its top checker, has
    the colour of the player who moves.  That is the case on every point that
    holds one colour. *)
Lemma move_then_undo_restores s from t dice nb tgt :
  Taken s from nb (currentPlayer s) ->
  js_nth (points nb) (t - 1) = Some tgt ->
  1 <= t <= 24 -> from <> Pt t ->
  exists s2,
    undoLastMove (landChecker s from t dice nb (currentPlayer s) tgt) = Some s2 /\
    boardState s2 = boardState s /\
    moveHistory s2 = moveHistory s /\
    availableDice s2 = sortDesc (consumeDice dice (availableDice s) ++ dice).
Proof.
  intros Htk Htgt Ht Hne.
  pose proof (undo_restores_board s from t tgt nb Htk Htgt Hne) as Hboard.
  cbv zeta in Hboard.
  set (player := currentPlayer s) in *.
  set (s1 := landChecker s from t dice nb player tgt).
  set (r := recordOf player from t tgt dice).
  set (landed := popPoint (t - 1) (landOn player t player tgt nb)) in *.
  set (back := match from with
               | Bar => addBar player 1 landed
               | Pt p => pushPoint (p - 1) player landed
               end) in *.
  assert (Hhist : moveHistory s1 = moveHistory s ++ [r])
    by apply moveHistory_landChecker.
  assert (Hb1 : boardState s1 = landOn player t player tgt nb)
    by apply boardState_landChecker.
  assert (Hbo : (t =? 0) || (t =? 25) = false) by apply not_bearOff_target, Ht.
  (* the checkers on the target after the move *)
  assert (Htop : exists rest,
             js_nth (points (landOn player t player tgt nb)) (t - 1)
             = Some (push player rest)).
  { unfold landOn, pushPoint. cbn [points]. rewrite js_nth_alter, Z.eqb_refl.
    destruct (hitsBlot player tgt); unfold addBar, popPoint; cbn [points].
    - rewrite js_nth_alter, Z.eqb_refl, Htgt. eexists. reflexivity.
    - rewrite Htgt. eexists. reflexivity. }
  destruct Htop as [rest Htop].
  assert (Hback : undoMoveBack r (setMoveHistory (moveHistory s) s1)
                  = Some (inr back)).
  { unfold undoMoveBack. cbn [boardState setMoveHistory]. rewrite Hb1.
    subst r. cbn [recordOf toPoint fromPoint checkerColor].
    rewrite Hbo, Htop, last_push, String.eqb_refl. cbn [negb].
    subst back. destruct from as [|p]; [reflexivity|].
    fold landed.
    assert (Hpt : p - 1 <> t - 1) by (intros E; apply Hne; f_equal; lia).
    inversion Htk as [|p' src mv Hsrc Hlast Hfirst Hp' Hnb Hmv]. subst p'.
    assert (Hsome : exists cs, js_nth (points landed) (p - 1) = Some cs).
    { subst landed. unfold popPoint, landOn, pushPoint. cbn [points].
      rewrite !js_nth_alter.
      destruct (Z.eqb_spec (t - 1) (p - 1)); [lia|].
      destruct (hitsBlot player tgt); unfold addBar, popPoint; cbn [points];
        rewrite ?js_nth_alter;
        try (destruct (Z.eqb_spec (t - 1) (p - 1)); [lia|]);
        rewrite <- Hnb; unfold popPoint; cbn [points];
        rewrite js_nth_alter, Z.eqb_refl, Hsrc; eexists; reflexivity. }
    destruct Hsome as [cs ->]. reflexivity. }
  assert (Hhit : undoHit r back
                 = if hitsBlot player tgt
                   then pushPoint (t - 1) (getOpponentColor player)
                          (addBar (getOpponentColor player) (-1) back)
                   else back).
  { unfold undoHit. subst r. cbn [recordOf hitOpponentChecker hitCheckerColor toPoint].
    destruct (hitsBlot player tgt); [|reflexivity].
    rewrite truthyColor_opponent.
    apply orb_false_iff in Hbo as [-> ->]. reflexivity. }
  unfold undoLastMove. rewrite Hhist, last_snoc, removelast_last, Hback.
  eexists. split; [reflexivity|].
  destruct (undoFinish_fields s1 (setMoveHistory (moveHistory s) s1) r (undoHit r back))
    as (Hf1 & Hf2 & Hf3).
  rewrite Hf1, Hf2, Hf3, Hhit, Hboard. repeat split.
  unfold s1. rewrite availableDice_landChecker. reflexivity.
Qed.

(** The same for a complete call of [performMove] from a point of one
    colour: the state after [performMove] and [undoLastMove] has the board
    and the history of the state before. *)
Lemma performMove_then_undo s f t dice src tgt :
  js_nth (points (boardState s)) (f - 1) = Some src ->
  firstIs src (currentPlayer s) = true ->
  last src = Some (currentPlayer s) ->
  js_nth (points (boardState s)) (t - 1) = Some tgt ->
  f <> t -> 1 <= t <= 24 ->
  exists s1 s2,
    performMove s (Pt f) t dice = Some s1 /\
    undoLastMove s1 = Some s2 /\
    boardState s2 = boardState s /\
    moveHistory s2 = moveHistory s /\
    availableDice s2 = sortDesc (consumeDice dice (availableDice s) ++ dice).
Proof.
  intros Hsrc Hfirst Hlast Htgt Hft Ht.
  eexists. 
  destruct (move_then_undo_restores s (Pt f) t dice
              (popPoint (f - 1) (boardState s)) tgt) as (s2 & H1 & H2);
    [econstructor; eauto| |exact Ht| |].
  - unfold popPoint. cbn [points]. rewrite js_nth_alter_ne by lia. exact Htgt.
  - intros [= E]. contradiction.
  - exists s2. split; [|split; [exact H1|exact H2]].
    apply performMove_lands with (src := src); auto; lia.
Qed.

Lemma indexFrom_lookup k l x :
  indexFrom k l x <> -1 -> 0 <= k ->
  l !! Z.to_nat (indexFrom k l x - k) = Some x.
Proof.
  revert k. induction l as [|y l IH]; intros k; simpl; [tauto|].
  destruct (Z.eqb_spec y x) as [->|Hne].
  - intros _ _. replace (k - k) with 0 by lia. reflexivity.
  - intros H Hk. specialize (IH (k + 1) H ltac:(lia)).
    destruct (indexFrom_range (k + 1) l x) as [E|E]; [contradiction|].
    replace (Z.to_nat (indexFrom (k + 1) l x - k))
      with (S (Z.to_nat (indexFrom (k + 1) l x - (k + 1)))) by lia.
    exact IH.
Qed.

Lemma spliceDie_Permutation d l :
  -1 < indexOf l d -> Permutation (d :: spliceDie d l) l.
Proof.
  intros H. unfold spliceDie. apply Z.ltb_lt in H as H'. rewrite H'.
  symmetry. apply delete_Permutation.
  pose proof (indexFrom_lookup 0 l d ltac:(unfold indexOf in H; lia) ltac:(lia)) as Hl.
  rewrite Z.sub_0_r in Hl. exact Hl.
Qed.

Lemma insertDesc_Permutation x l : Permutation (insertDesc x l) (x :: l).
Proof.
  induction l as [|y l IH]; simpl; [reflexivity|].
  destruct (y <=? x); [reflexivity|].
  rewrite IH. apply perm_swap.
Qed.

Lemma sortDesc_Permutation l : Permutation (sortDesc l) l.
Proof.
  induction l as [|x l IH]; simpl; [reflexivity|].
  rewrite insertDesc_Permutation, IH. reflexivity.
Qed.

(** The dice after a move and its undo are, as a multiset, the dice before
    when the dice consumed were available. *)
Lemma refunded_dice_Permutation used : forall avail,
  diceAvailable used avail = true ->
  Permutation (sortDesc (consumeDice used avail ++ used)) avail.
Proof.
  intros avail H. rewrite sortDesc_Permutation. revert avail H.
  induction used as [|d used IH]; intros avail H.
  - unfold consumeDice. simpl. rewrite app_nil_r. reflexivity.
  - simpl in H. apply andb_true_iff in H as [Hd Hrest]. apply Z.ltb_lt in Hd.
    change (consumeDice (d :: used) avail) with (consumeDice used (spliceDie d avail)).
    rewrite <- Permutation_middle, (IH _ Hrest).
    apply spliceDie_Permutation, Hd.
Qed.

(** ** Mixed points *)

(** C2: after White's opening 12 to 11 and 12 to 10, Black rolls 3 and 5 and
    plays 7 to 10.  The single White checker of point 10 is not sent to the
    bar: the point holds a White and a Black checker. *)
Theorem black_lands_on_white_blot :
  exists s,
    reachable s /\
    run (withEffects blackLandsOnBlot) mountedGame = Some s /\
    checkersAt (boardState s) 9 = ["white"; "black"] /\
    mixedPoint (checkersAt (boardState s) 9) = true /\
    bar (boardState s) = mkTally 0 0.
Proof.
  destruct (run (withEffects blackLandsOnBlot) mountedGame) as [s|] eqn:E;
    [|vm_compute in E; discriminate].
  exists s. split; [eapply run_reachable; [apply reach_mount|exact E]|].
  split; [reflexivity|].
  vm_compute in E. injection E as <-. repeat split.
Qed.

(** C6: in the state reached by [whiteSelectsPoint10] point 10 holds a White
    checker below a Black one and White has selected it.  The offered move
    to point 9 with the die 1 takes the top (Black) checker; the undo then
    finds no White checker on point 9, reports an error and restores neither
    the board nor the dice. *)
Theorem undo_fails_after_move_from_mixed_point :
  exists s s1 s2,
    reachable s /\
    run (withEffects whiteSelectsPoint10) mountedGame = Some s /\
    selectedPoint s = Some 10 /\
    In (mkMove 9 [1]) (possibleMovesInfo s) /\
    handlePointClick s 9 = performMove s (Pt 10) 9 [1] /\
    performMove s (Pt 10) 9 [1] = Some s1 /\
    undoLastMove s1 = Some s2 /\
    checkersAt (boardState s) 9 = ["white"; "black"] /\
    checkersAt (boardState s) 8 = [] /\
    availableDice s = [1; 2] /\
    checkersAt (boardState s2) 9 = ["white"] /\
    checkersAt (boardState s2) 8 = ["black"] /\
    availableDice s2 = [2] /\
    gameMessage s2 = MsgErrorUndoing /\
    boardState s2 <> boardState s.
Proof.
  destruct (run (withEffects whiteSelectsPoint10) mountedGame) as [s|] eqn:E;
    [|vm_compute in E; discriminate].
  assert (Hr : reachable s) by (eapply run_reachable; [apply reach_mount|exact E]).
  vm_compute in E. injection E as E.
  destruct (performMove s (Pt 10) 9 [1]) as [s1|] eqn:E1;
    [|subst s; vm_compute in E1; discriminate].
  destruct (undoLastMove s1) as [s2|] eqn:E2;
    [|subst s; vm_compute in E1; injection E1 as <-; vm_compute in E2; discriminate].
  exists s, s1, s2. split; [exact Hr|]. split; [reflexivity|].
  subst s. vm_compute in E1. injection E1 as <-.
  vm_compute in E2. injection E2 as <-.
  repeat split; try (vm_compute; reflexivity).
  - vm_compute. auto.
  - intros H. apply (f_equal (fun b => checkersAt b 8)) in H.
    vm_compute in H. discriminate.
Qed.

(** ** More on the dice arrays *)

Lemma insertAsc_Permutation x l : Permutation (insertAsc x l) (x :: l).
Proof.
  induction l as [|y l IH]; simpl; [reflexivity|].
  destruct (x <=? y); [reflexivity|].
  rewrite IH. apply perm_swap.
Qed.

Lemma sortAsc_Permutation l : Permutation (sortAsc l) l.
Proof.
  induction l as [|x l IH]; simpl; [reflexivity|].
  rewrite insertAsc_Permutation, IH. reflexivity.
Qed.

Lemma sumDice_from l : forall a, fold_left Z.add l a = a + sumDice l.
Proof.
  unfold sumDice. induction l as [|x l IH]; intros a; simpl; [lia|].
  rewrite (IH (a + x)), (IH (0 + x)). lia.
Qed.

Lemma sumDice_cons x l : sumDice (x :: l) = x + sumDice l.
Proof. unfold sumDice at 1. simpl. apply sumDice_from. Qed.

Lemma sumDice_app l1 l2 : sumDice (l1 ++ l2) = sumDice l1 + sumDice l2.
Proof.
  induction l1 as [|x l1 IH]; simpl; [reflexivity|].
  rewrite !sumDice_cons, IH. lia.
Qed.

Lemma sumDice_Permutation l1 l2 : Permutation l1 l2 -> sumDice l1 = sumDice l2.
Proof.
  induction 1; rewrite ?sumDice_cons in *; lia.
Qed.

Lemma sumDice_sortAsc l : sumDice (sortAsc l) = sumDice l.
Proof. apply sumDice_Permutation, sortAsc_Permutation. Qed.

Lemma sumDice_faces l : Forall face l -> l <> [] -> 1 <= sumDice l.
Proof.
  intros H. induction H as [|x l Hx Hl IH]; [congruence|]. intros _.
  rewrite sumDice_cons. unfold face in Hx.
  destruct l as [|y l]; [unfold sumDice; simpl; lia|].
  specialize (IH ltac:(discriminate)). lia.
Qed.

Lemma delete_found_Permutation (l : list Z) d :
  -1 < indexOf l d -> Permutation (d :: delete (Z.to_nat (indexOf l d)) l) l.
Proof.
  intros H. pose proof (spliceDie_Permutation d l H) as Hp.
  unfold spliceDie in Hp. apply Z.ltb_lt in H. rewrite H in Hp. exact Hp.
Qed.

(** ** The steps of the move generator *)

Lemma path_index w i t :
  js_nth (pathOf w) i = Some t -> indexOf (pathOf w) t = i.
Proof.
  intros H. pose proof (js_nth_Some_range _ _ _ H) as Hr.
  assert (Hi : In i boardIndices).
  { apply boardIndices_range. destruct w; exact Hr. }
  unfold boardIndices in Hi. cbn in Hi.
  destruct w;
    repeat (destruct Hi as [<-|Hi]; [vm_compute in H; injection H as <-; reflexivity|]);
    destruct Hi.
Qed.

(** One level of [findAllMoves]: a move it pushes comes from a die [d] of
    the remaining dice, a valid step with that die from the current point to a
    point [t], and is that step or a move of the recursive call from [t]. *)
Lemma findAllMoves_step fuel player from idx dice b pathDice m :
  In m (findAllMoves (S fuel) player from idx dice b pathDice) ->
  exists d temp t bo,
    In d dice /\
    takeChecker player from b = Some temp /\
    checkSingleStepLogic player from idx d temp false = mkStep (Some t) true bo /\
    (bo = false -> isPointBlocked (t - 1) player (simulateHit player t temp) = false) /\
    Permutation (d :: delete (Z.to_nat (indexOf (sortAsc dice) d)) (sortAsc dice)) dice /\
    (m = mkMove t (sortAsc (pathDice ++ [d])) \/
     In m (findAllMoves fuel player (Pt t)
             (if bo then pathLength (String.eqb player "white")
              else indexOf (pathOf (String.eqb player "white")) t)
             (delete (Z.to_nat (indexOf (sortAsc dice) d)) (sortAsc dice))
             (landStep player t bo temp)
             (sortAsc (pathDice ++ [d])))).
Proof.
  cbn [findAllMoves].
  destruct (Z.of_nat (length dice) =? 0); [intros []|].
  intros H. apply in_flat_map in H as (d & Hd & H).
  destruct (Z.ltb_spec (-1) (indexOf (sortAsc dice) d)) as [Hidx|]; [|destruct H].
  destruct (takeChecker player from b) as [temp|] eqn:Htake; [|destruct H].
  destruct (checkSingleStepLogic player from idx d temp false) as [[t|] v bo] eqn:Hstep;
    cbn [isValid targetGamePoint isBearingOff] in H;
    destruct v; try (destruct H; fail).
  rewrite <- Htake. exists d, temp, t, bo.
  split; [apply In_sortAsc, Hd|]. split; [exact Htake|]. split; [exact Hstep|].
  unfold landStep.
  assert (Hperm : Permutation (d :: delete (Z.to_nat (indexOf (sortAsc dice) d)) (sortAsc dice)) dice).
  { rewrite (delete_found_Permutation _ _ Hidx). apply sortAsc_Permutation. }
  destruct bo; cbn [negb] in H |- *.
  - split; [discriminate|]. split; [exact Hperm|].
    destruct H as [<-|H]; [left; reflexivity|right].
    destruct (_ && _); [exact H|destruct H].
  - destruct (isPointBlocked (t - 1) player (simulateHit player t temp)) eqn:Hb;
      [destruct H|].
    split; [reflexivity|]. split; [exact Hperm|].
    destruct H as [<-|H]; [left; reflexivity|right].
    destruct (_ && _); [exact H|destruct H].
Qed.

(** ** The options of the move generator *)

Lemma paidFrom_sorted dice m :
  paidFrom dice m -> paidFrom dice (mkMove (targetPoint m) (sortAsc (diceUsed m))).
Proof.
  intros [Hne Hsub]. split; cbn [diceUsed].
  - intros E. apply Hne. apply (f_equal length) in E. rewrite length_sortAsc in E.
    destruct (diceUsed m); [reflexivity|discriminate].
  - rewrite sortAsc_Permutation. exact Hsub.
Qed.

Lemma findAllMoves_paid player fuel :
  forall from idx dice b pathDice dice0,
    Permutation (pathDice ++ dice) dice0 ->
    Forall (paidFrom dice0) (findAllMoves fuel player from idx dice b pathDice).
Proof.
  induction fuel as [|fuel IH]; intros from idx dice b pathDice dice0 Hperm;
    [constructor|].
  apply List.Forall_forall. intros m Hm.
  apply findAllMoves_step in Hm
    as (d & temp & t & bo & Hd & _ & _ & _ & Hdel & Hm).
  assert (Hnext : Permutation
            (sortAsc (pathDice ++ [d])
             ++ delete (Z.to_nat (indexOf (sortAsc dice) d)) (sortAsc dice)) dice0).
  { rewrite sortAsc_Permutation, <- app_assoc. cbn [app]. rewrite Hdel. exact Hperm. }
  destruct Hm as [-> | Hm].
  - split; cbn [diceUsed].
    + intros E. apply (f_equal length) in E.
      rewrite length_sortAsc, length_app in E. simpl in E. lia.
    + rewrite <- Hnext. apply submseteq_inserts_r. reflexivity.
  - pose proof (IH (Pt t)
                  (if bo then pathLength (String.eqb player "white")
                   else indexOf (pathOf (String.eqb player "white")) t)
                  _ (landStep player t bo temp) _ _ Hnext) as IH'.
    rewrite List.Forall_forall in IH'. apply IH', Hm.
Qed.

Lemma calculatePossibleMoves_paid flag src dice player b :
  Forall (paidFrom dice) (calculatePossibleMoves flag src dice player b).
Proof.
  unfold calculatePossibleMoves.
  destruct (flag && isBar src).
  - apply Forall_flat_map_intro. intros die Hdie.
    destruct (targetGamePoint _); [|constructor].
    destruct (isValid _); [|constructor].
    constructor; [|constructor]. split; cbn [diceUsed]; [discriminate|].
    apply singleton_submseteq_l, list_elem_of_In, Hdie.
  - destruct src as [|p]; [constructor|].
    destruct (js_nth (points b) (p - 1)); [|constructor].
    destruct (negb (firstIs l player)); [constructor|].
    destruct (_ =? -1); [constructor|].
    apply uniqueMoves_Forall; [apply paidFrom_sorted|].
    apply findAllMoves_paid. reflexivity.
Qed.

(** X1: every option returned by [calculatePossibleMoves] is paid with dice
    of the roll: its [diceUsed] is not empty and is a sub-multiset of the
    dice passed in, whatever the board, the source and the dice are. *)
Theorem options_are_paid_from_the_roll flag src dice player b :
  Forall (paidFrom dice) (calculatePossibleMoves flag src dice player b).
Proof. apply calculatePossibleMoves_paid. Qed.

Lemma mapSet_keys key v m x :
  In x (map fst (mapSet key v m)) <-> x = key \/ In x (map fst m).
Proof.
  induction m as [|[k v0] m IH]; simpl; [intuition|].
  destruct (Z.eqb_spec k key) as [->|Hne]; simpl; [intuition|].
  rewrite IH. intuition.
Qed.

Lemma mapSet_NoDup key v m :
  List.NoDup (map fst m) -> List.NoDup (map fst (mapSet key v m)).
Proof.
  induction m as [|[k v0] m IH]; simpl; intros H.
  - constructor; [intros []|constructor].
  - apply List.NoDup_cons_iff in H as [Hk Hm].
    destruct (Z.eqb_spec k key) as [->|Hne]; simpl;
      apply List.NoDup_cons_iff; [auto|].
    split; [|auto]. rewrite mapSet_keys. intros [E|E]; [congruence|auto].
Qed.

(** The map of [uniqueMoves] holds each key once, and under a key an option
    with that target. *)
Lemma fold_uniqueStep_keys l : forall m,
  List.NoDup (map fst m) -> Forall (fun kv => targetPoint (snd kv) = fst kv) m ->
  List.NoDup (map fst (fold_left uniqueStep l m))
  /\ Forall (fun kv => targetPoint (snd kv) = fst kv) (fold_left uniqueStep l m).
Proof.
  induction l as [|mv l IH]; simpl; intros m Hnd Hkey; [auto|].
  apply IH; unfold uniqueStep; cbn [targetPoint diceUsed];
    destruct (mapGet (targetPoint mv) m);
    repeat match goal with
           | |- context [if ?c then _ else _] => destruct c
           end; auto using mapSet_NoDup;
    apply Forall_mapSet; auto.
Qed.

Lemma calculatePossibleMoves_targets flag p dice player b :
  List.NoDup (map targetPoint (calculatePossibleMoves flag (Pt p) dice player b)).
Proof.
  unfold calculatePossibleMoves. cbn [isBar]. rewrite andb_false_r.
  destruct (js_nth (points b) (p - 1)); [|constructor].
  destruct (negb (firstIs l player)); [constructor|].
  destruct (_ =? -1); [constructor|].
  unfold uniqueMoves.
  destruct (fold_uniqueStep_keys
              (findAllMoves (length dice) player (Pt p)
                 (indexOf (pathOf (String.eqb player "white")) p) dice b []) [])
    as [Hnd Hkey]; [constructor|constructor|].
  rewrite map_map.
  erewrite map_ext_in; [exact Hnd|].
  intros kv Hkv. rewrite List.Forall_forall in Hkey. apply Hkey, Hkv.
Qed.

(** X2: the options returned for a checker on a point have distinct
    targets: the map that filters the moves keeps one option for each target
    point, whatever the board and the dice are. *)
Theorem options_of_a_point_have_distinct_targets flag p dice player b :
  List.NoDup (map targetPoint (calculatePossibleMoves flag (Pt p) dice player b)).
Proof. apply calculatePossibleMoves_targets. Qed.

(** X3: with die faces no bear-off is ever offered: every option that
    [calculatePossibleMoves] returns, for the bar or for a point, on any
    board, has a point from 1 to 24 as its target, never the bear-off targets
    0 and 25. *)
Theorem no_bearOff_is_offered flag src dice player b :
  Forall face dice ->
  Forall (fun m => 1 <= targetPoint m <= 24)
         (calculatePossibleMoves flag src dice player b).
Proof.
  intros Hdice.
  eapply Forall_impl; [apply calculatePossibleMoves_boardMove, Hdice|].
  intros m [H _]. exact H.
Qed.

(** The theorem for the checker that White has left on point 3 and a die of
    5: the option leads to point 22. *)
Lemma no_bearOff_is_offered_witness :
  calculatePossibleMoves false (Pt 3) [5] "white" loneCheckerOnThree = [mkMove 22 [5]] /\
  Forall (fun m => 1 <= targetPoint m <= 24)
         (calculatePossibleMoves false (Pt 3) [5] "white" loneCheckerOnThree).
Proof.
  split; [vm_compute; reflexivity|].
  apply (no_bearOff_is_offered false (Pt 3) [5] "white" loneCheckerOnThree).
  constructor; [unfold face; lia|constructor].
Defined.

(** ** Where the options lead *)

Lemma isPointBlocked_ext i c b1 b2 :
  js_nth (points b1) i = js_nth (points b2) i ->
  isPointBlocked i c b1 = isPointBlocked i c b2.
Proof. unfold isPointBlocked. intros ->. reflexivity. Qed.

Lemma points_simulateHit c t b i :
  i <> t - 1 ->
  js_nth (points (simulateHit c t b)) i = js_nth (points b) i.
Proof.
  intros Hne. unfold simulateHit. destruct (_ && _); [|reflexivity].
  unfold addBar, popPoint. cbn [points]. apply js_nth_alter_ne. lia.
Qed.

Lemma points_landStep c t b i :
  i <> t - 1 ->
  js_nth (points (landStep c t false b)) i = js_nth (points b) i.
Proof.
  intros Hne. unfold landStep, pushPoint. cbn [points].
  rewrite js_nth_alter_ne by lia. apply points_simulateHit, Hne.
Qed.

Lemma takeChecker_point c q b temp :
  takeChecker c (Pt q) b = Some temp -> temp = popPoint (q - 1) b.
Proof.
  unfold takeChecker. destruct (js_nth (points b) (q - 1)); [|discriminate].
  destruct (_ || _); [discriminate|]. intros [= <-]. reflexivity.
Qed.

(** A valid step with a die face from a point: it leads to the point that
    lies [d] further on the path, which is a point of the board on which the
    player is not blocked; it is no bear-off. *)
Lemma step_from_point player q d b t bo :
  face d ->
  checkSingleStepLogic player (Pt q)
    (indexOf (pathOf (String.eqb player "white")) q) d b false
  = mkStep (Some t) true bo ->
  bo = false /\ pointAhead (String.eqb player "white") q d = Some t
  /\ 1 <= t <= 24 /\ isPointBlocked (t - 1) player b = false.
Proof.
  intros Hd. pose proof (checkSingleStepLogic_face player q d b Hd) as E.
  cbv zeta in E. rewrite E. clear E. unfold pointAhead, regularStep.
  destruct (pathLength _ <=? _); [discriminate|].
  destruct (js_nth _ _) as [t'|]; [|discriminate].
  destruct ((1 <=? t') && (t' <=? 24)) eqn:Hr; [|discriminate].
  destruct (isPointBlocked (t' - 1) player b) eqn:Hb; cbn [negb]; [discriminate|].
  intros [= <- <-]. apply andb_true_iff in Hr as [H1 H2].
  apply Z.leb_le in H1, H2. auto.
Qed.

Lemma findAllMoves_landsAhead player fuel :
  forall q dice cur pathDice p b0,
    Forall face dice ->
    indexOf (pathOf (String.eqb player "white")) q
    = indexOf (pathOf (String.eqb player "white")) p + sumDice pathDice ->
    sameAhead (String.eqb player "white")
      (indexOf (pathOf (String.eqb player "white")) q) cur b0 ->
    Forall (landsAhead player p b0)
      (findAllMoves fuel player (Pt q)
         (indexOf (pathOf (String.eqb player "white")) q) dice cur pathDice).
Proof.
  set (w := String.eqb player "white").
  induction fuel as [|fuel IH]; intros q dice cur pathDice p b0 Hdice Hidx Hsame;
    [constructor|].
  apply List.Forall_forall. intros m Hm.
  apply findAllMoves_step in Hm
    as (d & temp & t & bo & Hd & Htake & Hstep & _ & Hdel & Hm).
  assert (Hface : face d).
  { rewrite List.Forall_forall in Hdice. apply Hdice, Hd. }
  fold w in Hstep, Hm.
  destruct (step_from_point player q d temp t bo Hface Hstep)
    as (-> & Hahead & Ht & Hfree).
  fold w in Hahead. unfold pointAhead in Hahead.
  pose proof (path_index w _ _ Hahead) as Hti.
  apply takeChecker_point in Htake. subst temp.
  assert (Hsum : sumDice (sortAsc (pathDice ++ [d])) = sumDice pathDice + d).
  { rewrite sumDice_sortAsc, sumDice_app. unfold sumDice at 2. simpl. lia. }
  assert (Hqt : q - 1 <> t - 1).
  { intros E. assert (q = t) by lia. subst q. unfold face in Hface. lia. }
  destruct Hm as [-> | Hm].
  - split; cbn [targetPoint diceUsed].
    + unfold pointAhead. fold w. rewrite Hsum, <- Hahead. f_equal. lia.
    + rewrite <- Hfree. symmetry.
      rewrite isPointBlocked_popPoint_other by lia.
      apply isPointBlocked_ext, Hsame. unfold face in Hface. lia.
  - cbn [negb] in Hm.
    assert (Hall : Forall (landsAhead player p b0)
              (findAllMoves fuel player (Pt t) (indexOf (pathOf w) t)
                 (delete (Z.to_nat (indexOf (sortAsc dice) d)) (sortAsc dice))
                 (landStep player t false (popPoint (q - 1) cur))
                 (sortAsc (pathDice ++ [d])))).
    { apply IH.
      - apply Forall_delete_nat, Forall_sortAsc, Hdice.
      - rewrite Hsum, Hti. lia.
      - intros q' Hq'. rewrite Hti in Hq'.
        assert (Hne1 : q' - 1 <> t - 1).
        { intros E. assert (q' = t) by lia. subst q'. lia. }
        assert (Hne2 : q' - 1 <> q - 1).
        { intros E. assert (q' = q) by lia. subst q'. unfold face in Hface. lia. }
        rewrite points_landStep by exact Hne1.
        unfold popPoint. cbn [points]. rewrite js_nth_alter_ne by lia.
        apply Hsame. unfold face in Hface. lia. }
    rewrite List.Forall_forall in Hall. apply Hall, Hm.
Qed.

Lemma landsAhead_sorted player p b m :
  landsAhead player p b m ->
  landsAhead player p b (mkMove (targetPoint m) (sortAsc (diceUsed m))).
Proof.
  intros [H1 H2]. split; cbn [targetPoint diceUsed]; [|exact H2].
  rewrite sumDice_sortAsc. exact H1.
Qed.

(** The options for a point, as the two facts proved of them. *)
Lemma calculatePossibleMoves_point flag p dice player b m :
  Forall face dice ->
  In m (calculatePossibleMoves flag (Pt p) dice player b) ->
  paidFrom dice m /\ landsAhead player p b m.
Proof.
  intros Hdice. unfold calculatePossibleMoves. cbn [isBar]. rewrite andb_false_r.
  destruct (js_nth (points b) (p - 1)); [|intros []].
  destruct (negb (firstIs l player)); [intros []|].
  destruct (_ =? -1); [intros []|].
  intros Hin. split.
  - assert (H : Forall (paidFrom dice)
                  (uniqueMoves (findAllMoves (length dice) player (Pt p)
                     (indexOf (pathOf (String.eqb player "white")) p) dice b []))).
    { apply uniqueMoves_Forall; [apply paidFrom_sorted|].
      apply findAllMoves_paid. reflexivity. }
    rewrite List.Forall_forall in H. apply H, Hin.
  - assert (H : Forall (landsAhead player p b)
                  (uniqueMoves (findAllMoves (length dice) player (Pt p)
                     (indexOf (pathOf (String.eqb player "white")) p) dice b []))).
    { apply uniqueMoves_Forall; [apply landsAhead_sorted|].
      apply findAllMoves_landsAhead; [exact Hdice|unfold sumDice; simpl; lia|].
      intros q _. reflexivity. }
    rewrite List.Forall_forall in H. apply H, Hin.
Qed.

(** X4: with die faces, every option returned for a checker on point [p]
    leads to the point that lies the sum of the option's dice further on the
    path of the colour, and the colour is not blocked on that point of the
    board. *)
Theorem options_of_a_point_land_ahead flag p dice player b :
  Forall face dice ->
  Forall (landsAhead player p b) (calculatePossibleMoves flag (Pt p) dice player b).
Proof.
  intros Hdice. apply List.Forall_forall. intros m Hm.
  apply (calculatePossibleMoves_point flag p dice player b m Hdice Hm).
Qed.

Lemma faces_1_2 : Forall face [1; 2].
Proof. repeat (constructor; [unfold face; lia|]). constructor. Qed.

(** The theorem for White's point 12 on the starting layout with a roll of
    1 and 2: the options lead to the points 11, 9 and 10. *)
Lemma options_of_a_point_land_ahead_witness :
  calculatePossibleMoves false (Pt 12) [1; 2] "white" initializeBoard
  = [mkMove 11 [1]; mkMove 9 [1; 2]; mkMove 10 [2]] /\
  Forall (landsAhead "white" 12 initializeBoard)
         (calculatePossibleMoves false (Pt 12) [1; 2] "white" initializeBoard).
Proof.
  split; [exact calculatePossibleMoves_opening|].
  exact (options_of_a_point_land_ahead false 12 [1; 2] "white" initializeBoard
           faces_1_2).
Defined.

(** ** Every single step is offered *)

Lemma mapGet_mapSet_eq key v m : mapGet key (mapSet key v m) = Some v.
Proof.
  induction m as [|[k v0] m IH]; simpl; [rewrite Z.eqb_refl; reflexivity|].
  destruct (Z.eqb_spec k key) as [->|Hne]; simpl.
  - rewrite Z.eqb_refl. reflexivity.
  - destruct (Z.eqb_spec k key); [contradiction|]. exact IH.
Qed.

Lemma mapGet_mapSet_ne key k' v m :
  k' <> key -> mapGet k' (mapSet key v m) = mapGet k' m.
Proof.
  intros Hne. induction m as [|[k v0] m IH]; simpl.
  - destruct (Z.eqb_spec key k'); [congruence|reflexivity].
  - destruct (Z.eqb_spec k key) as [->|Hk]; simpl.
    + destruct (Z.eqb_spec key k'); [congruence|reflexivity].
    + rewrite IH. reflexivity.
Qed.

Lemma mapGet_In key m v : mapGet key m = Some v -> In (key, v) m.
Proof.
  induction m as [|[k v0] m IH]; simpl; [discriminate|].
  destruct (Z.eqb_spec k key) as [->|Hne]; [intros [= ->]; auto|auto].
Qed.

(** An iteration of the filter never makes the option kept under a key
    longer. *)
Lemma uniqueStep_kept m mv k e :
  mapGet k m = Some e ->
  exists e', mapGet k (uniqueStep m mv) = Some e'
             /\ (length (diceUsed e') <= length (diceUsed e))%nat.
Proof.
  intros Hk. unfold uniqueStep. cbn [targetPoint diceUsed].
  destruct (Z.eq_dec k (targetPoint mv)) as [->|Hne].
  - rewrite Hk.
    repeat match goal with
           | |- context [if ?c then _ else _] => destruct c eqn:?
           end;
      rewrite ?mapGet_mapSet_eq; eexists; (split; [eassumption || reflexivity|]);
      cbn [diceUsed]; lia.
  - assert (Hset : forall v, mapGet k (mapSet (targetPoint mv) v m) = Some e).
    { intros v. rewrite mapGet_mapSet_ne by exact Hne. exact Hk. }
    destruct (mapGet (targetPoint mv) m);
      repeat match goal with
             | |- context [if ?c then _ else _] => destruct c
             end; rewrite ?Hset; eauto.
Qed.

(** After the iteration for a move, the key of its target holds an option
    with at most as many dice. *)
Lemma uniqueStep_added m mv :
  exists e, mapGet (targetPoint mv) (uniqueStep m mv) = Some e
            /\ (length (diceUsed e) <= length (diceUsed mv))%nat.
Proof.
  unfold uniqueStep. cbn [targetPoint diceUsed].
  destruct (mapGet (targetPoint mv) m) as [ex|] eqn:Hg.
  - destruct (diceDiffer (sortAsc (diceUsed mv)) (sortAsc (diceUsed ex))) eqn:Hdiff.
    + rewrite !length_sortAsc.
      destruct (Z.ltb_spec (Z.of_nat (length (diceUsed mv)))
                           (Z.of_nat (length (diceUsed ex)))).
      { rewrite mapGet_mapSet_eq. eexists. split; [reflexivity|].
        cbn [diceUsed]. rewrite length_sortAsc. lia. }
      destruct (Z.eqb_spec (Z.of_nat (length (diceUsed mv)))
                           (Z.of_nat (length (diceUsed ex)))).
      { destruct (_ <? _).
        - rewrite mapGet_mapSet_eq. eexists. split; [reflexivity|].
          cbn [diceUsed]. rewrite length_sortAsc. lia.
        - exists ex. split; [exact Hg|lia]. }
      exists ex. split; [exact Hg|lia].
    + exists ex. split; [exact Hg|].
      unfold diceDiffer in Hdiff. apply negb_false_iff, bool_decide_eq_true in Hdiff.
      apply (f_equal length) in Hdiff. rewrite !length_sortAsc in Hdiff. lia.
  - rewrite mapGet_mapSet_eq. eexists. split; [reflexivity|].
    cbn [diceUsed]. rewrite length_sortAsc. lia.
Qed.

Lemma fold_uniqueStep_kept l : forall m k e,
  mapGet k m = Some e ->
  exists e', mapGet k (fold_left uniqueStep l m) = Some e'
             /\ (length (diceUsed e') <= length (diceUsed e))%nat.
Proof.
  induction l as [|mv l IH]; simpl; intros m k e Hk; [eauto|].
  destruct (uniqueStep_kept m mv k e Hk) as (e1 & H1 & Hl1).
  destruct (IH _ _ _ H1) as (e2 & H2 & Hl2). exists e2. split; [exact H2|lia].
Qed.

Lemma fold_uniqueStep_added l : forall m mv,
  In mv l ->
  exists e, mapGet (targetPoint mv) (fold_left uniqueStep l m) = Some e
            /\ (length (diceUsed e) <= length (diceUsed mv))%nat.
Proof.
  induction l as [|mv0 l IH]; simpl; intros m mv Hin; [destruct Hin|].
  destruct Hin as [->|Hin]; [|apply IH, Hin].
  destruct (uniqueStep_added m mv) as (e1 & H1 & Hl1).
  destruct (fold_uniqueStep_kept l _ _ _ H1) as (e2 & H2 & Hl2).
  exists e2. split; [exact H2|lia].
Qed.

(** For every move the filter keeps an option with the same target and with
    at most as many dice. *)
Lemma uniqueMoves_shortest l mv :
  In mv l ->
  exists e, In e (uniqueMoves l) /\ targetPoint e = targetPoint mv
            /\ (length (diceUsed e) <= length (diceUsed mv))%nat.
Proof.
  intros Hin. destruct (fold_uniqueStep_added l [] mv Hin) as (e & Hg & Hl).
  apply mapGet_In in Hg.
  destruct (fold_uniqueStep_keys l []) as [_ Hkey]; [constructor|constructor|].
  rewrite List.Forall_forall in Hkey. specialize (Hkey _ Hg). cbn in Hkey.
  exists e. split; [|auto]. unfold uniqueMoves. apply in_map_iff.
  exists (targetPoint mv, e). auto.
Qed.

(** The first level of [findAllMoves] pushes the single step with a die
    [d] of the roll from a point whose bottom checker is the player's, when
    the point [d] further on the path is not blocked. *)
Lemma findAllMoves_single fuel player p cs dice b d t :
  1 <= p <= 24 ->
  js_nth (points b) (p - 1) = Some cs -> firstIs cs player = true ->
  face d -> In d dice ->
  pointAhead (String.eqb player "white") p d = Some t ->
  isPointBlocked (t - 1) player b = false ->
  In (mkMove t [d])
     (findAllMoves (S fuel) player (Pt p)
        (indexOf (pathOf (String.eqb player "white")) p) dice b []).
Proof.
  intros Hp Hcs Hfirst Hface Hd Hahead Hfree. cbn [findAllMoves].
  set (w := String.eqb player "white") in *.
  set (idx := indexOf (pathOf w) p) in *.
  destruct (Z.eqb_spec (Z.of_nat (length dice)) 0) as [H0|H0].
  { destruct dice; [destruct Hd|simpl in H0; lia]. }
  apply in_flat_map. exists d. split; [apply In_sortAsc, Hd|].
  pose proof (indexOf_In (sortAsc dice) d (proj2 (In_sortAsc d dice) Hd)) as Hidx.
  apply Z.ltb_lt in Hidx. rewrite Hidx.
  unfold takeChecker. rewrite Hcs, (firstIs_length _ _ Hfirst), Hfirst. cbn [negb orb].
  pose proof (checkSingleStepLogic_face player p d (popPoint (p - 1) b) Hface) as Hstep.
  cbv zeta in Hstep. fold w in Hstep. fold idx in Hstep. rewrite Hstep.
  assert (Hi : In (p - 1) boardIndices) by (apply boardIndices_range; lia).
  pose proof (pathFact_holds w (p - 1) d Hi Hface) as Hpath.
  unfold pathFact in Hpath. replace (p - 1 + 1) with p in Hpath by lia.
  fold idx in Hpath. cbv zeta in Hpath.
  unfold pointAhead in Hahead. fold idx in Hahead.
  pose proof (js_nth_Some_range _ _ _ Hahead) as Hr.
  assert (Hlen : (pathLength w <=? idx + d) = false).
  { apply Z.leb_gt. unfold pathLength. lia. }
  rewrite Hlen in Hpath |- *. rewrite Hahead in Hpath.
  apply andb_true_iff in Hpath as [_ Hpath].
  apply andb_true_iff in Hpath as [Hrange Hne].
  apply negb_true_iff, Z.eqb_neq in Hne.
  unfold regularStep. fold w. rewrite Hahead, Hrange.
  rewrite isPointBlocked_popPoint_other by lia. rewrite Hfree.
  cbn [negb isValid targetGamePoint isBearingOff].
  rewrite isPointBlocked_simulateHit
    by (rewrite isPointBlocked_popPoint_other by lia; exact Hfree).
  left. reflexivity.
Qed.

(** X5: every single step is offered.  For a checker on a point whose bottom
    checker is the player's, a die [d] of the roll and the point [t] that lies
    [d] further on the path: when the player is not blocked on [t], the
    options returned hold the move to [t] with the die [d] alone. *)
Theorem single_steps_are_offered flag b player p cs dice d t :
  1 <= p <= 24 ->
  js_nth (points b) (p - 1) = Some cs -> firstIs cs player = true ->
  Forall face dice -> In d dice ->
  pointAhead (String.eqb player "white") p d = Some t ->
  isPointBlocked (t - 1) player b = false ->
  In (mkMove t [d]) (calculatePossibleMoves flag (Pt p) dice player b).
Proof.
  intros Hp Hcs Hfirst Hdice Hd Hahead Hfree.
  assert (Hface : face d).
  { rewrite List.Forall_forall in Hdice. apply Hdice, Hd. }
  unfold calculatePossibleMoves. cbn [isBar]. rewrite andb_false_r.
  rewrite Hcs, Hfirst. cbn [negb].
  set (w := String.eqb player "white") in *.
  assert (Hi : In (p - 1) boardIndices) by (apply boardIndices_range; lia).
  pose proof (pathFact_holds w (p - 1) d Hi Hface) as Hpath.
  unfold pathFact in Hpath. replace (p - 1 + 1) with p in Hpath by lia.
  cbv zeta in Hpath.
  apply andb_true_iff in Hpath as [Hpath _].
  apply andb_true_iff in Hpath as [Hpath _]. apply Z.leb_le in Hpath.
  destruct (Z.eqb_spec (indexOf (pathOf w) p) (-1)); [lia|].
  assert (Hsound : Forall (landsAhead player p b)
            (uniqueMoves (findAllMoves (length dice) player (Pt p)
                            (indexOf (pathOf w) p) dice b []))).
  { apply uniqueMoves_Forall; [apply landsAhead_sorted|].
    apply findAllMoves_landsAhead; [exact Hdice|unfold sumDice; simpl; lia|].
    intros q _. reflexivity. }
  assert (Hpaid : Forall (paidFrom dice)
            (uniqueMoves (findAllMoves (length dice) player (Pt p)
                            (indexOf (pathOf w) p) dice b []))).
  { apply uniqueMoves_Forall; [apply paidFrom_sorted|].
    apply findAllMoves_paid. reflexivity. }
  revert Hsound Hpaid.
  destruct dice as [|d0 dice']; [destruct Hd|].
  intros Hsound Hpaid.
  set (dice := d0 :: dice') in *.
  pose proof (findAllMoves_single (length dice') player p cs dice b d t
                Hp Hcs Hfirst Hface Hd Hahead Hfree) as Hin.
  fold w in Hin. change (S (length dice')) with (length dice) in Hin.
  destruct (uniqueMoves_shortest _ _ Hin) as (e & He & Ht & Hl).
  cbn [targetPoint diceUsed length] in Ht, Hl.
  rewrite List.Forall_forall in Hsound, Hpaid.
  destruct (Hsound e He) as [Hsum _]. destruct (Hpaid e He) as [Hne _].
  destruct e as [te [|x [|y de]]]; cbn [targetPoint diceUsed length] in *;
    [congruence| |lia].
  subst te. fold w in Hsum.
  replace (sumDice [x]) with x in Hsum by (unfold sumDice; simpl; lia).
  unfold pointAhead in Hsum, Hahead.
  apply path_index in Hsum, Hahead.
  assert (x = d) by lia. subst x. exact He.
Qed.

(** The theorem for White's point 12 on the starting layout, a roll of 1 and
    2 and the die 2: point 10 is empty, and the step to it is offered. *)
Lemma single_steps_are_offered_witness :
  pointAhead (String.eqb "white" "white") 12 2 = Some 10 /\
  In (mkMove 10 [2])
     (calculatePossibleMoves false (Pt 12) [1; 2] "white" initializeBoard).
Proof.
  split; [reflexivity|].
  apply (single_steps_are_offered false initializeBoard "white" 12
           ["white"; "white"] [1; 2] 2 10);
    [lia|reflexivity|reflexivity|exact faces_1_2|simpl; auto
    |reflexivity|reflexivity].
Defined.

(** From the last point of a path no die face leads to a point: whatever
    the board and the roll, no option is returned for a checker there. *)
Lemma pathEnd_index w p : last (pathOf w) = Some p -> indexOf (pathOf w) p = 23.
Proof. destruct w; intros [= <-]; reflexivity. Qed.

Lemma paidFrom_faces dice m :
  Forall face dice -> paidFrom dice m -> 1 <= sumDice (diceUsed m).
Proof.
  intros Hdice [Hne Hsub]. apply sumDice_faces; [|exact Hne].
  rewrite List.Forall_forall in *. intros x Hx. apply Hdice.
  apply list_elem_of_In. eapply elem_of_submseteq; [|exact Hsub].
  apply list_elem_of_In, Hx.
Qed.

Lemma calculatePossibleMoves_source flag p dice player b m :
  In m (calculatePossibleMoves flag (Pt p) dice player b) ->
  exists cs, js_nth (points b) (p - 1) = Some cs /\ firstIs cs player = true.
Proof.
  unfold calculatePossibleMoves. cbn [isBar]. rewrite andb_false_r.
  destruct (js_nth (points b) (p - 1)) as [cs|]; [|intros []].
  destruct (firstIs cs player) eqn:Hf; cbn [negb]; [|intros []].
  intros _. eauto.
Qed.

(** X6: a checker on the last point of its path (point 13 for White, point
    12 for Black) has no move: with die faces no option is returned for it,
    whatever the board is. *)
Theorem no_option_from_the_path_end flag p dice player b :
  Forall face dice ->
  last (pathOf (String.eqb player "white")) = Some p ->
  calculatePossibleMoves flag (Pt p) dice player b = [].
Proof.
  intros Hdice Hlast.
  destruct (calculatePossibleMoves flag (Pt p) dice player b) as [|m l] eqn:E;
    [reflexivity|exfalso].
  destruct (calculatePossibleMoves_point flag p dice player b m Hdice)
    as [Hpaid [Hahead _]]; [rewrite E; left; reflexivity|].
  pose proof (paidFrom_faces dice m Hdice Hpaid) as Hsum.
  unfold pointAhead in Hahead. apply js_nth_Some_range in Hahead.
  rewrite (pathEnd_index _ _ Hlast) in Hahead.
  destruct (String.eqb player "white"); cbn in Hahead; lia.
Qed.

(** The theorem for the White checkers on point 13 of the board on which
    Black holds the points 1 to 6, with a roll of 3 and 5. *)
Lemma no_option_from_the_path_end_witness :
  firstIs (checkersAt shutOutBoard 12) "white" = true /\
  calculatePossibleMoves false (Pt 13) [3; 5] "white" shutOutBoard = [].
Proof.
  split; [reflexivity|].
  apply (no_option_from_the_path_end false 13 [3; 5] "white" shutOutBoard);
    [|reflexivity].
  repeat (constructor; [unfold face; lia|]). constructor.
Defined.

(** ** Playing an option *)

Lemma consumeDice_cons d used avail :
  consumeDice (d :: used) avail = consumeDice used (spliceDie d avail).
Proof. reflexivity. Qed.

(** Consuming dice that are available removes exactly those dice. *)
Lemma consumeDice_submseteq used : forall avail,
  submseteq used avail -> Permutation (consumeDice used avail ++ used) avail.
Proof.
  induction used as [|d used IH]; intros avail Hsub.
  - unfold consumeDice. simpl. rewrite app_nil_r. reflexivity.
  - rewrite consumeDice_cons.
    assert (Hd : -1 < indexOf avail d).
    { apply indexOf_In, list_elem_of_In.
      eapply elem_of_submseteq; [|exact Hsub]. left. }
    pose proof (spliceDie_Permutation d avail Hd) as Hp.
    apply submseteq_cons_l in Hsub as (k & Hk & Hsub).
    assert (Hk' : Permutation (spliceDie d avail) k).
    { apply (Permutation_cons_inv (a := d)). rewrite Hp. exact Hk. }
    rewrite <- Hk' in Hsub.
    rewrite <- Permutation_middle, (IH _ Hsub). exact Hp.
Qed.

Lemma gameMessage_landChecker s from t dice nb moved tgt :
  gameMessage (landChecker s from t dice nb moved tgt) = MsgMoveMade.
Proof. unfold landChecker, endTurnIfStuck. destruct (_ || _); reflexivity. Qed.

(** What makes an offered option playable: the source point, its checkers,
    and the target point with its checkers. *)
Lemma offered_option_lands s f m flag :
  wfBoard (boardState s) -> Forall face (availableDice s) ->
  In m (calculatePossibleMoves flag (Pt f) (availableDice s) (currentPlayer s)
          (boardState s)) ->
  exists src moved tgt,
    js_nth (points (boardState s)) (f - 1) = Some src /\
    firstIs src (currentPlayer s) = true /\
    last src = Some moved /\
    js_nth (points (boardState s)) (targetPoint m - 1) = Some tgt /\
    f <> targetPoint m /\ 1 <= targetPoint m <= 24 /\
    submseteq (diceUsed m) (availableDice s).
Proof.
  intros Hwf Hdice Hin.
  destruct (calculatePossibleMoves_source _ _ _ _ _ _ Hin) as (src & Hsrc & Hfirst).
  destruct (calculatePossibleMoves_point _ _ _ _ _ _ Hdice Hin)
    as [Hpaid [Hahead _]].
  pose proof (paidFrom_faces _ _ Hdice Hpaid) as Hsum.
  pose proof (calculatePossibleMoves_boardMove flag (Pt f) _ (currentPlayer s)
                (boardState s) Hdice) as Hbm.
  rewrite List.Forall_forall in Hbm. destruct (Hbm m Hin) as [Ht _].
  destruct (wfBoard_point _ _ Hwf Ht) as [tgt Htgt].
  assert (Hmoved : exists moved, last src = Some moved).
  { destruct src as [|x src]; [discriminate|].
    destruct (last (x :: src)) eqn:E; [eauto|].
    apply last_None in E. discriminate. }
  destruct Hmoved as [moved Hmoved].
  exists src, moved, tgt. repeat split; try assumption; try lia; [|apply Hpaid].
  intros ->. unfold pointAhead in Hahead. apply path_index in Hahead. lia.
Qed.

(** White has rolled 1 and 2 at the start of the match and has selected
    point 12: the options shown are those of the point. *)
Lemma selected12State_facts :
  isPlaying selected12State = true /\ mustReenterFromBar selected12State = false /\
  selectedPoint selected12State = Some 12 /\
  wfBoard (boardState selected12State) /\
  Forall face (availableDice selected12State) /\
  possibleMovesInfo selected12State
  = calculatePossibleMoves false (Pt 12) (availableDice selected12State)
      (currentPlayer selected12State) (boardState selected12State) /\
  In (mkMove 9 [1; 2]) (possibleMovesInfo selected12State) /\
  js_nth (points (boardState selected12State)) (12 - 1) = Some ["white"; "white"] /\
  last ["white"; "white"] = Some (currentPlayer selected12State).
Proof.
  refine (conj _ (conj _ (conj _ (conj _ (conj _ (conj _ (conj _ (conj _ _))))))));
    vm_compute; try reflexivity; auto.
  repeat (constructor; [split; discriminate|]). constructor.
Qed.

(** X7: an offered option can be played.  On a board with its 24 points and
    with die faces, [performMove] called for an option that
    [calculatePossibleMoves] returns for a point and the current player makes
    the move (no error message, no exception) and takes exactly the dice of
    the option out of the available dice. *)
Theorem offered_options_can_be_played s f m flag :
  wfBoard (boardState s) -> Forall face (availableDice s) ->
  In m (calculatePossibleMoves flag (Pt f) (availableDice s) (currentPlayer s)
          (boardState s)) ->
  exists s',
    performMove s (Pt f) (targetPoint m) (diceUsed m) = Some s' /\
    gameMessage s' = MsgMoveMade /\
    Permutation (availableDice s' ++ diceUsed m) (availableDice s).
Proof.
  intros Hwf Hdice Hin.
  destruct (offered_option_lands s f m flag Hwf Hdice Hin)
    as (src & moved & tgt & Hsrc & Hfirst & Hlast & Htgt & Hne & Ht & Hsub).
  eexists. split.
  - apply (performMove_lands s f (targetPoint m) (diceUsed m) src tgt moved);
      auto; lia.
  - split; [apply gameMessage_landChecker|].
    rewrite availableDice_landChecker. apply consumeDice_submseteq, Hsub.
Qed.

(** The theorem for White's opening roll of 1 and 2, point 12 selected and
    the option to point 9 that uses both dice. *)
Lemma offered_options_can_be_played_witness :
  exists s',
    performMove selected12State (Pt 12) 9 [1; 2] = Some s' /\
    gameMessage s' = MsgMoveMade /\
    Permutation (availableDice s' ++ [1; 2]) (availableDice selected12State).
Proof.
  destruct selected12State_facts as (_ & _ & _ & Hwf & Hd & Hm & Hin & _ & _).
  rewrite Hm in Hin.
  exact (offered_options_can_be_played selected12State 12 (mkMove 9 [1; 2]) false
           Hwf Hd Hin).
Defined.

(** X8: a move and its undo.  When the option is played from a point whose
    top checker is the player's own, [undoLastMove] right after [performMove]
    gives back the board (points, bar and home counts) and the history of
    before, and the available dice are those of before up to their order. *)
Theorem offered_move_then_undo s f m flag src :
  wfBoard (boardState s) -> Forall face (availableDice s) ->
  In m (calculatePossibleMoves flag (Pt f) (availableDice s) (currentPlayer s)
          (boardState s)) ->
  js_nth (points (boardState s)) (f - 1) = Some src ->
  last src = Some (currentPlayer s) ->
  exists s1 s2,
    performMove s (Pt f) (targetPoint m) (diceUsed m) = Some s1 /\
    undoLastMove s1 = Some s2 /\
    boardState s2 = boardState s /\
    moveHistory s2 = moveHistory s /\
    Permutation (availableDice s2) (availableDice s).
Proof.
  intros Hwf Hdice Hin Hsrc Hlast.
  destruct (offered_option_lands s f m flag Hwf Hdice Hin)
    as (src' & moved & tgt & Hsrc' & Hfirst & _ & Htgt & Hne & Ht & Hsub).
  rewrite Hsrc in Hsrc'. injection Hsrc' as <-.
  destruct (performMove_then_undo s f (targetPoint m) (diceUsed m) src tgt
              Hsrc Hfirst Hlast Htgt Hne Ht)
    as (s1 & s2 & H1 & H2 & H3 & H4 & H5).
  exists s1, s2. repeat split; try assumption.
  rewrite H5, sortDesc_Permutation. apply consumeDice_submseteq, Hsub.
Qed.

(** The theorem for the same option: after the move and its undo the board,
    the history and the dice are those of before. *)
Lemma offered_move_then_undo_witness :
  exists s1 s2,
    performMove selected12State (Pt 12) 9 [1; 2] = Some s1 /\
    undoLastMove s1 = Some s2 /\
    boardState s2 = boardState selected12State /\
    moveHistory s2 = moveHistory selected12State /\
    Permutation (availableDice s2) (availableDice selected12State).
Proof.
  destruct selected12State_facts as (_ & _ & _ & Hwf & Hd & Hm & Hin & Hsrc & Hlast).
  rewrite Hm in Hin.
  exact (offered_move_then_undo selected12State 12 (mkMove 9 [1; 2]) false
           ["white"; "white"] Hwf Hd Hin Hsrc Hlast).
Defined.

(** ** A click on a target that is shown *)

Lemma findTarget_unique moves m :
  List.NoDup (map targetPoint moves) -> In m moves ->
  findTarget (targetPoint m) moves = Some m.
Proof.
  unfold findTarget. induction moves as [|m0 moves IH]; intros Hnd Hin;
    [destruct Hin|].
  cbn [map] in Hnd. apply List.NoDup_cons_iff in Hnd as [Hhead Hnd].
  cbn [find]. destruct (Z.eqb_spec (targetPoint m0) (targetPoint m)) as [E|E].
  - destruct Hin as [->|Hin]; [reflexivity|]. exfalso. apply Hhead.
    rewrite E. apply in_map, Hin.
  - destruct Hin as [->|Hin]; [contradiction|]. apply IH; assumption.
Qed.

(** X9: a click on a target that is shown plays the option shown for it.
    When a point [p] is selected and [possibleMovesInfo] holds the options of
    that point for the available dice, a click on the target of one of them
    calls [performMove] from [p] to that target with the dice of that option:
    no other option has the same target, and the target is not [p]. *)
Theorem click_on_a_shown_target_plays_its_option s p m flag :
  isPlaying s = true -> mustReenterFromBar s = false ->
  selectedPoint s = Some p ->
  Forall face (availableDice s) ->
  possibleMovesInfo s
  = calculatePossibleMoves flag (Pt p) (availableDice s) (currentPlayer s)
      (boardState s) ->
  In m (possibleMovesInfo s) ->
  handlePointClick s (targetPoint m)
  = performMove s (Pt p) (targetPoint m) (diceUsed m).
Proof.
  intros Hplay Hbar Hsel Hdice Hmoves Hin.
  pose proof Hin as Hin'. rewrite Hmoves in Hin'.
  destruct (calculatePossibleMoves_point _ _ _ _ _ _ Hdice Hin')
    as [Hpaid [Hahead _]].
  pose proof (paidFrom_faces _ _ Hdice Hpaid) as Hsum.
  assert (Hne : targetPoint m <> p).
  { intros E. rewrite E in Hahead. unfold pointAhead in Hahead.
    apply path_index in Hahead. lia. }
  assert (Hav : (Z.of_nat (length (availableDice s)) =? 0) = false).
  { destruct Hpaid as [Hnil Hsub]. apply submseteq_length in Hsub.
    destruct (diceUsed m); [congruence|]. simpl in Hsub. apply Z.eqb_neq. lia. }
  assert (Hfind : findTarget (targetPoint m) (possibleMovesInfo s) = Some m).
  { apply findTarget_unique; [|exact Hin].
    rewrite Hmoves. apply calculatePossibleMoves_targets. }
  unfold handlePointClick. rewrite Hplay, Hav, Hsel, Hbar, Hfind. cbn [negb orb].
  rewrite bool_decide_eq_false_2 by congruence. reflexivity.
Qed.

(** The theorem for White's opening roll of 1 and 2, point 12 selected and
    a click on point 9, the target of the option that uses both dice. *)
Lemma click_on_a_shown_target_plays_its_option_witness :
  In (mkMove 9 [1; 2]) (possibleMovesInfo selected12State) /\
  handlePointClick selected12State 9 = performMove selected12State (Pt 12) 9 [1; 2].
Proof.
  destruct selected12State_facts as (H1 & H2 & H3 & _ & H4 & H5 & H6 & _ & _).
  split; [exact H6|].
  exact (click_on_a_shown_target_plays_its_option selected12State 12
           (mkMove 9 [1; 2]) false H1 H2 H3 H4 H5 H6).
Defined.

(** ** All checkers in the home board *)

Lemma includesZ_In l x : includesZ l x = true <-> In x l.
Proof.
  unfold includesZ. rewrite existsb_exists. split.
  - intros (y & Hy & E). apply Z.eqb_eq in E. subst. exact Hy.
  - intros H. exists x. split; [exact H|apply Z.eqb_refl].
Qed.

Lemma countColor_nonneg cs c : 0 <= countColor cs c.
Proof. unfold countColor. lia. Qed.

(** The loop of [areAllCheckersInHomeBoard]: it runs to its end when every
    index with a checker of the player is the index of a home point, and then
    it has added up the checkers of the player on those indices. *)
Lemma homeLoop_spec c hp b idxs : forall acc,
  homeLoop c hp b idxs acc
  = if forallb (fun i => negb (0 <? countColor (checkersAt b i) c)
                         || includesZ hp (i + 1)) idxs
    then Some (acc + fold_right (fun i a => countColor (checkersAt b i) c + a) 0 idxs)
    else None.
Proof.
  induction idxs as [|i idxs IH]; intros acc; cbn [homeLoop forallb fold_right].
  - f_equal. lia.
  - pose proof (countColor_nonneg (checkersAt b i) c) as Hn.
    destruct (Z.ltb_spec 0 (countColor (checkersAt b i) c)) as [Hpos|Hzero];
      cbn [negb orb andb].
    + destruct (includesZ hp (i + 1)); cbn [negb andb]; [|reflexivity].
      rewrite IH. destruct (forallb _ idxs); [f_equal; lia|reflexivity].
    + rewrite IH. destruct (forallb _ idxs); [f_equal; lia|reflexivity].
Qed.

Lemma onBoard_indices c b :
  wfBoard b ->
  onBoard c b
  = fold_right (fun i a => countColor (checkersAt b i) c + a) 0 boardIndices.
Proof.
  destruct b as [pts br hm]. unfold wfBoard, onBoard, checkersAt. cbn [points].
  intros Hlen.
  do 24 (destruct pts as [|? pts]; [discriminate Hlen|]).
  destruct pts; [|discriminate Hlen]. reflexivity.
Qed.

(** X10: [areAllCheckersInHomeBoard] answers true exactly when the player
    has no checker on the bar, every point that holds a checker of the player
    is one of the six home points of the colour, and the checkers borne off
    and the checkers of the player on the points are 15 together. *)
Theorem areAllCheckersInHomeBoard_spec c b :
  wfBoard b ->
  (areAllCheckersInHomeBoard c b = true <->
   tally_pos (bar b) c = false /\
   (forall i, 0 <= i < 24 -> 0 < countColor (checkersAt b i) c ->
      In (i + 1) (homePointsFor (String.eqb c "white"))) /\
   exists n, tally_get (home b) c = Some n /\ n + onBoard c b = 15).
Proof.
  intros Hwf. unfold areAllCheckersInHomeBoard. cbv zeta.
  rewrite homeLoop_spec, (onBoard_indices c b Hwf).
  set (hp := homePointsFor (String.eqb c "white")).
  set (total := fold_right (fun i a => countColor (checkersAt b i) c + a) 0 boardIndices).
  assert (Hall : forallb (fun i => negb (0 <? countColor (checkersAt b i) c)
                                   || includesZ hp (i + 1)) boardIndices = true
                 <-> forall i, 0 <= i < 24 -> 0 < countColor (checkersAt b i) c ->
                       In (i + 1) hp).
  { rewrite forallb_forall. split.
    - intros H i Hi Hpos. specialize (H i (proj2 (boardIndices_range i) Hi)).
      apply Z.ltb_lt in Hpos. rewrite Hpos in H. apply includesZ_In, H.
    - intros H i Hi. apply boardIndices_range in Hi.
      destruct (Z.ltb_spec 0 (countColor (checkersAt b i) c)); [|reflexivity].
      apply includesZ_In, H; assumption. }
  destruct (tally_pos (bar b) c).
  { split; [discriminate|]. intros [H _]. discriminate H. }
  destruct (forallb _ boardIndices).
  - destruct (tally_get (home b) c) as [n|].
    + rewrite Z.eqb_eq. split.
      * intros H. split; [reflexivity|]. split; [apply Hall; reflexivity|].
        exists n. split; [reflexivity|]. lia.
      * intros (_ & _ & n' & [= <-] & H). lia.
    + split; [discriminate|]. intros (_ & _ & n' & H & _). discriminate H.
  - split; [discriminate|]. intros (_ & H & _). apply Hall in H. discriminate H.
Qed.

(** The theorem for the board on which White has borne off 14 checkers and
    has one checker left, on point 3. *)
Lemma areAllCheckersInHomeBoard_spec_witness :
  areAllCheckersInHomeBoard "white" loneCheckerOnThree = true /\
  (areAllCheckersInHomeBoard "white" loneCheckerOnThree = true <->
   tally_pos (bar loneCheckerOnThree) "white" = false /\
   (forall i, 0 <= i < 24 ->
      0 < countColor (checkersAt loneCheckerOnThree i) "white" ->
      In (i + 1) (homePointsFor (String.eqb "white" "white"))) /\
   exists n, tally_get (home loneCheckerOnThree) "white" = Some n
             /\ n + onBoard "white" loneCheckerOnThree = 15).
Proof.
  split; [vm_compute; reflexivity|].
  apply (areAllCheckersInHomeBoard_spec "white" loneCheckerOnThree). reflexivity.
Defined.

(** ** The end of a turn *)

Lemma endTurn_passes c s :
  seenPlaying c = true -> white (seenHome c) <> 15 -> black (seenHome c) <> 15 ->
  endTurn c s
  = setGameMessage (MsgTurnEnded (getOpponentColor (seenPlayer c)))
      (clearTurn (setCurrentPlayer (nextPlayer (currentPlayer s)) s)).
Proof.
  intros Hp Hw Hb. unfold endTurn. rewrite Hp. cbn [negb].
  destruct (Z.eqb_spec (white (seenHome c)) 15); [contradiction|].
  destruct (Z.eqb_spec (black (seenHome c)) 15); [contradiction|].
  reflexivity.
Qed.

(** X11: a roll that allows no move ends the turn by itself.  In a match
    that is played, with no [endTurn] pending, when [checkIfAnyPossibleMoves]
    finds no move for the dice rolled, [rollDiceHandler] schedules [endTurn];
    when that timer fires the turn passes to the other player with the board
    as it was, no dice and an empty history. *)
Theorem roll_without_a_move_passes_the_turn s die1 die2 :
  isPlaying s = true -> timers s = [] ->
  white (home (boardState s)) <> 15 -> black (home (boardState s)) <> 15 ->
  checkIfAnyPossibleMoves (boardState s) (currentPlayer s)
    (if die1 =? die2 then [die1; die1; die1; die1] else [die1; die2]) = false ->
  exists s',
    fireTimer 0 (rollDiceHandler s die1 die2 s) = Some s' /\
    boardState s' = boardState s /\
    availableDice s' = [] /\ moveHistory s' = [] /\ timers s' = [] /\
    currentPlayer s' = nextPlayer (currentPlayer s).
Proof.
  intros Hp Ht Hw Hb Hcheck. unfold rollDiceHandler. rewrite Hp. cbn [negb].
  cbv zeta. rewrite Hcheck. cbn [negb]. rewrite andb_true_r.
  assert (Hc : seenPlaying (closureOf s) = true /\
               white (seenHome (closureOf s)) <> 15 /\
               black (seenHome (closureOf s)) <> 15).
  { unfold closureOf. cbn. auto. }
  destruct Hc as (Hc1 & Hc2 & Hc3).
  destruct (tally_pos (bar (boardState s)) (currentPlayer s));
    unfold fireTimer, scheduleEndTurn; proj_simpl; rewrite Ht;
    cbn [app lookup list_lookup delete list_delete];
    rewrite (endTurn_passes _ _ Hc1 Hc2 Hc3);
    eexists; (split; [reflexivity|]); proj_simpl; repeat split.
Qed.

Lemma shutOutState_facts :
  isPlaying shutOutState = true /\ timers shutOutState = [] /\
  white (home (boardState shutOutState)) <> 15 /\
  black (home (boardState shutOutState)) <> 15 /\
  checkIfAnyPossibleMoves (boardState shutOutState) (currentPlayer shutOutState)
    (if 3 =? 5 then [3; 3; 3; 3] else [3; 5]) = false /\
  currentPlayer shutOutState = "white".
Proof.
  refine (conj _ (conj _ (conj _ (conj _ (conj _ _))))); vm_compute;
    try reflexivity; discriminate.
Qed.

(** The theorem when White, with a checker on the bar, rolls 3 and 5 and
    Black holds the points 1 to 6: the turn passes to Black. *)
Lemma roll_without_a_move_passes_the_turn_witness :
  exists s',
    fireTimer 0 (rollDiceHandler shutOutState 3 5 shutOutState) = Some s' /\
    boardState s' = boardState shutOutState /\
    availableDice s' = [] /\ moveHistory s' = [] /\ timers s' = [] /\
    currentPlayer s' = nextPlayer (currentPlayer shutOutState).
Proof.
  destruct shutOutState_facts as (H1 & H2 & H3 & H4 & H5 & _).
  exact (roll_without_a_move_passes_the_turn shutOutState 3 5 H1 H2 H3 H4 H5).
Defined.

Lemma undoLastMove_frame s s' :
  undoLastMove s = Some s' ->
  timers s' = timers s /\ currentPlayer s' = currentPlayer s
  /\ isPlaying s' = isPlaying s.
Proof.
  unfold undoLastMove.
  destruct (last (moveHistory s)) as [r|]; [|intros [= <-]; auto].
  destruct (undoMoveBack r _) as [[s1|nb]|] eqn:Hback; [| |discriminate].
  - apply undoMoveBack_message in Hback. intros [= <-]. subst s1. auto.
  - intros [= <-]. unfold undoFinish. destruct (tally_pos _ _); auto.
Qed.

(** X12: an undo does not cancel the [endTurn] that a move has scheduled.
    When a move from a point whose top checker is the player's own uses the
    last dice, [performMove] schedules [endTurn]; if the move is undone before
    the timer fires, the board and the history are those of before the move,
    and the timer still passes the turn to the other player and clears the
    dice. *)
Theorem undo_does_not_cancel_the_end_of_the_turn s f t dice src tgt :
  isPlaying s = true -> timers s = [] ->
  white (home (boardState s)) <> 15 -> black (home (boardState s)) <> 15 ->
  js_nth (points (boardState s)) (f - 1) = Some src ->
  firstIs src (currentPlayer s) = true ->
  last src = Some (currentPlayer s) ->
  js_nth (points (boardState s)) (t - 1) = Some tgt ->
  f <> t -> 1 <= t <= 24 ->
  consumeDice dice (availableDice s) = [] ->
  exists s1 s2 s3,
    performMove s (Pt f) t dice = Some s1 /\
    undoLastMove s1 = Some s2 /\
    boardState s2 = boardState s /\ moveHistory s2 = moveHistory s /\
    fireTimer 0 s2 = Some s3 /\
    boardState s3 = boardState s /\ availableDice s3 = [] /\
    currentPlayer s3 = nextPlayer (currentPlayer s).
Proof.
  intros Hp Htm Hw Hb Hsrc Hfirst Hlast Htgt Hft Ht Hdice.
  pose proof (performMove_lands s f t dice src tgt (currentPlayer s)
                Hsrc Hfirst Hlast Htgt Hft ltac:(lia) ltac:(lia)) as H1.
  set (s1 := landChecker s (Pt f) t dice (popPoint (f - 1) (boardState s))
               (currentPlayer s) tgt) in *.
  assert (Htimers : timers s1 = [closureOf s] /\ currentPlayer s1 = currentPlayer s).
  { unfold s1, landChecker, endTurnIfStuck. rewrite Hdice.
    change (Z.of_nat (length (@nil Z)) =? 0) with true. cbn [orb].
    proj_simpl. rewrite Htm. auto. }
  destruct Htimers as [Htimers Hplayer].
  destruct (move_then_undo_restores s (Pt f) t dice
              (popPoint (f - 1) (boardState s)) tgt)
    as (s2 & H2 & Hboard & Hhist & _).
  { econstructor; eauto. }
  { unfold popPoint. cbn [points]. rewrite js_nth_alter_ne by lia. exact Htgt. }
  { exact Ht. }
  { intros [= E]. contradiction. }
  fold s1 in H2.
  destruct (undoLastMove_frame _ _ H2) as (Ht2 & Hp2 & _).
  assert (Hc : seenPlaying (closureOf s) = true /\
               white (seenHome (closureOf s)) <> 15 /\
               black (seenHome (closureOf s)) <> 15).
  { unfold closureOf. cbn. auto. }
  destruct Hc as (Hc1 & Hc2 & Hc3).
  exists s1, s2. eexists.
  split; [exact H1|]. split; [exact H2|]. split; [exact Hboard|].
  split; [exact Hhist|].
  split.
  { unfold fireTimer. rewrite Ht2, Htimers. cbn [lookup list_lookup].
    rewrite (endTurn_passes _ _ Hc1 Hc2 Hc3). reflexivity. }
  proj_simpl. rewrite Hp2, Hplayer. auto.
Qed.

Lemma oneDieLeftState_facts :
  isPlaying oneDieLeftState = true /\ timers oneDieLeftState = [] /\
  white (home (boardState oneDieLeftState)) <> 15 /\
  black (home (boardState oneDieLeftState)) <> 15 /\
  js_nth (points (boardState oneDieLeftState)) (12 - 1) = Some ["white"] /\
  firstIs ["white"] (currentPlayer oneDieLeftState) = true /\
  last ["white"] = Some (currentPlayer oneDieLeftState) /\
  js_nth (points (boardState oneDieLeftState)) (10 - 1) = Some [] /\
  consumeDice [2] (availableDice oneDieLeftState) = [] /\
  In (mkMove 10 [2]) (possibleMovesInfo oneDieLeftState).
Proof.
  refine (conj _ (conj _ (conj _ (conj _ (conj _ (conj _ (conj _ (conj _ (conj _ _)))))))));
    vm_compute; try reflexivity; try discriminate; auto.
Qed.

(** The theorem when White has played 12 to 11 and plays the 2 that is left
    from point 12 to point 10, an option that is shown. *)
Lemma undo_does_not_cancel_the_end_of_the_turn_witness :
  In (mkMove 10 [2]) (possibleMovesInfo oneDieLeftState) /\
  exists s1 s2 s3,
    performMove oneDieLeftState (Pt 12) 10 [2] = Some s1 /\
    undoLastMove s1 = Some s2 /\
    boardState s2 = boardState oneDieLeftState /\
    moveHistory s2 = moveHistory oneDieLeftState /\
    fireTimer 0 s2 = Some s3 /\
    boardState s3 = boardState oneDieLeftState /\ availableDice s3 = [] /\
    currentPlayer s3 = nextPlayer (currentPlayer oneDieLeftState).
Proof.
  destruct oneDieLeftState_facts
    as (H1 & H2 & H3 & H4 & H5 & H6 & H7 & H8 & H9 & H10).
  split; [exact H10|].
  apply (undo_does_not_cancel_the_end_of_the_turn oneDieLeftState 12 10 [2]
           ["white"] [] H1 H2 H3 H4 H5 H6 H7 H8); [lia|lia|exact H9].
Defined.

(** X13: the button that simulates a win of White does not count the game
    at once.  The [endTurn] it calls still sees the home counts of its own
    render, so it passes the turn: the score is as before and the board holds
    15 White checkers borne off.  The game is counted by the next [endTurn]
    that is created after it: that one adds a game to White's score and sets
    up the starting layout with White to roll. *)
Theorem simulated_win_counts_at_the_next_endTurn seen s :
  isPlaying seen = true -> isPlaying s = true ->
  white (home (boardState seen)) <> 15 -> black (home (boardState seen)) <> 15 ->
  playerScore (simulateWin true seen s) = playerScore s /\
  white (home (boardState (simulateWin true seen s))) = 15 /\
  points (boardState (simulateWin true seen s)) = points (boardState seen) /\
  currentPlayer (simulateWin true seen s) = nextPlayer (currentPlayer s) /\
  playerScore (endTurn (closureOf (simulateWin true seen s)) (simulateWin true seen s))
    = playerScore s + 1 /\
  boardState (endTurn (closureOf (simulateWin true seen s)) (simulateWin true seen s))
    = initializeBoard /\
  currentPlayer (endTurn (closureOf (simulateWin true seen s)) (simulateWin true seen s))
    = "white".
Proof.
  intros Hp Hps Hw Hb. unfold simulateWin.
  rewrite (endTurn_passes (closureOf seen)); [|exact Hp|exact Hw|exact Hb].
  unfold endTurn, closureOf, forceHome. proj_simpl.
  cbn [seenPlaying seenHome home white]. rewrite Hps. cbn [negb].
  change (15 =? 15) with true. cbn iota. proj_simpl. repeat split.
Qed.

Lemma oneDieLeftState_playing :
  isPlaying oneDieLeftState = true /\
  white (home (boardState oneDieLeftState)) <> 15 /\
  black (home (boardState oneDieLeftState)) <> 15.
Proof. destruct oneDieLeftState_facts as (H1 & _ & H3 & H4 & _). auto. Qed.

(** The theorem when the button is pressed and confirmed in the middle of
    White's opening turn. *)
Lemma simulated_win_counts_at_the_next_endTurn_witness :
  playerScore (simulateWin true oneDieLeftState oneDieLeftState)
    = playerScore oneDieLeftState /\
  white (home (boardState (simulateWin true oneDieLeftState oneDieLeftState))) = 15 /\
  points (boardState (simulateWin true oneDieLeftState oneDieLeftState))
    = points (boardState oneDieLeftState) /\
  currentPlayer (simulateWin true oneDieLeftState oneDieLeftState)
    = nextPlayer (currentPlayer oneDieLeftState) /\
  playerScore (endTurn (closureOf (simulateWin true oneDieLeftState oneDieLeftState))
                 (simulateWin true oneDieLeftState oneDieLeftState))
    = playerScore oneDieLeftState + 1 /\
  boardState (endTurn (closureOf (simulateWin true oneDieLeftState oneDieLeftState))
                (simulateWin true oneDieLeftState oneDieLeftState))
    = initializeBoard /\
  currentPlayer (endTurn (closureOf (simulateWin true oneDieLeftState oneDieLeftState))
                   (simulateWin true oneDieLeftState oneDieLeftState))
    = "white".
Proof.
  destruct oneDieLeftState_playing as (H1 & H2 & H3).
  exact (simulated_win_counts_at_the_next_endTurn oneDieLeftState oneDieLeftState
           H1 H1 H2 H3).
Defined.

(** ** What play never changes *)

Lemma Steady_build s s' :
  Steady s ->
  home (boardState s') = home (boardState s) ->
  playerScore s' = playerScore s ->
  opponentScore s' = opponentScore s ->
  Forall (fun c => seenHome c = mkTally 0 0) (timers s') ->
  matchFormat s' = matchFormat s ->
  Forall (paidFrom (availableDice s')) (possibleMovesInfo s') ->
  (length (availableDice s') + spentDice (moveHistory s')
   <= length (availableDice s) + spentDice (moveHistory s))%nat ->
  Steady s'.
Proof.
  intros [H1 H2 H3 H4 H5 H6 H7] Hh Hp Ho Ht Hf Hm Hd.
  constructor; rewrite ?Hh, ?Hp, ?Ho, ?Hf; auto. lia.
Qed.

Ltac steady_fields HS :=
  proj_simpl; try reflexivity; try apply HS; try (constructor; fail);
  try (pose proof (st_dice _ HS); change (spentDice []) with 0%nat;
       cbn [length]; lia).

Lemma Steady_setGameMessage msg s : Steady s -> Steady (setGameMessage msg s).
Proof. intros H. apply (Steady_build s); [exact H|..]; steady_fields H. Qed.

Lemma Steady_schedule s0 s :
  Steady s0 -> Forall (fun c => seenHome c = mkTally 0 0) (timers s) ->
  Forall (fun c => seenHome c = mkTally 0 0) (timers s ++ [closureOf s0]).
Proof.
  intros H0 H. apply Forall_app. split; [exact H|].
  constructor; [apply H0|constructor].
Qed.

Lemma home_landOn player t moved tgt nb :
  home (landOn player t moved tgt nb) = home nb.
Proof. unfold landOn. destruct (hitsBlot player tgt); reflexivity. Qed.

Lemma Taken_home s from nb moved :
  Taken s from nb moved -> home nb = home (boardState s).
Proof. intros [Hpos|p src mv _ _ _]; reflexivity. Qed.

Lemma spentDice_app h1 h2 : spentDice (h1 ++ h2) = (spentDice h1 + spentDice h2)%nat.
Proof. unfold spentDice. rewrite flat_map_app, length_app. reflexivity. Qed.

Lemma spentDice_single r : spentDice [r] = length (usedDice r).
Proof. unfold spentDice. simpl. rewrite app_nil_r. reflexivity. Qed.

Lemma spentDice_last h r :
  last h = Some r ->
  spentDice h = (spentDice (removelast h) + length (usedDice r))%nat.
Proof.
  intros H. apply last_Some in H as [h' ->].
  rewrite removelast_last, spentDice_app, spentDice_single. reflexivity.
Qed.

Lemma consumeDice_length used avail :
  submseteq used avail ->
  (length (consumeDice used avail) + length used = length avail)%nat.
Proof.
  intros H. apply consumeDice_submseteq in H.
  apply Permutation_length in H. rewrite length_app in H. exact H.
Qed.

Lemma performMove_Steady s from t dice s' :
  Steady s -> 1 <= t <= 24 -> submseteq dice (availableDice s) ->
  performMove s from t dice = Some s' -> Steady s'.
Proof.
  intros HS Ht Hsub Hp.
  destruct (performMove_cases s from t dice s' Ht Hp)
    as [[msg ->]|(nb & moved & tgt & Htk & Htgt & ->)].
  { apply Steady_setGameMessage, HS. }
  apply (Steady_build s); [exact HS|..].
  - rewrite boardState_landChecker, home_landOn. apply (Taken_home _ _ _ _ Htk).
  - unfold landChecker, endTurnIfStuck. destruct (_ || _); reflexivity.
  - unfold landChecker, endTurnIfStuck. destruct (_ || _); reflexivity.
  - unfold landChecker, endTurnIfStuck. destruct (_ || _); proj_simpl;
      [apply Steady_schedule; [exact HS|]|]; apply HS.
  - unfold landChecker, endTurnIfStuck. destruct (_ || _); reflexivity.
  - rewrite possibleMovesInfo_landChecker. constructor.
  - rewrite availableDice_landChecker, moveHistory_landChecker.
    rewrite spentDice_app, spentDice_single. cbn [recordOf usedDice].
    pose proof (consumeDice_length dice (availableDice s) Hsub). lia.
Qed.

Lemma paidFrom_Permutation dice1 dice2 m :
  Permutation dice1 dice2 -> paidFrom dice1 m -> paidFrom dice2 m.
Proof. intros Hp [H1 H2]. split; [exact H1|]. rewrite <- Hp. exact H2. Qed.

Lemma undoMoveBack_home r s0 nb :
  1 <= toPoint r <= 24 ->
  undoMoveBack r s0 = Some (inr nb) -> home nb = home (boardState s0).
Proof.
  intros Ht. unfold undoMoveBack. rewrite (not_bearOff_target _ Ht).
  destruct (js_nth (points (boardState s0)) (toPoint r - 1)) as [tgt|];
    [|discriminate].
  destruct (last tgt) as [top|]; [|discriminate].
  destruct (negb (String.eqb top (checkerColor r))); [discriminate|].
  destruct (fromPoint r) as [|p]; [intros [= <-]; reflexivity|].
  destruct (js_nth _ (p - 1)); [|discriminate]. intros [= <-]. reflexivity.
Qed.

Lemma home_undoHit r nb : home (undoHit r nb) = home nb.
Proof.
  unfold undoHit.
  destruct (if hitOpponentChecker r then truthyColor (hitCheckerColor r) else None);
    [|reflexivity].
  destruct (_ && _); reflexivity.
Qed.

Lemma length_sortDesc l : length (sortDesc l) = length l.
Proof. apply Permutation_length, sortDesc_Permutation. Qed.

Lemma undoLastMove_Steady s s' :
  Inv s -> Steady s -> undoLastMove s = Some s' -> Steady s'.
Proof.
  intros HI HS. unfold undoLastMove.
  destruct (last (moveHistory s)) as [r|] eqn:Hl;
    [|intros [= <-]; apply Steady_setGameMessage, HS].
  destruct (Forall_last _ _ _ (inv_history s HI) Hl) as (_ & Ht & _).
  pose proof (spentDice_last _ _ Hl) as Hspent.
  set (s0 := setMoveHistory (removelast (moveHistory s)) s).
  assert (HS0 : Steady s0).
  { apply (Steady_build s); [exact HS|..]; subst s0; steady_fields HS. }
  destruct (undoMoveBack r s0) as [[s1|nb]|] eqn:Hback; [| |discriminate].
  { apply undoMoveBack_message in Hback. intros [= <-]. subst s1.
    apply Steady_setGameMessage, HS0. }
  intros [= <-].
  pose proof (undoMoveBack_home r s0 nb Ht Hback) as Hhome.
  unfold undoFinish.
  destruct (tally_pos (bar (undoHit r nb)) (currentPlayer s));
    apply (Steady_build s); try exact HS; proj_simpl;
    rewrite ?home_undoHit; try exact Hhome; try reflexivity;
    try apply HS; try constructor;
    try (subst s0; proj_simpl; rewrite length_sortDesc, length_app; lia).
  eapply Forall_impl;
    [apply calculatePossibleMoves_paid|].
  intros m. apply paidFrom_Permutation. symmetry. apply sortDesc_Permutation.
Qed.

Lemma handlePointClick_Steady s p s' :
  Inv s -> Steady s -> handlePointClick s p = Some s' -> Steady s'.
Proof.
  intros HI HS. unfold handlePointClick.
  destruct (negb (isPlaying s) || (Z.of_nat (length (availableDice s)) =? 0)).
  { intros [= <-]. apply Steady_setGameMessage, HS. }
  destruct (bool_decide (selectedPoint s = Some p)).
  { intros [= <-]. apply (Steady_build s); [exact HS|..]; steady_fields HS. }
  cbn zeta.
  assert (Hmove : forall mv, findTarget p (possibleMovesInfo s) = Some mv ->
                    1 <= p <= 24 /\ submseteq (diceUsed mv) (availableDice s)).
  { intros mv Hmv. apply findTarget_Some in Hmv as [Hin <-].
    pose proof (inv_moves s HI) as Hall. rewrite List.Forall_forall in Hall.
    pose proof (st_paid s HS) as Hpaid. rewrite List.Forall_forall in Hpaid.
    split; [apply Hall, Hin|apply Hpaid, Hin]. }
  destruct (mustReenterFromBar s).
  { destruct ((p =? 0) || (p =? 25));
      [intros [= <-]; apply Steady_setGameMessage, HS|].
    destruct (findTarget p (possibleMovesInfo s)) as [mv|] eqn:Hmv;
      [|intros [= <-]; apply Steady_setGameMessage, HS].
    destruct (Hmove mv eq_refl). apply performMove_Steady; auto. }
  assert (Hrest :
    (if (p =? 0) || (p =? 25)
     then Some (setPossibleMovesInfo [] (setSelectedPoint None
                  (setGameMessage MsgCannotSelectBearOff s)))
     else
       match js_nth (points (boardState s)) (p - 1) with
       | None => None
       | Some pointCheckers =>
           if (0 <? Z.of_nat (length pointCheckers))
              && firstIs pointCheckers (currentPlayer s)
           then Some (setGameMessage (MsgSelected p)
                  (setPossibleMovesInfo
                     (calculatePossibleMoves false (Pt p)
                        (availableDice s) (currentPlayer s) (boardState s))
                     (setSelectedPoint (Some p) s)))
           else Some (setPossibleMovesInfo [] (setSelectedPoint None
                        (setGameMessage MsgNotYourChecker s)))
       end) = Some s' -> Steady s').
  { destruct ((p =? 0) || (p =? 25)).
    { intros [= <-]. apply (Steady_build s); [exact HS|..]; steady_fields HS. }
    destruct (js_nth (points (boardState s)) (p - 1)) as [cs|]; [|discriminate].
    destruct ((0 <? Z.of_nat (length cs)) && firstIs cs (currentPlayer s));
      intros [= <-]; apply (Steady_build s); try exact HS; steady_fields HS.
    apply calculatePossibleMoves_paid. }
  destruct (selectedPoint s) as [sel|] eqn:Hsel; [|exact Hrest].
  destruct (findTarget p (possibleMovesInfo s)) as [mv|] eqn:Hmv; [|exact Hrest].
  destruct (Hmove mv eq_refl). apply performMove_Steady; auto.
Qed.

Lemma endTurn_Steady c s :
  seenHome c = mkTally 0 0 -> Steady s -> Steady (endTurn c s).
Proof.
  intros Hc HS. unfold endTurn. rewrite Hc. cbn [white black].
  destruct (negb (seenPlaying c)); [exact HS|].
  change (0 =? 15) with false. cbn iota.
  apply (Steady_build s); [exact HS|..]; steady_fields HS.
Qed.

Lemma fireTimer_Steady i s s' : Steady s -> fireTimer i s = Some s' -> Steady s'.
Proof.
  intros HS. unfold fireTimer. destruct (timers s !! i) as [c|] eqn:Hc;
    [|discriminate].
  intros [= <-].
  pose proof (st_timers s HS) as Ht.
  apply endTurn_Steady.
  - rewrite List.Forall_forall in Ht. apply Ht.
    apply list_elem_of_In, list_elem_of_lookup. eauto.
  - apply (Steady_build s); [exact HS|..]; try (steady_fields HS; fail).
    proj_simpl. apply Forall_delete_nat, Ht.
Qed.

Lemma startMatch_Steady s : Steady s -> Steady (startMatch s).
Proof.
  intros HS. constructor; unfold startMatch; steady_fields HS.
Qed.

Lemma rollDiceHandler_Steady seen die1 die2 s :
  Steady seen -> Steady s -> Steady (rollDiceHandler seen die1 die2 s).
Proof.
  intros Hseen HS. unfold rollDiceHandler.
  destruct (negb (isPlaying seen)); [exact HS|].
  cbn zeta.
  assert (Hlen : (length (if Z.eqb die1 die2 then [die1; die1; die1; die1]
                          else [die1; die2]) <= 4)%nat).
  { destruct (die1 =? die2); simpl; lia. }
  revert Hlen.
  generalize (if die1 =? die2 then [die1; die1; die1; die1] else [die1; die2]).
  intros dice Hlen.
  destruct (tally_pos (bar (boardState seen)) (currentPlayer seen)
            && negb (checkIfAnyPossibleMoves (boardState seen) (currentPlayer seen) dice));
    [|destruct (negb (checkIfAnyPossibleMoves (boardState seen) (currentPlayer seen) dice))];
    constructor; proj_simpl; try reflexivity;
    try (apply Steady_schedule; [exact Hseen|]); try apply HS;
    try (constructor; fail);
    change (spentDice []) with 0%nat; lia.
Qed.

Lemma effectBar_Steady s : Steady s -> Steady (effectBar s).
Proof.
  intros HS. unfold effectBar.
  destruct (isPlaying s && tally_pos (bar (boardState s)) (currentPlayer s)).
  - destruct (0 <? Z.of_nat (length (availableDice s)));
      apply (Steady_build s); try exact HS; proj_simpl; try reflexivity;
      try apply HS; try lia.
    apply calculatePossibleMoves_paid.
  - destruct (selectedPoint s);
      [|destruct (0 <? Z.of_nat (length (possibleMovesInfo s)))];
      apply (Steady_build s); try exact HS; proj_simpl; try reflexivity;
      try apply HS; try lia. constructor.
Qed.

Lemma effectMoves_Steady s : Steady s -> Steady (effectMoves s).
Proof.
  intros HS. unfold effectMoves.
  destruct (selectedPoint s).
  - destruct (0 <? Z.of_nat (length (availableDice s))); [|exact HS].
    apply (Steady_build s); try exact HS; proj_simpl; try reflexivity;
      try apply HS; try lia.
    apply calculatePossibleMoves_paid.
  - destruct ((0 <? Z.of_nat (length (possibleMovesInfo s)))
              && negb (mustReenterFromBar s)); [|exact HS].
    apply (Steady_build s); try exact HS; proj_simpl; try reflexivity;
      try apply HS; try lia. constructor.
Qed.

Lemma gamesToWin_positive n : In n matchFormats -> (gamesToWin n <=? 0) = false.
Proof.
  unfold matchFormats. cbn [In].
  intros H. repeat (destruct H as [<-|H]; [reflexivity|]). destruct H.
Qed.

Lemma effectMatchEnd_Steady_id s : Steady s -> effectMatchEnd s = s.
Proof.
  intros HS. unfold effectMatchEnd.
  rewrite (st_player s HS), (st_opponent s HS),
    (gamesToWin_positive _ (st_format s HS)).
  destruct (isPlaying s); reflexivity.
Qed.

Lemma mountedGame_Steady : Steady mountedGame.
Proof.
  constructor; try reflexivity; try constructor.
  - unfold matchFormats. cbn. auto.
  - cbn. lia.
Qed.

(** Every reachable state is steady. *)
Lemma reachable_Steady s : reachable s -> Steady s.
Proof.
  induction 1 as [|s Hr IH Hp|s n Hr IH Hp Hn|seen s d1 d2 Hseen IHseen Hr IH H1 H2
                  |s p s' Hr IH Hp Hc|s s' Hr IH Hu|s i s' Hr IH Ht
                  |s Hr IH|s Hr IH|s Hr IH].
  - apply mountedGame_Steady.
  - apply startMatch_Steady, IH.
  - constructor; proj_simpl; try apply IH. exact Hn.
  - apply rollDiceHandler_Steady; assumption.
  - eapply handlePointClick_Steady; eauto using reachable_Inv.
  - eapply undoLastMove_Steady; eauto using reachable_Inv.
  - eapply fireTimer_Steady; eauto.
  - apply effectBar_Steady, IH.
  - apply effectMoves_Steady, IH.
  - rewrite effectMatchEnd_Steady_id; exact IH.
Qed.

Lemma oneDieLeftState_reachable : reachable oneDieLeftState.
Proof.
  apply (run_reachable (withEffects whiteHasOneDieLeft) mountedGame);
    [apply reach_mount|vm_compute; reflexivity].
Qed.

Lemma selected12State_reachable : reachable selected12State.
Proof.
  apply (run_reachable (withEffects whiteSelects12) mountedGame);
    [apply reach_mount|vm_compute; reflexivity].
Qed.

(** X14: no game is won by play.  In every state the component reaches by
    the start of a match, the choice of the format, rolls, clicks, undo, the
    [endTurn] timers and the effects, no checker has been borne off and the
    score of the match is 0 to 0. *)
Theorem no_game_is_won_by_play s :
  reachable s ->
  home (boardState s) = mkTally 0 0 /\ playerScore s = 0 /\ opponentScore s = 0.
Proof.
  intros Hr. apply reachable_Steady in Hr. repeat split; apply Hr.
Qed.

(** The theorem in the position of the chain example, in White's second
    turn. *)
Lemma no_game_is_won_by_play_witness :
  home (boardState chainState) = mkTally 0 0 /\
  playerScore chainState = 0 /\ opponentScore chainState = 0.
Proof. exact (no_game_is_won_by_play chainState chainState_reachable). Defined.

(** X15: play never ends the match.  In every state the component reaches
    by the start of a match, the choice of the format, rolls, clicks, undo,
    pending [endTurn] and the effects (the states of [reachable]; the two
    buttons that simulate the win of a game are not among its steps), the
    effect that ends the match does nothing: neither score reaches the
    number of games to win, so [endMatch] is not called and a match that was
    started stays in play. *)
Theorem match_end_effect_never_fires s :
  reachable s -> effectMatchEnd s = s.
Proof. intros Hr. apply effectMatchEnd_Steady_id, reachable_Steady, Hr. Qed.

(** The theorem in the position of the chain example, where a match is
    played. *)
Lemma match_end_effect_never_fires_witness :
  isPlaying chainState = true /\ effectMatchEnd chainState = chainState.
Proof.
  split; [vm_compute; reflexivity|].
  exact (match_end_effect_never_fires chainState chainState_reachable).
Defined.

(** X16: in every reachable state each option shown ([possibleMovesInfo])
    is paid from the dice that are available: its dice are a non-empty
    sub-multiset of [availableDice], so that playing it finds every die it
    consumes. *)
Theorem options_shown_are_paid s :
  reachable s -> Forall (paidFrom (availableDice s)) (possibleMovesInfo s).
Proof. intros Hr. apply reachable_Steady, Hr. Qed.

(** The theorem in the position of the chain example, where the options
    of point 12 are shown. *)
Lemma options_shown_are_paid_witness :
  In (mkMove 9 [1; 2]) (possibleMovesInfo chainState) /\
  Forall (paidFrom (availableDice chainState)) (possibleMovesInfo chainState).
Proof.
  destruct chainState_facts as (_ & _ & _ & _ & _ & Hin).
  split; [exact Hin|].
  exact (options_shown_are_paid chainState chainState_reachable).
Defined.

(** X17: undo never makes dice.  In every reachable state the dice that are
    available and the dice spent on the moves of the history are at most four
    together. *)
Theorem at_most_four_dice s :
  reachable s ->
  (length (availableDice s) + spentDice (moveHistory s) <= 4)%nat.
Proof. intros Hr. apply reachable_Steady, Hr. Qed.

Lemma oneDieLeftState_dice :
  availableDice oneDieLeftState = [2] /\
  spentDice (moveHistory oneDieLeftState) = 1%nat.
Proof. split; vm_compute; reflexivity. Qed.

(** The theorem when White has played the 1 of a roll of 1 and 2: one die
    is available and one is spent. *)
Lemma at_most_four_dice_witness :
  availableDice oneDieLeftState = [2] /\
  spentDice (moveHistory oneDieLeftState) = 1%nat /\
  (length (availableDice oneDieLeftState)
   + spentDice (moveHistory oneDieLeftState) <= 4)%nat.
Proof.
  destruct oneDieLeftState_dice as [H1 H2].
  split; [exact H1|]. split; [exact H2|].
  exact (at_most_four_dice oneDieLeftState oneDieLeftState_reachable).
Defined.

(** X18: in a reachable state no click and no undo throws: a click on a
    point or on a bear-off area (0 to 25) and a call of [undoLastMove] run to
    their end, so the reads of [checkers] on a point that does not exist are
    never reached. *)
Theorem clicks_and_undo_never_throw s :
  reachable s ->
  (forall p, 0 <= p <= 25 -> exists s', handlePointClick s p = Some s') /\
  (exists s', undoLastMove s = Some s').
Proof. exact (reachable_handlers_return s). Qed.

(** The theorem after White's opening roll, with point 12 selected. *)
Lemma clicks_and_undo_never_throw_witness :
  (forall p, 0 <= p <= 25 -> exists s', handlePointClick selected12State p = Some s') /\
  (exists s', undoLastMove selected12State = Some s').
Proof. exact (clicks_and_undo_never_throw selected12State selected12State_reachable). Defined.

(** ** White's moves keep the colours apart *)

Lemma plainPoint_pop cs : plainPoint cs -> plainPoint (pop cs).
Proof. intros [H|H]; [left|right]; apply Forall_removelast, H. Qed.

Lemma Forall_js_alter {A} (P : A -> Prop) (g : A -> A) i l :
  Forall P l -> (forall x, js_nth l i = Some x -> P (g x)) ->
  Forall P (js_alter g i l).
Proof.
  intros Hl Hg. unfold js_alter, js_nth in *.
  destruct (i <? 0); [exact Hl|].
  apply Forall_alter; [exact Hl|]. intros x Hx _. apply Hg, Hx.
Qed.

Lemma plainBoard_point b i cs :
  plainBoard b -> js_nth (points b) i = Some cs -> plainPoint cs.
Proof.
  unfold plainBoard, js_nth. intros Hb. destruct (i <? 0); [discriminate|].
  intros H. rewrite List.Forall_forall in Hb.
  apply Hb, list_elem_of_In, list_elem_of_lookup. eauto.
Qed.

Lemma plainBoard_popPoint i b : plainBoard b -> plainBoard (popPoint i b).
Proof.
  intros Hb. unfold plainBoard, popPoint. cbn [points].
  apply Forall_js_alter; [exact Hb|].
  intros cs Hcs. apply plainPoint_pop, (plainBoard_point b i cs Hb Hcs).
Qed.

Lemma plainPoint_white cs :
  plainPoint cs -> firstIs cs "white" = true -> Forall (eq "white") cs.
Proof.
  intros [H|H] Hf; [exact H|].
  destruct cs as [|x cs]; [discriminate|].
  inversion H as [|? ? Hx _]; subst. discriminate.
Qed.

(** Landing a White checker on a point of a plain board on which White is
    not blocked leaves a plain board. *)
Lemma plainBoard_landOn t tgt nb :
  plainBoard nb ->
  js_nth (points nb) (t - 1) = Some tgt ->
  isPointBlocked (t - 1) "white" nb = false ->
  plainBoard (landOn "white" t "white" tgt nb).
Proof.
  intros Hnb Htgt Hfree. unfold landOn.
  pose proof (plainBoard_point nb _ _ Hnb Htgt) as Hplain.
  destruct (hitsBlot "white" tgt) eqn:Hhit.
  - apply andb_true_iff in Hhit as [Hlen Hfirst]. apply Z.eqb_eq in Hlen.
    pose proof (firstIs_single _ _ Hlen Hfirst) as ->.
    unfold plainBoard, pushPoint, addBar, popPoint. cbn [points].
    apply Forall_js_alter.
    + apply Forall_js_alter; [exact Hnb|].
      intros cs Hcs. apply plainPoint_pop, (plainBoard_point nb _ _ Hnb Hcs).
    + intros cs Hcs. rewrite (js_nth_alter_eq pop _ _ _ Htgt) in Hcs.
      injection Hcs as <-. left. repeat constructor.
  - unfold plainBoard, pushPoint. cbn [points].
    apply Forall_js_alter; [exact Hnb|].
    intros cs Hcs. rewrite Htgt in Hcs. injection Hcs as <-.
    destruct Hplain as [Hw|Hb].
    + left. apply Forall_app. split; [exact Hw|repeat constructor].
    + destruct tgt as [|x [|y tgt]].
      * left. repeat constructor.
      * inversion Hb as [|? ? Hx _]; subst. vm_compute in Hhit.
        discriminate Hhit.
      * inversion Hb as [|? ? Hx _]; subst.
        unfold isPointBlocked in Hfree. rewrite Htgt in Hfree.
        destruct (Z.eqb_spec (Z.of_nat (length ("black" :: y :: tgt))) 0) as [E|E];
          [simpl in E; lia|].
        apply andb_false_iff in Hfree as [Hf|Hf];
          [vm_compute in Hf; discriminate Hf|].
        apply Z.leb_gt in Hf. simpl in Hf. lia.
Qed.

(** A White checker that lands on a single Black checker sends it to the
    bar and stands alone on the point. *)
Lemma landOn_black_blot t nb :
  js_nth (points nb) (t - 1) = Some ["black"] ->
  js_nth (points (landOn "white" t "white" ["black"] nb)) (t - 1) = Some ["white"] /\
  black (bar (landOn "white" t "white" ["black"] nb)) = black (bar nb) + 1 /\
  white (bar (landOn "white" t "white" ["black"] nb)) = white (bar nb).
Proof.
  intros Htgt. unfold landOn.
  change (hitsBlot "white" ["black"]) with true. cbn iota.
  unfold pushPoint, addBar, popPoint, push, pop. cbn [points bar].
  refine (conj _ (conj _ _)).
  - rewrite (js_nth_alter_eq _ _ _ [])
      by (rewrite (js_nth_alter_eq _ _ _ ["black"]) by exact Htgt; reflexivity).
    reflexivity.
  - change (getOpponentColor "white") with "black".
    rewrite black_tally_add. reflexivity.
  - change (getOpponentColor "white") with "black".
    rewrite white_tally_add. cbn. lia.
Qed.

(** X19: White's moves keep the colours apart.  On a board whose points each
    hold checkers of one player, an option that [calculatePossibleMoves]
    returns for White and a point is played by [performMove], and afterwards
    each point still holds checkers of one player.  When the target held a
    single Black checker, that checker has gone to the bar: the target holds
    the White checker alone and Black's count on the bar is one higher. *)
Theorem white_moves_keep_the_points_plain s f m flag :
  currentPlayer s = "white" ->
  wfBoard (boardState s) -> plainBoard (boardState s) ->
  Forall face (availableDice s) ->
  In m (calculatePossibleMoves flag (Pt f) (availableDice s) (currentPlayer s)
          (boardState s)) ->
  exists s',
    performMove s (Pt f) (targetPoint m) (diceUsed m) = Some s' /\
    plainBoard (boardState s') /\
    (js_nth (points (boardState s)) (targetPoint m - 1) = Some ["black"] ->
     js_nth (points (boardState s')) (targetPoint m - 1) = Some ["white"] /\
     black (bar (boardState s')) = black (bar (boardState s)) + 1 /\
     white (bar (boardState s')) = white (bar (boardState s))).
Proof.
  intros Hw Hwf Hplain Hdice Hin.
  destruct (offered_option_lands s f m flag Hwf Hdice Hin)
    as (src & moved & tgt & Hsrc & Hfirst & Hlast & Htgt & Hne & Ht & _).
  destruct (calculatePossibleMoves_point _ _ _ _ _ _ Hdice Hin) as [_ [_ Hfree]].
  rewrite Hw in Hfirst, Hfree.
  pose proof (plainPoint_white src (plainBoard_point _ _ _ Hplain Hsrc) Hfirst)
    as Hwhite.
  assert (moved = "white") as ->.
  { symmetry. apply (Forall_last _ _ _ Hwhite Hlast). }
  rewrite <- Hw in Hfirst.
  assert (Hnb : js_nth (points (popPoint (f - 1) (boardState s))) (targetPoint m - 1)
                = Some tgt).
  { unfold popPoint. cbn [points]. rewrite js_nth_alter_ne by lia. exact Htgt. }
  eexists. split; [|split].
  - apply (performMove_lands s f (targetPoint m) (diceUsed m) src tgt "white");
      auto; lia.
  - rewrite boardState_landChecker, Hw.
    apply plainBoard_landOn.
    + apply plainBoard_popPoint, Hplain.
    + exact Hnb.
    + rewrite isPointBlocked_popPoint_other by lia. exact Hfree.
  - intros Hblot. rewrite Htgt in Hblot. injection Hblot as ->.
    rewrite boardState_landChecker, Hw.
    exact (landOn_black_blot (targetPoint m) (popPoint (f - 1) (boardState s)) Hnb).
Qed.

Lemma chainState_plain :
  currentPlayer chainState = "white" /\
  wfBoard (boardState chainState) /\
  plainBoard (boardState chainState) /\
  Forall face (availableDice chainState) /\
  In (mkMove 11 [1])
     (calculatePossibleMoves false (Pt 12) (availableDice chainState)
        (currentPlayer chainState) (boardState chainState)).
Proof.
  refine (conj _ (conj _ (conj _ (conj _ _)))).
  - vm_compute. reflexivity.
  - vm_compute. reflexivity.
  - unfold plainBoard. vm_compute.
    repeat (constructor;
            [first [left; repeat constructor; fail
                   |right; repeat constructor; fail]|]).
    constructor.
  - vm_compute. repeat (constructor; [split; discriminate|]). constructor.
  - vm_compute. auto.
Qed.

(** The theorem in the position of the chain example, for the step from
    point 12 to point 11, where a single Black checker stands. *)
Lemma white_moves_keep_the_points_plain_witness :
  js_nth (points (boardState chainState)) (11 - 1) = Some ["black"] /\
  exists s',
    performMove chainState (Pt 12) 11 [1] = Some s' /\
    plainBoard (boardState s') /\
    (js_nth (points (boardState chainState)) (11 - 1) = Some ["black"] ->
     js_nth (points (boardState s')) (11 - 1) = Some ["white"] /\
     black (bar (boardState s')) = black (bar (boardState chainState)) + 1 /\
     white (bar (boardState s')) = white (bar (boardState chainState))).
Proof.
  destruct chainState_plain as (H1 & H2 & H3 & H4 & H5).
  destruct chainState_facts as (_ & _ & _ & Hblot & _ & _).
  split; [exact Hblot|].
  exact (white_moves_keep_the_points_plain chainState 12 (mkMove 11 [1]) false
           H1 H2 H3 H4 H5).
Defined.

(** ** The colours of a reachable state *)

Lemma Colours_setGameMessage msg s : Colours s -> Colours (setGameMessage msg s).
Proof. intros [H1 H2 H3 H4]. constructor; assumption. Qed.

Lemma keys_point b i cs :
  Forall (Forall isKey) (points b) -> js_nth (points b) i = Some cs ->
  Forall isKey cs.
Proof.
  unfold js_nth. intros Hb. destruct (i <? 0); [discriminate|].
  intros H. rewrite List.Forall_forall in Hb.
  apply Hb, list_elem_of_In, list_elem_of_lookup. eauto.
Qed.

Lemma keys_popPoint i b :
  Forall (Forall isKey) (points b) -> Forall (Forall isKey) (points (popPoint i b)).
Proof.
  intros Hb. unfold popPoint. cbn [points].
  apply Forall_js_alter; [exact Hb|].
  intros cs Hcs. apply Forall_removelast, (keys_point b i cs Hb Hcs).
Qed.

Lemma keys_pushPoint i c b :
  isKey c -> Forall (Forall isKey) (points b) ->
  Forall (Forall isKey) (points (pushPoint i c b)).
Proof.
  intros Hc Hb. unfold pushPoint. cbn [points].
  apply Forall_js_alter; [exact Hb|].
  intros cs Hcs. apply Forall_app. split; [apply (keys_point b i cs Hb Hcs)|].
  constructor; [exact Hc|constructor].
Qed.

Lemma getOpponentColor_not_white c : getOpponentColor c <> "white".
Proof. unfold getOpponentColor. destruct (String.eqb c "white"); discriminate. Qed.

Lemma getOpponentColor_key c : isKey (getOpponentColor c) -> getOpponentColor c = "black".
Proof.
  unfold getOpponentColor. destruct (String.eqb c "white"); [reflexivity|].
  intros [H|H]; discriminate H.
Qed.

(** A hit needs a checker of the colour [getOpponentColor] names: on a
    point of White and Black checkers that colour is Black. *)
Lemma hitsBlot_black player tgt :
  Forall isKey tgt -> hitsBlot player tgt = true -> getOpponentColor player = "black".
Proof.
  intros Hk H. apply andb_true_iff in H as [_ Hf].
  destruct tgt as [|x tgt]; [discriminate|]. cbn in Hf.
  apply String.eqb_eq in Hf. inversion Hk as [|? ? Hx _]; subst.
  apply getOpponentColor_key, Hx.
Qed.

Lemma white_bar_addBar c d b :
  c <> "white" -> white (bar (addBar c d b)) = white (bar b).
Proof.
  intros Hc. unfold addBar. cbn [bar]. rewrite white_tally_add.
  destruct (String.eqb_spec c "white"); [contradiction|lia].
Qed.

Lemma tally_pos_white t : white t = 0 -> tally_pos t "white" = false.
Proof. intros H. unfold tally_pos, tally_get. cbn. rewrite H. reflexivity. Qed.

Lemma Taken_colours s from nb moved :
  Colours s -> Taken s from nb moved ->
  isKey moved /\ Forall (Forall isKey) (points nb) /\ white (bar nb) = 0
  /\ (from = Bar -> currentPlayer s = "black").
Proof.
  intros HC [Hpos|p src mv Hsrc Hlast Hfirst].
  - assert (Hb : currentPlayer s = "black").
    { destruct (col_player s HC) as [E|E]; [|exact E].
      rewrite E, (tally_pos_white _ (col_bar s HC)) in Hpos. discriminate. }
    split; [apply HC|]. split; [apply HC|]. split; [|auto].
    rewrite white_bar_addBar; [apply HC|]. rewrite Hb. discriminate.
  - split; [|split; [apply keys_popPoint, HC|split; [apply HC|discriminate]]].
    apply (Forall_last _ _ _ (keys_point _ _ _ (col_points s HC) Hsrc) Hlast).
Qed.

Lemma landOn_colours player t moved tgt nb :
  isKey moved -> Forall (Forall isKey) (points nb) -> white (bar nb) = 0 ->
  Forall (Forall isKey) (points (landOn player t moved tgt nb))
  /\ white (bar (landOn player t moved tgt nb)) = 0.
Proof.
  intros Hm Hk Hb. unfold landOn.
  destruct (hitsBlot player tgt); (split; [apply keys_pushPoint; [exact Hm|]|]).
  - apply keys_popPoint, Hk.
  - unfold pushPoint. cbn [bar].
    rewrite white_bar_addBar by apply getOpponentColor_not_white. exact Hb.
  - exact Hk.
  - exact Hb.
Qed.

Lemma performMove_Colours s from t dice s' :
  Colours s -> 1 <= t <= 24 ->
  performMove s from t dice = Some s' -> Colours s'.
Proof.
  intros HC Ht Hp.
  destruct (performMove_cases s from t dice s' Ht Hp)
    as [[msg ->]|(nb & moved & tgt & Htk & Htgt & ->)].
  { apply Colours_setGameMessage, HC. }
  destruct (Taken_colours s from nb moved HC Htk) as (Hm & Hk & Hb & Hfrom).
  destruct (landOn_colours (currentPlayer s) t moved tgt nb Hm Hk Hb) as [Hk' Hb'].
  constructor.
  - rewrite currentPlayer_landChecker. apply HC.
  - rewrite boardState_landChecker. exact Hk'.
  - rewrite boardState_landChecker. exact Hb'.
  - rewrite moveHistory_landChecker. apply Forall_app. split; [apply HC|].
    constructor; [|constructor]. unfold plainRecord, recordOf.
    cbn [checkerColor fromPoint hitCheckerColor hitOpponentChecker].
    split; [apply HC|]. split; [exact Hfrom|].
    destruct (hitsBlot (currentPlayer s) tgt) eqn:Hhit; [|reflexivity].
    rewrite (hitsBlot_black _ _ (keys_point _ _ _ Hk Htgt) Hhit). reflexivity.
Qed.

Lemma undoMoveBack_colours r s0 nb :
  Forall (Forall isKey) (points (boardState s0)) ->
  white (bar (boardState s0)) = 0 ->
  plainRecord r -> 1 <= toPoint r <= 24 ->
  undoMoveBack r s0 = Some (inr nb) ->
  Forall (Forall isKey) (points nb) /\ white (bar nb) = 0.
Proof.
  intros Hk Hb (Hc & Hfrom & _) Ht. unfold undoMoveBack.
  rewrite (not_bearOff_target _ Ht).
  destruct (js_nth (points (boardState s0)) (toPoint r - 1)) as [tgt|];
    [|discriminate].
  destruct (last tgt) as [top|]; [|discriminate].
  destruct (negb (String.eqb top (checkerColor r))); [discriminate|].
  destruct (fromPoint r) as [|p].
  - intros [= <-]. split; [apply keys_popPoint, Hk|].
    rewrite white_bar_addBar; [exact Hb|]. rewrite (Hfrom eq_refl). discriminate.
  - destruct (js_nth _ (p - 1)); [|discriminate]. intros [= <-].
    split; [apply keys_pushPoint; [exact Hc|apply keys_popPoint, Hk]|exact Hb].
Qed.

Lemma undoHit_colours r nb :
  Forall (Forall isKey) (points nb) -> white (bar nb) = 0 -> plainRecord r ->
  Forall (Forall isKey) (points (undoHit r nb)) /\ white (bar (undoHit r nb)) = 0.
Proof.
  intros Hk Hb (_ & _ & Hhit). unfold undoHit. rewrite Hhit.
  destruct (hitOpponentChecker r); [|auto]. cbn [truthyColor].
  destruct (_ && _).
  - split; [apply keys_pushPoint; [apply isKey_black|exact Hk]|].
    unfold pushPoint. cbn [bar]. rewrite white_bar_addBar by discriminate. exact Hb.
  - split; [exact Hk|]. rewrite white_bar_addBar by discriminate. exact Hb.
Qed.

Lemma undoLastMove_Colours s s' :
  Inv s -> Colours s -> undoLastMove s = Some s' -> Colours s'.
Proof.
  intros HI HC. unfold undoLastMove.
  destruct (last (moveHistory s)) as [r|] eqn:Hl;
    [|intros [= <-]; apply Colours_setGameMessage, HC].
  destruct (Forall_last _ _ _ (inv_history s HI) Hl) as (_ & Ht & _).
  pose proof (Forall_last _ _ _ (col_history s HC) Hl) as Hr.
  pose proof (Forall_removelast _ _ (col_history s HC)) as Hh.
  set (s0 := setMoveHistory (removelast (moveHistory s)) s).
  destruct (undoMoveBack r s0) as [[s1|nb]|] eqn:Hback; [| |discriminate].
  { apply undoMoveBack_message in Hback. intros [= <-]. subst s1.
    constructor; proj_simpl; try apply HC. exact Hh. }
  intros [= <-].
  destruct (undoMoveBack_colours r s0 nb (col_points s HC) (col_bar s HC) Hr Ht Hback)
    as [Hk Hb].
  destruct (undoHit_colours r nb Hk Hb Hr) as [Hk' Hb'].
  unfold undoFinish.
  destruct (tally_pos (bar (undoHit r nb)) (currentPlayer s));
    constructor; subst s0; proj_simpl; try assumption; apply HC.
Qed.

Lemma handlePointClick_Colours s p s' :
  Inv s -> Colours s -> handlePointClick s p = Some s' -> Colours s'.
Proof.
  intros HI HC. unfold handlePointClick.
  destruct (negb (isPlaying s) || (Z.of_nat (length (availableDice s)) =? 0)).
  { intros [= <-]. apply Colours_setGameMessage, HC. }
  destruct (bool_decide (selectedPoint s = Some p)).
  { intros [= <-]. constructor; proj_simpl; apply HC. }
  cbn zeta.
  assert (Hmove : forall mv, findTarget p (possibleMovesInfo s) = Some mv ->
                    1 <= p <= 24).
  { intros mv Hmv. apply findTarget_Some in Hmv as [Hin <-].
    pose proof (inv_moves s HI) as Hall. rewrite List.Forall_forall in Hall.
    apply Hall, Hin. }
  destruct (mustReenterFromBar s).
  { destruct ((p =? 0) || (p =? 25));
      [intros [= <-]; apply Colours_setGameMessage, HC|].
    destruct (findTarget p (possibleMovesInfo s)) as [mv|] eqn:Hmv;
      [|intros [= <-]; apply Colours_setGameMessage, HC].
    apply performMove_Colours; eauto. }
  assert (Hrest : forall a b c : Game,
    Colours a -> Colours b -> Colours c ->
    (if (p =? 0) || (p =? 25) then Some a
     else
       match js_nth (points (boardState s)) (p - 1) with
       | None => None
       | Some pointCheckers =>
           if (0 <? Z.of_nat (length pointCheckers))
              && firstIs pointCheckers (currentPlayer s)
           then Some b else Some c
       end) = Some s' -> Colours s').
  { intros a b c Ha Hb Hc.
    destruct ((p =? 0) || (p =? 25)); [intros [= <-]; exact Ha|].
    destruct (js_nth (points (boardState s)) (p - 1)) as [cs|]; [|discriminate].
    destruct (_ && _); intros [= <-]; assumption. }
  assert (Hsel : forall v w msg,
            Colours (setGameMessage msg (setPossibleMovesInfo v (setSelectedPoint w s)))).
  { intros v w msg. constructor; proj_simpl; apply HC. }
  assert (Hsel' : forall v w msg,
            Colours (setPossibleMovesInfo v (setSelectedPoint w (setGameMessage msg s)))).
  { intros v w msg. constructor; proj_simpl; apply HC. }
  destruct (selectedPoint s) as [sel|] eqn:Hs; [|apply Hrest; auto].
  destruct (findTarget p (possibleMovesInfo s)) as [mv|] eqn:Hmv; [|apply Hrest; auto].
  apply performMove_Colours; eauto.
Qed.

Lemma initializeBoard_keys : Forall (Forall isKey) (points initializeBoard).
Proof.
  vm_compute.
  repeat (constructor;
          [repeat (constructor; [first [left; reflexivity|right; reflexivity]|]);
           constructor|]).
  constructor.
Qed.

Lemma nextPlayer_key c : isKey (nextPlayer c).
Proof. unfold nextPlayer. destruct (String.eqb c "white"); [right|left]; reflexivity. Qed.

Lemma endTurn_Colours c s : Colours s -> Colours (endTurn c s).
Proof.
  intros HC. unfold endTurn.
  destruct (negb (seenPlaying c)); [exact HC|].
  destruct (white (seenHome c) =? 15); [|destruct (black (seenHome c) =? 15)];
    constructor; proj_simpl; try apply initializeBoard_keys;
    try reflexivity; try apply HC; try (constructor; fail);
    try apply isKey_white; try apply isKey_black.
  apply nextPlayer_key.
Qed.

Lemma fireTimer_Colours i s s' : Colours s -> fireTimer i s = Some s' -> Colours s'.
Proof.
  intros HC. unfold fireTimer. destruct (timers s !! i); [|discriminate].
  intros [= <-]. apply endTurn_Colours. constructor; proj_simpl; apply HC.
Qed.

Lemma startMatch_Colours s : Colours (startMatch s).
Proof.
  constructor; unfold startMatch; proj_simpl;
    [apply isKey_white|apply initializeBoard_keys|reflexivity|constructor].
Qed.

Lemma rollDiceHandler_Colours seen die1 die2 s :
  Colours s -> Colours (rollDiceHandler seen die1 die2 s).
Proof.
  intros HC. unfold rollDiceHandler.
  destruct (negb (isPlaying seen)); [exact HC|].
  cbn zeta.
  generalize (if die1 =? die2 then [die1; die1; die1; die1] else [die1; die2]).
  intros dice.
  destruct (tally_pos (bar (boardState seen)) (currentPlayer seen)
            && negb (checkIfAnyPossibleMoves (boardState seen) (currentPlayer seen) dice));
    [|destruct (negb (checkIfAnyPossibleMoves (boardState seen) (currentPlayer seen) dice))];
    constructor; proj_simpl; try apply HC; constructor.
Qed.

Lemma effectBar_Colours s : Colours s -> Colours (effectBar s).
Proof.
  intros HC. unfold effectBar.
  destruct (isPlaying s && tally_pos (bar (boardState s)) (currentPlayer s)).
  - destruct (0 <? Z.of_nat (length (availableDice s)));
      constructor; proj_simpl; apply HC.
  - destruct (selectedPoint s);
      [|destruct (0 <? Z.of_nat (length (possibleMovesInfo s)))];
      constructor; proj_simpl; apply HC.
Qed.

Lemma effectMoves_Colours s : Colours s -> Colours (effectMoves s).
Proof.
  intros HC. unfold effectMoves.
  destruct (selectedPoint s).
  - destruct (0 <? Z.of_nat (length (availableDice s))); [|exact HC].
    constructor; proj_simpl; apply HC.
  - destruct (_ && _); [|exact HC]. constructor; proj_simpl; apply HC.
Qed.

Lemma effectMatchEnd_Colours s : Colours s -> Colours (effectMatchEnd s).
Proof.
  intros HC. unfold effectMatchEnd.
  repeat match goal with
         | |- context [if ?c then _ else _] => destruct c
         end; try exact HC; constructor; proj_simpl; apply HC.
Qed.

Lemma mountedGame_Colours : Colours mountedGame.
Proof.
  constructor;
    [apply isKey_white|apply initializeBoard_keys|reflexivity|constructor].
Qed.

Lemma reachable_Colours s : reachable s -> Colours s.
Proof.
  induction 1 as [|s Hr IH Hp|s n Hr IH Hp Hn|seen s d1 d2 Hseen IHseen Hr IH H1 H2
                  |s p s' Hr IH Hp Hc|s s' Hr IH Hu|s i s' Hr IH Ht
                  |s Hr IH|s Hr IH|s Hr IH].
  - apply mountedGame_Colours.
  - apply startMatch_Colours.
  - constructor; proj_simpl; apply IH.
  - apply rollDiceHandler_Colours, IH.
  - eapply handlePointClick_Colours; eauto using reachable_Inv.
  - eapply undoLastMove_Colours; eauto using reachable_Inv.
  - eapply fireTimer_Colours; eauto.
  - apply effectBar_Colours, IH.
  - apply effectMoves_Colours, IH.
  - apply effectMatchEnd_Colours, IH.
Qed.

(** X20: no White checker is ever sent to the bar.  A hit sends the checker
    to the bar of the colour that [getOpponentColor] names, and that is never
    White: in every reachable state White's bar count is 0. *)
Theorem white_is_never_on_the_bar s :
  reachable s -> white (bar (boardState s)) = 0.
Proof. intros Hr. apply reachable_Colours, Hr. Qed.

(** The theorem in the position of the chain example, after a turn of
    each colour. *)
Lemma white_is_never_on_the_bar_witness :
  white (bar (boardState chainState)) = 0.
Proof. exact (white_is_never_on_the_bar chainState chainState_reachable). Defined.

(** X21: Black is never blocked.  In every reachable state every checker on
    the points is ['white'] or ['black'], and for Black [isPointBlocked]
    answers false on every point, however many White checkers it holds. *)
Theorem black_is_never_blocked s :
  reachable s ->
  Forall (Forall isKey) (points (boardState s)) /\
  forall i, isPointBlocked i "black" (boardState s) = false.
Proof.
  intros Hr. apply reachable_Colours in Hr. split; [exact (col_points s Hr)|].
  intros i. apply isPointBlocked_black_false.
  intros cs Hcs. pose proof (keys_point _ _ _ (col_points s Hr) Hcs) as Hk.
  destruct cs as [|x cs]; [reflexivity|]. cbn.
  inversion Hk as [|? ? [-> | ->] _]; reflexivity.
Qed.

Lemma chainState_point18 :
  countColor (checkersAt (boardState chainState) 17) "white" = 3.
Proof. vm_compute. reflexivity. Qed.

(** The theorem in the position of the chain example for point 18, which
    holds three White checkers. *)
Lemma black_is_never_blocked_witness :
  countColor (checkersAt (boardState chainState) 17) "white" = 3 /\
  Forall (Forall isKey) (points (boardState chainState)) /\
  isPointBlocked 17 "black" (boardState chainState) = false.
Proof.
  destruct (black_is_never_blocked chainState chainState_reachable) as [Hkeys Hfree].
  exact (conj chainState_point18 (conj Hkeys (Hfree 17))).
Defined.

(** ** Entering from the bar *)

(** The options of the bar: one for each die whose entry point is on the
    board and not blocked. *)
Lemma calculatePossibleMoves_bar dice player b m :
  In m (calculatePossibleMoves true Bar dice player b) <->
  exists d, In d dice /\
    m = mkMove (entryTarget (String.eqb player "white") d) [d] /\
    entryOpen (entryTarget (String.eqb player "white") d) player b = true.
Proof.
  unfold calculatePossibleMoves. cbn [andb isBar]. rewrite in_flat_map.
  unfold checkSingleStepLogic. cbn [andb isBar targetGamePoint isValid].
  split.
  - intros (d & Hd & Hm). exists d. split; [exact Hd|].
    destruct (entryOpen _ _ _); [|destruct Hm].
    destruct Hm as [<-|[]]. split; reflexivity.
  - intros (d & Hd & -> & Hopen). exists d. split; [exact Hd|].
    rewrite Hopen. left. reflexivity.
Qed.

Lemma entryTarget_inj w d d' : entryTarget w d = entryTarget w d' -> d = d'.
Proof. unfold entryTarget. destruct w; lia. Qed.

Lemma entryOpen_range t player b :
  entryOpen t player b = true -> 1 <= t <= 24.
Proof.
  unfold entryOpen. intros H.
  apply andb_prop in H as [H _]. apply andb_prop in H as [H1 H2].
  apply Z.leb_le in H1. apply Z.ltb_lt in H2. lia.
Qed.

(** The entry options with the same target are the same option. *)
Lemma findTarget_bar dice player b m :
  In m (calculatePossibleMoves true Bar dice player b) ->
  findTarget (targetPoint m) (calculatePossibleMoves true Bar dice player b) = Some m.
Proof.
  intros Hin. unfold findTarget.
  destruct (find _ _) as [m'|] eqn:Hfind.
  - apply find_some in Hfind as [Hin' Heq]. apply Z.eqb_eq in Heq.
    apply calculatePossibleMoves_bar in Hin as (d & _ & -> & _).
    apply calculatePossibleMoves_bar in Hin' as (d' & _ & -> & _).
    cbn [targetPoint] in Heq. apply entryTarget_inj in Heq. subst d'. reflexivity.
  - eapply find_none in Hfind; [|exact Hin]. cbn beta in Hfind.
    rewrite Z.eqb_refl in Hfind. discriminate Hfind.
Qed.

(** X22: a click on an entry point that is shown enters there.  In a match
    that is played, with no point selected, while the player must re-enter
    and the options shown are those [calculatePossibleMoves] returns for the
    bar, a click on the target of one of them makes [handlePointClick] call
    [performMove] from the bar to that point with the die of that option. *)
Theorem click_on_a_shown_entry_point_enters s m :
  isPlaying s = true -> mustReenterFromBar s = true -> selectedPoint s = None ->
  possibleMovesInfo s
  = calculatePossibleMoves true Bar (availableDice s) (currentPlayer s)
      (boardState s) ->
  In m (possibleMovesInfo s) ->
  handlePointClick s (targetPoint m) = performMove s Bar (targetPoint m) (diceUsed m).
Proof.
  intros Hplay Hbar Hsel Hshown Hin. rewrite Hshown in Hin.
  pose proof (findTarget_bar _ _ _ _ Hin) as Hfind.
  pose proof Hin as Hin'.
  apply calculatePossibleMoves_bar in Hin' as (d & Hd & _ & Hopen0).
  assert (Hopen : 1 <= targetPoint m <= 24).
  { apply calculatePossibleMoves_bar in Hin as (d' & _ & -> & Ho).
    apply entryOpen_range in Ho. exact Ho. }
  unfold handlePointClick. rewrite Hplay, Hbar, Hsel, Hshown, Hfind.
  destruct (availableDice s) as [|x l] eqn:Hdice; [destruct Hd|].
  cbn [negb orb length].
  replace (Z.of_nat (S (length l)) =? 0) with false by (symmetry; apply Z.eqb_neq; lia).
  rewrite bool_decide_eq_false_2 by discriminate.
  rewrite not_bearOff_target by exact Hopen. reflexivity.
Qed.

Lemma tally_pos_key t c : tally_pos t c = true -> isKey c.
Proof.
  unfold tally_pos, tally_get, isKey.
  destruct (String.eqb_spec c "white"); [auto|].
  destruct (String.eqb_spec c "black"); [auto|discriminate].
Qed.

Lemma getOpponentColor_other c : isKey c -> getOpponentColor c <> c.
Proof. intros [->| ->]; discriminate. Qed.

Lemma tallyOf_tally_add k d t c :
  isKey c -> tallyOf (tally_add k d t) c = tallyOf t c + (if String.eqb k c then d else 0).
Proof.
  intros [->| ->]; unfold tallyOf, tally_get; cbn [String.eqb Ascii.eqb Bool.eqb default].
  - apply white_tally_add.
  - apply black_tally_add.
Qed.

Lemma bar_landOn player t moved tgt nb :
  bar (landOn player t moved tgt nb)
  = if hitsBlot player tgt then tally_add (getOpponentColor player) 1 (bar nb)
    else bar nb.
Proof. unfold landOn. destruct (hitsBlot player tgt); reflexivity. Qed.

(** The checker that lands is the top checker of the target point. *)
Lemma top_landOn player t moved tgt nb :
  js_nth (points nb) (t - 1) = Some tgt ->
  exists cs, js_nth (points (landOn player t moved tgt nb)) (t - 1) = Some (cs ++ [moved]).
Proof.
  intros Htgt. unfold landOn, pushPoint, push. cbn [points].
  destruct (hitsBlot player tgt).
  - exists (pop tgt). unfold addBar, popPoint. cbn [points].
    apply (js_nth_alter_eq (fun cs => cs ++ [moved])).
    apply js_nth_alter_eq, Htgt.
  - exists tgt. apply (js_nth_alter_eq (fun cs => cs ++ [moved])), Htgt.
Qed.

(** X23: an entry from the bar and its undo.  On a board with its 24
    points, when the current player has a checker on the bar, [performMove]
    called for an option that [calculatePossibleMoves] returns for the bar
    makes the move: the player's count on the bar goes down by one, the
    checker is the top checker of the entry point and the die of the option is
    taken out of the available dice.  [undoLastMove] right after it gives back
    the board and the history of before, and the dice of before up to their
    order. *)
Theorem entering_from_the_bar_and_undo s m :
  wfBoard (boardState s) ->
  tally_pos (bar (boardState s)) (currentPlayer s) = true ->
  In m (calculatePossibleMoves true Bar (availableDice s) (currentPlayer s)
          (boardState s)) ->
  exists s1 s2 cs,
    performMove s Bar (targetPoint m) (diceUsed m) = Some s1 /\
    gameMessage s1 = MsgMoveMade /\
    tallyOf (bar (boardState s1)) (currentPlayer s)
    = tallyOf (bar (boardState s)) (currentPlayer s) - 1 /\
    js_nth (points (boardState s1)) (targetPoint m - 1) = Some (cs ++ [currentPlayer s]) /\
    Permutation (availableDice s1 ++ diceUsed m) (availableDice s) /\
    undoLastMove s1 = Some s2 /\
    boardState s2 = boardState s /\
    moveHistory s2 = moveHistory s /\
    Permutation (availableDice s2) (availableDice s).
Proof.
  intros Hwf Hpos Hin.
  apply calculatePossibleMoves_bar in Hin as (d & Hd & -> & Hopen).
  cbn [targetPoint diceUsed].
  set (t := entryTarget (String.eqb (currentPlayer s) "white") d) in *.
  pose proof (entryOpen_range _ _ _ Hopen) as Ht.
  pose proof (tally_pos_key _ _ Hpos) as Hkey.
  set (nb := addBar (currentPlayer s) (-1) (boardState s)).
  destruct (wfBoard_point _ t Hwf Ht) as [tgt Htgt].
  assert (Htgt' : js_nth (points nb) (t - 1) = Some tgt) by exact Htgt.
  assert (Hsub : submseteq [d] (availableDice s)).
  { apply singleton_submseteq_l, list_elem_of_In, Hd. }
  destruct (move_then_undo_restores s Bar t [d] nb tgt (taken_bar s Hpos) Htgt' Ht)
    as (s2 & Hundo & Hb & Hh & Hdice); [discriminate|].
  destruct (top_landOn (currentPlayer s) t (currentPlayer s) tgt nb Htgt') as [cs Hcs].
  exists (landChecker s Bar t [d] nb (currentPlayer s) tgt), s2, cs.
  refine (conj _ (conj _ (conj _ (conj _ (conj _ (conj Hundo (conj Hb (conj Hh _)))))))).
  - unfold performMove.
    rewrite (proj2 (takeSource_Taken s Bar _ _) (taken_bar s Hpos)).
    rewrite not_bearOff_target by exact Ht. fold nb. rewrite Htgt'. reflexivity.
  - apply gameMessage_landChecker.
  - rewrite boardState_landChecker, bar_landOn.
    assert (Hnb : tallyOf (bar nb) (currentPlayer s)
                  = tallyOf (bar (boardState s)) (currentPlayer s) - 1).
    { unfold nb, addBar. cbn [bar]. rewrite tallyOf_tally_add by exact Hkey.
      rewrite String.eqb_refl. lia. }
    destruct (hitsBlot _ _); [|exact Hnb].
    rewrite tallyOf_tally_add by exact Hkey.
    destruct (String.eqb_spec (getOpponentColor (currentPlayer s)) (currentPlayer s))
      as [E|_]; [exfalso; exact (getOpponentColor_other _ Hkey E)|]. lia.
  - rewrite boardState_landChecker. exact Hcs.
  - rewrite availableDice_landChecker. apply consumeDice_submseteq, Hsub.
  - rewrite Hdice, sortDesc_Permutation. apply consumeDice_submseteq, Hsub.
Qed.

(** Black has a checker on the bar and has rolled 3 and 5: the entry points
    21 and 23 are shown. *)
Lemma blackOnBarState_facts :
  isPlaying blackOnBarState = true /\ mustReenterFromBar blackOnBarState = true /\
  selectedPoint blackOnBarState = None /\
  wfBoard (boardState blackOnBarState) /\
  tally_pos (bar (boardState blackOnBarState)) (currentPlayer blackOnBarState) = true /\
  possibleMovesInfo blackOnBarState
  = calculatePossibleMoves true Bar (availableDice blackOnBarState)
      (currentPlayer blackOnBarState) (boardState blackOnBarState) /\
  In (mkMove 21 [3]) (possibleMovesInfo blackOnBarState) /\
  currentPlayer blackOnBarState = "black".
Proof.
  refine (conj _ (conj _ (conj _ (conj _ (conj _ (conj _ (conj _ _)))))));
    vm_compute; try reflexivity; auto.
Qed.

(** The theorem for Black's click on point 21. *)
Lemma click_on_a_shown_entry_point_enters_witness :
  handlePointClick blackOnBarState 21 = performMove blackOnBarState Bar 21 [3].
Proof.
  destruct blackOnBarState_facts as (Hp & Hb & Hs & _ & _ & Hm & Hin & _).
  exact (click_on_a_shown_entry_point_enters blackOnBarState (mkMove 21 [3])
           Hp Hb Hs Hm Hin).
Defined.

(** The theorem for Black's entry on point 21 with the 3. *)
Lemma entering_from_the_bar_and_undo_witness :
  exists s1 s2 cs,
    performMove blackOnBarState Bar 21 [3] = Some s1 /\
    gameMessage s1 = MsgMoveMade /\
    tallyOf (bar (boardState s1)) (currentPlayer blackOnBarState)
    = tallyOf (bar (boardState blackOnBarState)) (currentPlayer blackOnBarState) - 1 /\
    js_nth (points (boardState s1)) (21 - 1) = Some (cs ++ [currentPlayer blackOnBarState]) /\
    Permutation (availableDice s1 ++ [3]) (availableDice blackOnBarState) /\
    undoLastMove s1 = Some s2 /\
    boardState s2 = boardState blackOnBarState /\
    moveHistory s2 = moveHistory blackOnBarState /\
    Permutation (availableDice s2) (availableDice blackOnBarState).
Proof.
  destruct blackOnBarState_facts as (_ & _ & _ & Hwf & Hpos & Hm & Hin & _).
  rewrite Hm in Hin.
  exact (entering_from_the_bar_and_undo blackOnBarState (mkMove 21 [3]) Hwf Hpos Hin).
Defined.

(** ** The undo of an entry from the bar *)

(** X24: after the undo of an entry from the bar the entry options come
    back with the bar effect.  [undoLastMove] is the callback of a render in
    which [mustReenterFromBar] was false, so the [calculatePossibleMoves] it
    calls for the bar returns no option: the undone state has the flag set and
    nothing shown.  The effect that manages the flag, which runs after the
    next render, then shows exactly the entry options for the dice given
    back. *)
Theorem undone_entry_is_offered_again_by_the_effect s s' :
  isPlaying s = true -> mustReenterFromBar s = false ->
  undoLastMove s = Some s' -> gameMessage s' = MsgUndone ->
  tally_pos (bar (boardState s')) (currentPlayer s') = true ->
  availableDice s' <> [] ->
  mustReenterFromBar s' = true /\ possibleMovesInfo s' = [] /\
  possibleMovesInfo (effectBar s')
  = calculatePossibleMoves true Bar (availableDice s') (currentPlayer s')
      (boardState s').
Proof.
  intros Hp Hflag Hundo Hmsg Hbar Hdice.
  assert (Hlen : (0 <? Z.of_nat (length (availableDice s'))) = true).
  { apply Z.ltb_lt. destruct (availableDice s'); [contradiction|]. cbn [length]. lia. }
  destruct (undoLastMove_frame _ _ Hundo) as (_ & Hplayer & Hplaying).
  assert (Hshape : mustReenterFromBar s' = true /\ possibleMovesInfo s' = []).
  { revert Hundo. unfold undoLastMove.
    destruct (last (moveHistory s)) as [r|];
      [|intros [= <-]; discriminate Hmsg].
    destruct (undoMoveBack r _) as [[s1|nb]|] eqn:Hback; [| |discriminate].
    - apply undoMoveBack_message in Hback. intros [= <-]. subst s1.
      discriminate Hmsg.
    - intros [= <-]. revert Hbar. unfold undoFinish.
      destruct (tally_pos (bar (undoHit r nb)) (currentPlayer s)) eqn:Hpos.
      + intros _. rewrite Hflag. auto.
      + proj_simpl. rewrite Hpos. discriminate. }
  destruct Hshape as [Hflag' Hnone]. split; [exact Hflag'|]. split; [exact Hnone|].
  unfold effectBar. rewrite Hplaying, Hp, Hbar, Hlen, Hflag'. reflexivity.
Qed.

(** ** An undo that fails *)

(** X25: an undo that fails loses the move.  When the last move of the
    history went to a point and the top checker of that point is not of the
    colour recorded for the move (or the point is empty or missing),
    [undoLastMove] reports the error after it has shortened the history: the
    board, the dice and all the rest of the state stay as they are, and the
    move can no longer be undone. *)
Theorem failed_undo_forgets_the_move s r :
  last (moveHistory s) = Some r ->
  toPoint r <> 0 -> toPoint r <> 25 ->
  last (checkersAt (boardState s) (toPoint r - 1)) <> Some (checkerColor r) ->
  undoLastMove s
  = Some (setGameMessage MsgErrorUndoing
            (setMoveHistory (removelast (moveHistory s)) s)).
Proof.
  intros Hlast H0 H25 Htop. unfold undoLastMove. rewrite Hlast.
  unfold undoMoveBack.
  destruct (Z.eqb_spec (toPoint r) 0); [contradiction|].
  destruct (Z.eqb_spec (toPoint r) 25); [contradiction|]. cbn [orb].
  proj_simpl. unfold checkersAt in Htop.
  destruct (js_nth (points (boardState s)) (toPoint r - 1)) as [tgt|];
    [|reflexivity].
  change (last tgt <> Some (checkerColor r)) in Htop.
  destruct (last tgt) as [top|]; [|reflexivity].
  destruct (String.eqb_spec top (checkerColor r)) as [E|_]; [|reflexivity].
  exfalso. apply Htop. f_equal. exact E.
Qed.

(** ** Two pending ends of the turn *)

(** X26: two pending [endTurn] give the turn back.  [endTurn] flips the
    current player of the state it runs on, whatever the render that created
    the callback.  When two callbacks of a game in play are pending and both
    fire, the first passes the turn and the second returns it: the player who
    moved is to roll again, with the board as it was and no dice. *)
Theorem two_pending_endTurns_give_the_turn_back s c1 c2 rest :
  timers s = c1 :: c2 :: rest ->
  seenPlaying c1 = true -> white (seenHome c1) <> 15 -> black (seenHome c1) <> 15 ->
  seenPlaying c2 = true -> white (seenHome c2) <> 15 -> black (seenHome c2) <> 15 ->
  isKey (currentPlayer s) ->
  exists s1 s2,
    fireTimer 0 s = Some s1 /\ currentPlayer s1 = nextPlayer (currentPlayer s) /\
    fireTimer 0 s1 = Some s2 /\ currentPlayer s2 = currentPlayer s /\
    boardState s2 = boardState s /\ availableDice s2 = [] /\ timers s2 = rest.
Proof.
  intros Ht Hp1 Hw1 Hb1 Hp2 Hw2 Hb2 Hkey.
  eexists. eexists.
  split.
  { unfold fireTimer. rewrite Ht. cbn [lookup list_lookup delete list_delete].
    rewrite (endTurn_passes _ _ Hp1 Hw1 Hb1). reflexivity. }
  proj_simpl. split; [reflexivity|].
  split.
  { unfold fireTimer. proj_simpl. cbn [lookup list_lookup delete list_delete].
    rewrite (endTurn_passes _ _ Hp2 Hw2 Hb2). reflexivity. }
  proj_simpl. refine (conj _ (conj eq_refl (conj eq_refl eq_refl))).
  destruct Hkey as [-> | ->]; reflexivity.
Qed.

(** After a move with the last die, its undo and the same move again, two
    callbacks of White's turn are pending. *)
Lemma twoTimersState_facts :
  timers twoTimersState = [mkClosure true (mkTally 0 0) "white";
                           mkClosure true (mkTally 0 0) "white"] /\
  currentPlayer twoTimersState = "white".
Proof. split; vm_compute; reflexivity. Qed.

(** The history says that a White checker went to point 9; the checker on
    point 9 is Black. *)
Lemma mixedMoveState_facts :
  last (moveHistory mixedMoveState)
  = Some (mkRecord (Pt 10) 9 "white" false None [1]) /\
  last (checkersAt (boardState mixedMoveState) (9 - 1)) = Some "black".
Proof. split; vm_compute; reflexivity. Qed.


(** Black has entered with the 3 and has no checker left on the bar; the
    undo puts the checker back on the bar. *)
Lemma undoneEntryState_facts :
  isPlaying enteredState = true /\ mustReenterFromBar enteredState = false /\
  undoLastMove enteredState = Some undoneEntryState /\
  gameMessage undoneEntryState = MsgUndone /\
  tally_pos (bar (boardState undoneEntryState)) (currentPlayer undoneEntryState) = true /\
  availableDice undoneEntryState = [5; 3].
Proof. refine (conj _ (conj _ (conj _ (conj _ (conj _ _))))); vm_compute; reflexivity. Qed.

(** The theorem for the undo of Black's entry on point 21. *)
Lemma undone_entry_is_offered_again_by_the_effect_witness :
  mustReenterFromBar undoneEntryState = true /\
  possibleMovesInfo undoneEntryState = [] /\
  possibleMovesInfo (effectBar undoneEntryState)
  = calculatePossibleMoves true Bar (availableDice undoneEntryState)
      (currentPlayer undoneEntryState) (boardState undoneEntryState).
Proof.
  destruct undoneEntryState_facts as (Hp & Hf & Hu & Hm & Hb & Hd).
  refine (undone_entry_is_offered_again_by_the_effect enteredState undoneEntryState
            Hp Hf Hu Hm Hb _).
  rewrite Hd. discriminate.
Defined.

(** The theorem for White's move from the mixed point 10 to point 9. *)
Lemma failed_undo_forgets_the_move_witness :
  undoLastMove mixedMoveState
  = Some (setGameMessage MsgErrorUndoing
            (setMoveHistory (removelast (moveHistory mixedMoveState)) mixedMoveState)).
Proof.
  destruct mixedMoveState_facts as (Hlast & Htop).
  refine (failed_undo_forgets_the_move mixedMoveState
            (mkRecord (Pt 10) 9 "white" false None [1]) Hlast _ _ _).
  - cbn [toPoint]. lia.
  - cbn [toPoint]. lia.
  - cbn [toPoint checkerColor]. rewrite Htop. discriminate.
Defined.

(** The theorem for the two callbacks of White's opening turn: after both
    it is White's turn again. *)
Lemma two_pending_endTurns_give_the_turn_back_witness :
  exists s1 s2,
    fireTimer 0 twoTimersState = Some s1 /\
    currentPlayer s1 = nextPlayer (currentPlayer twoTimersState) /\
    fireTimer 0 s1 = Some s2 /\ currentPlayer s2 = currentPlayer twoTimersState /\
    boardState s2 = boardState twoTimersState /\ availableDice s2 = [] /\
    timers s2 = [].
Proof.
  destruct twoTimersState_facts as (Ht & Hc).
  refine (two_pending_endTurns_give_the_turn_back twoTimersState
            (mkClosure true (mkTally 0 0) "white")
            (mkClosure true (mkTally 0 0) "white") [] Ht eq_refl _ _ eq_refl _ _ _).
  - cbn [seenHome white]. lia.
  - cbn [seenHome black]. lia.
  - cbn [seenHome white]. lia.
  - cbn [seenHome black]. lia.
  - left. exact Hc.
Defined.
